(** * Q-TDFP entropy engine: a shallow embedding of [src/lib/quantumEntropy.ts]

    The TypeScript module is a pipeline of pure functions over byte
    arrays, 32-bit integers and IEEE-754 doubles.  The embedding keeps
    the three kinds of number apart, the way the JavaScript semantics
    does:

    - a JavaScript [number] that holds a double is a primitive [float]
      (binary64, round to nearest even: the arithmetic of the engine);
    - the operands and results of the bit operators ([|], [^], [&],
      [<<], [>>>]) are [Z] with the 32-bit wrap-around written out;
    - a [Uint8Array] is a [list Z] whose elements are stored modulo 256;
      a read past the end is [undefined], which the bit operators read
      as 0.

    A [string] is its sequence of UTF-16 code units ([charCodeAt]). *)

From Stdlib Require Import ZArith List Lia Bool String Ascii.
From Stdlib Require Import Floats.
Import ListNotations.

#[local] Open Scope Z_scope.
#[local] Set Warnings "-inexact-float".

(** ** JavaScript integer conversions and bit operators *)

Module JS.

(** [ToInt32]: reduce modulo 2^32 into [-2^31, 2^31). *)
Definition ToInt32 (z : Z) : Z := (z + 2147483648) mod 4294967296 - 2147483648.

(** [ToUint32]: reduce modulo 2^32 into [0, 2^32). *)
Definition ToUint32 (z : Z) : Z := z mod 4294967296.

(** [a | b], [a ^ b], [a & b] on numbers that hold integers. *)
Definition or (a b : Z) : Z := ToInt32 (Z.lor (ToInt32 a) (ToInt32 b)).
Definition xor (a b : Z) : Z := ToInt32 (Z.lxor (ToInt32 a) (ToInt32 b)).
Definition and (a b : Z) : Z := ToInt32 (Z.land (ToInt32 a) (ToInt32 b)).

(** [a << n] and [a >>> n] for a shift count [0 <= n < 32]. *)
Definition shl (a n : Z) : Z := ToInt32 (Z.shiftl (ToInt32 a) n).
Definition ushr (a n : Z) : Z := Z.shiftr (ToUint32 a) n.

(** The integer part of a double, rounded toward zero; 0 for NaN and
    the infinities (the first step of the [ToInt32] of a double). *)
Definition truncate (f : float) : Z :=
  match Prim2SF f with
  | S754_finite s m e =>
      let a := if 0 <=? e then Z.shiftl (Zpos m) e else Z.shiftr (Zpos m) (- e) in
      if s then - a else a
  | _ => 0
  end.

(** [ToInt32] of a double: what [f | 0] and the operands of [^], [&] see. *)
Definition ToInt32F (f : float) : Z := ToInt32 (truncate f).

(** A number that holds an integer [0 <= z < 2^63], as a double. *)
Definition of_int (z : Z) : float := PrimFloat.of_uint63 (Uint63.of_Z z).

(** [Math.min] and [Math.max] of two doubles: NaN if either is NaN,
    and [-0] below [+0]. *)
Definition Math_min (a b : float) : float :=
  if is_nan a || is_nan b then nan
  else if (a <? b)%float then a
  else if (b <? a)%float then b
  else if get_sign a then a else b.

Definition Math_max (a b : float) : float :=
  if is_nan a || is_nan b then nan
  else if (b <? a)%float then a
  else if (a <? b)%float then b
  else if get_sign a then b else a.

(** [Math.abs] of an int32 held in a number (2^31 for -2^31: no wrap). *)
Definition Math_abs (z : Z) : Z := Z.abs z.

End JS.

(** ** Typed arrays *)

Definition Uint8Array := list Z.

(** A store into a [Uint8Array] keeps the low 8 bits. *)
Definition u8 (z : Z) : Z := z mod 256.

(** [new Uint8Array(values)]. *)
Definition Uint8Array_from (values : list Z) : Uint8Array := map u8 values.

(** [a[i]]: [None] is [undefined]. *)
Definition aget (a : list Z) (i : Z) : option Z :=
  if i <? 0 then None else nth_error a (Z.to_nat i).

(** [undefined] as an operand of a bit operator is 0. *)
Definition int_of (v : option Z) : Z :=
  match v with Some z => z | None => 0 end.

(** [a[i] = v] on a typed array: a store past the end is dropped. *)
Fixpoint set_nth (a : list Z) (i : nat) (v : Z) : list Z :=
  match a, i with
  | [], _ => []
  | _ :: tl, O => v :: tl
  | x :: tl, S i' => x :: set_nth tl i' v
  end.

Definition aset (a : Uint8Array) (i : Z) (v : Z) : Uint8Array :=
  if i <? 0 then a else set_nth a (Z.to_nat i) (u8 v).

Definition len (a : list Z) : Z := Z.of_nat (List.length a).

(** [is_bytes a]: every element is a byte, as in every [Uint8Array]. *)
Definition is_byte (b : Z) : bool := (0 <=? b) && (b <? 256).
Definition is_bytes (a : list Z) : Prop := forallb is_byte a = true.

(** ** The chaotic maps *)

(** [logisticMap(x, r = 3.99)]: [r * x * (1 - x)]. *)
Definition logisticMap (x : float) : float := (3.99 * x * (1 - x))%float.

(** [tentMap(x, mu = 1.99)]: [x < 0.5 ? mu * x : mu * (1 - x)]. *)
Definition tentMap (x : float) : float :=
  if (x <? 0.5)%float then (1.99 * x)%float else (1.99 * (1 - x))%float.

(** ** [generateEntropySeed] *)

(** One turn of the loop over the characters:
    [hash = ((hash << 5) - hash + char) | 0; hash = hash ^ (hash >>> 16)]. *)
Definition seed_step (hash char : Z) : Z :=
  let hash := JS.ToInt32 (JS.shl hash 5 - hash + char) in
  JS.xor hash (JS.ushr hash 16).

Definition seed_hash (password : list Z) : Z := fold_left seed_step password 0.

Definition generateEntropySeed (password : list Z) : float :=
  let hash := seed_hash password in
  let normalized := (JS.of_int (JS.Math_abs hash) / 2147483647)%float in
  JS.Math_max 0.0001 (JS.Math_min 0.9999 normalized).

(** ** [entropyStream] *)

(** The burn-in loop: [n] updates of both maps, nothing yielded. *)
Fixpoint burn_in (n : nat) (x y : float) : float * float :=
  match n with
  | O => (x, y)
  | S n' => burn_in n' (logisticMap x) (tentMap y)
  end.

(** The yielding loop: [n] updates, each followed by one yielded value
    [((x + y) / 2 * 256) | 0]. *)
Fixpoint yield_loop (n : nat) (x y : float) : list Z :=
  match n with
  | O => []
  | S n' =>
      let x := logisticMap x in
      let y := tentMap y in
      JS.ToInt32F ((x + y) / 2 * 256)%float :: yield_loop n' x y
  end.

(** The values the generator yields when it is run to its end. *)
Definition entropyStream (seed : float) (iterations : Z) : list Z :=
  let x := seed in
  let y := tentMap seed in
  let '(x, y) := burn_in 100 x y in
  yield_loop (Z.to_nat iterations) x y.

(** ** Hexadecimal rendering: [b.toString(16).padStart(2, '0')] *)

Definition hex_digit (d : Z) : ascii :=
  match d with
  | 0 => "0" | 1 => "1" | 2 => "2" | 3 => "3" | 4 => "4" | 5 => "5"
  | 6 => "6" | 7 => "7" | 8 => "8" | 9 => "9" | 10 => "a" | 11 => "b"
  | 12 => "c" | 13 => "d" | 14 => "e" | _ => "f"
  end%char.

(** The digits of [z >= 0], most significant first; [fuel] bounds their
    number (8 digits hold every 32-bit magnitude). *)
Fixpoint hex_digits (fuel : nat) (z : Z) : string :=
  match fuel with
  | O => EmptyString
  | S fuel' =>
      if z <? 16 then String (hex_digit z) EmptyString
      else (hex_digits fuel' (z / 16) ++ String (hex_digit (z mod 16)) EmptyString)%string
  end.

(** [z.toString(16)] for a number that holds an int32: a minus sign
    before the digits of a negative number. *)
Definition toString16 (z : Z) : string :=
  if z <? 0 then String "-"%char (hex_digits 8 (- z)) else hex_digits 8 z.

(** [s.padStart(n, c)]. *)
Definition padStart (n : nat) (c : ascii) (s : string) : string :=
  (string_of_list_ascii (repeat c (n - String.length s)) ++ s)%string.

Definition hex2 (b : Z) : string := padStart 2 "0"%char (toString16 b).

(** [values.map(hex2).join('')]. *)
Definition hex_join (values : list Z) : string :=
  String.concat EmptyString (map hex2 values).

(** ** [generateEntropyFingerprint] *)

Definition generateEntropyFingerprint (password : list Z) : string :=
  let seed := generateEntropySeed password in
  let stream := entropyStream seed 32 in
  (* for (const byte of stream) fingerprint.push(byte) *)
  let fingerprint := fold_left (fun acc byte => acc ++ [byte]) stream [] in
  hex_join fingerprint.

(** ** [quantumHash] *)

(** [for (let i = 0; i < n; i++) body], as a state transformer. *)
Definition for_loop {S : Type} (n : nat) (body : Z -> S -> S) (s : S) : S :=
  fold_left (fun s i => body (Z.of_nat i) s) (seq 0 n) s.

(** [hash[j]] of the 32-byte state. *)
Definition hget (hash : Uint8Array) (j : Z) : Z := int_of (aget hash j).

(** The diffusion pass, in place and in increasing [j]. *)
Definition diffuse (hash : Uint8Array) : Uint8Array :=
  for_loop 32 (fun j hash =>
    aset hash j (JS.and (hget hash j + hget hash ((j + 1) mod 32)) 255)) hash.

(** One turn of the loop that mixes [data[i]] into the state. *)
Definition mix_byte (data : Uint8Array) (i : Z) (hash : Uint8Array) : Uint8Array :=
  let pos := i mod 32 in
  let chaos := (logisticMap (JS.of_int (hget hash pos) / 256) * 256)%float in
  let hash :=
    aset hash pos
      (JS.and (JS.xor (JS.xor (hget hash pos) (int_of (aget data i))) (JS.ToInt32F chaos)) 255) in
  if i mod 32 =? 31 then diffuse hash else hash.

(** One of the 16 final rounds. *)
Definition final_round (hash : Uint8Array) : Uint8Array :=
  for_loop 32 (fun j hash =>
    let hash := aset hash j (JS.and (JS.xor (hget hash j) (hget hash ((j + 13) mod 32))) 255) in
    let chaos := (logisticMap (JS.of_int (hget hash j) / 256) * 128)%float in
    aset hash j (JS.and (JS.ToInt32F (JS.of_int (hget hash j) + chaos)%float) 255)) hash.

(** The 32-byte state before it is rendered. *)
Definition quantumHash_bytes (data : Uint8Array) (password : list Z) : Uint8Array :=
  let seed := generateEntropySeed password in
  let hash := repeat 0 32 in
  let initStream := entropyStream seed 32 in
  (* let idx = 0; for (const byte of initStream) hash[idx++] = byte *)
  let '(hash, _) :=
    fold_left (fun '(hash, idx) byte => (aset hash idx byte, idx + 1)) initStream (hash, 0) in
  let hash := for_loop (List.length data) (mix_byte data) hash in
  for_loop 16 (fun _ hash => final_round hash) hash.

Definition quantumHash (data : Uint8Array) (password : list Z) : string :=
  hex_join (quantumHash_bytes data password).

(** ** [quantumCompress] and [quantumDecompress]

    The loops walk an index [i] through [data]; the embedding carries
    the part of the array from [i] on. *)

(** The inner loop of [quantumCompress]: [rest] is the array from
    [i + runLength] on, [v] is [data[i]]. *)
Fixpoint scan_run (v : Z) (rest : list Z) (runLength : Z) : Z :=
  match rest with
  | b :: rest' =>
      if (v =? b) && (runLength <? 255) then scan_run v rest' (runLength + 1)
      else runLength
  | [] => runLength
  end.

(** The loop over [j] that stores the bytes of a short run. *)
Definition push_raw (result : list Z) (bytes : list Z) : list Z :=
  fold_left (fun result byte =>
    if byte =? 254 then result ++ [254; 1; byte] else result ++ [byte]) bytes result.

(** The outer loop: [rest] is the array from [i] on.  Every turn
    consumes at least one byte, so [length rest] turns are enough. *)
Fixpoint compress_loop (fuel : nat) (rest : list Z) (result : list Z) : list Z :=
  match fuel, rest with
  | S fuel', v :: tl =>
      let runLength := scan_run v tl 1 in
      let result :=
        if 3 <=? runLength then result ++ [254; runLength; v]
        else push_raw result (firstn (Z.to_nat runLength) rest) in
      compress_loop fuel' (skipn (Z.to_nat runLength) rest) result
  | _, _ => result
  end.

Definition quantumCompress (data : Uint8Array) : Uint8Array :=
  Uint8Array_from (compress_loop (List.length data) data []).

(** The loop of [quantumDecompress]: [rest] is the array from [i] on;
    [i + 2 < data.length] says that two more bytes follow [data[i]]. *)
Fixpoint decompress_loop (rest : list Z) (result : list Z) : list Z :=
  match rest with
  | [] => result
  | b :: tl =>
      match tl with
      | length :: value :: tl' =>
          if b =? 254 then decompress_loop tl' (result ++ repeat value (Z.to_nat length))
          else decompress_loop tl (result ++ [b])
      | _ => decompress_loop tl (result ++ [b])
      end
  end.

Definition quantumDecompress (data : Uint8Array) : Uint8Array :=
  Uint8Array_from (decompress_loop data []).

(** ** Calls that may throw, and the progress callback

    [quantumEncrypt] and [quantumDecrypt] take an optional callback.
    A callback is foreign code: it acts on a world [W] of its own and
    may throw.  A call of the engine either returns a value together
    with the world the callbacks left, or throws. *)

Inductive exn : Type := RangeError | CallbackError.

Inductive completion (A : Type) : Type :=
| Returns (a : A)
| Throws (e : exn).
Arguments Returns {A} a.
Arguments Throws {A} e.

Definition callback (W : Type) : Type := float -> W -> completion W.

(** [if (onProgress && due) onProgress(progress)]. *)
Definition report {W : Type} (onProgress : option (callback W))
    (due : bool) (progress : float) (w : W) : completion W :=
  match onProgress with
  | Some f => if due then f progress w else Returns w
  | None => Returns w
  end.

(** ** [quantumEncrypt] *)

Record EncryptResult : Type := mkEncryptResult
  { encrypted : Uint8Array; fingerprint : string; hash : string }.

(** [for (const keyByte of stream) { ... }]: [idx] and [processedBytes]
    are the loop's counters, [encrypted] the array it fills. *)
Fixpoint encrypt_loop {W : Type} (stream : list Z) (compressed : Uint8Array)
    (onProgress : option (callback W)) (idx processedBytes : Z)
    (encrypted : Uint8Array) (w : W) : completion (Uint8Array * W) :=
  match stream with
  | [] => Returns (encrypted, w)
  | keyByte :: stream' =>
      if len compressed <=? idx - 8 then Returns (encrypted, w)
      else
        let encrypted :=
          aset encrypted idx (JS.xor (int_of (aget compressed (idx - 8))) keyByte) in
        let idx := idx + 1 in
        let processedBytes := processedBytes + 1 in
        match report onProgress (processedBytes mod 1024 =? 0)
                (JS.of_int processedBytes / JS.of_int (len compressed))%float w with
        | Returns w' =>
            encrypt_loop stream' compressed onProgress idx processedBytes encrypted w'
        | Throws e => Throws e
        end
  end.

Definition quantumEncrypt {W : Type} (data : Uint8Array) (password : list Z)
    (onProgress : option (callback W)) (w : W) : completion (EncryptResult * W) :=
  let seed := generateEntropySeed password in
  let fingerprint := generateEntropyFingerprint password in
  let compressed := quantumCompress data in
  let encrypted := repeat 0 (Z.to_nat (len compressed + 8)) in
  let encrypted := aset encrypted 0 (JS.and (JS.ushr (len data) 24) 255) in
  let encrypted := aset encrypted 1 (JS.and (JS.ushr (len data) 16) 255) in
  let encrypted := aset encrypted 2 (JS.and (JS.ushr (len data) 8) 255) in
  let encrypted := aset encrypted 3 (JS.and (len data) 255) in
  let encrypted := aset encrypted 4 (JS.and (JS.ushr (len compressed) 24) 255) in
  let encrypted := aset encrypted 5 (JS.and (JS.ushr (len compressed) 16) 255) in
  let encrypted := aset encrypted 6 (JS.and (JS.ushr (len compressed) 8) 255) in
  let encrypted := aset encrypted 7 (JS.and (len compressed) 255) in
  let stream := entropyStream seed (len compressed) in
  match encrypt_loop stream compressed onProgress 8 0 encrypted w with
  | Returns (encrypted, w') =>
      let hash := quantumHash encrypted password in
      Returns (mkEncryptResult encrypted fingerprint hash, w')
  | Throws e => Throws e
  end.

(** ** [quantumDecrypt] *)

(** [(a[i] << 24) | (a[i+1] << 16) | (a[i+2] << 8) | a[i+3]]. *)
Definition read_length (a : Uint8Array) (i : Z) : Z :=
  JS.or (JS.or (JS.or (JS.shl (int_of (aget a i)) 24)
                      (JS.shl (int_of (aget a (i + 1))) 16))
               (JS.shl (int_of (aget a (i + 2))) 8))
        (int_of (aget a (i + 3))).

Fixpoint decrypt_loop {W : Type} (stream : list Z) (encrypted : Uint8Array)
    (compressedLength : Z) (onProgress : option (callback W)) (idx : Z)
    (compressed : Uint8Array) (w : W) : completion (Uint8Array * W) :=
  match stream with
  | [] => Returns (compressed, w)
  | keyByte :: stream' =>
      if compressedLength <=? idx then Returns (compressed, w)
      else
        let compressed :=
          aset compressed idx (JS.xor (int_of (aget encrypted (idx + 8))) keyByte) in
        let idx := idx + 1 in
        match report onProgress (idx mod 1024 =? 0)
                (JS.of_int idx / JS.of_int compressedLength)%float w with
        | Returns w' =>
            decrypt_loop stream' encrypted compressedLength onProgress idx compressed w'
        | Throws e => Throws e
        end
  end.

(** The value is [Some plaintext], or [None] for [null]. *)
Definition quantumDecrypt {W : Type} (encrypted : Uint8Array) (password : list Z)
    (expectedFingerprint expectedHash : string)
    (onProgress : option (callback W)) (w : W)
    : completion (option Uint8Array * W) :=
  let fingerprint := generateEntropyFingerprint password in
  if negb (String.eqb fingerprint expectedFingerprint) then Returns (None, w)
  else
    let hash := quantumHash encrypted password in
    if negb (String.eqb hash expectedHash) then Returns (None, w)
    else
      let originalLength := read_length encrypted 0 in
      let compressedLength := read_length encrypted 4 in
      let seed := generateEntropySeed password in
      (* new Uint8Array(n) throws a RangeError for a negative n *)
      if compressedLength <? 0 then Throws RangeError
      else
        let compressed := repeat 0 (Z.to_nat compressedLength) in
        let stream := entropyStream seed compressedLength in
        match decrypt_loop stream encrypted compressedLength onProgress 0 compressed w with
        | Returns (compressed, w') =>
            let decompressed := quantumDecompress compressed in
            if negb (len decompressed =? originalLength) then Returns (None, w')
            else Returns (Some decompressed, w')
        | Throws e => Throws e
        end.

(** The calls that leave the optional [onProgress] out. *)
Definition encrypt (data : Uint8Array) (password : list Z) : completion (EncryptResult * unit) :=
  quantumEncrypt data password None tt.

Definition decrypt (container : Uint8Array) (password : list Z)
    (expectedFingerprint expectedHash : string) : completion (option Uint8Array * unit) :=
  quantumDecrypt container password expectedFingerprint expectedHash None tt.

(** A password written as a Rocq string of ASCII characters. *)
Definition password_of (s : string) : list Z :=
  map (fun c => Z.of_N (N_of_ascii c)) (list_ascii_of_string s).

(** ** Auxiliary definitions for the statements below *)

(** [is_bytes] is checked by evaluation; the proofs use it as a [Forall]. *)
Definition all_bytes (a : list Z) : Prop := Forall (fun b => 0 <= b < 256) a.

(** The four bytes [encrypt] stores for a length [n]. *)
Definition be32 (n : Z) : list Z :=
  [ (JS.ToUint32 n / 16777216) mod 256; (JS.ToUint32 n / 65536) mod 256;
    (JS.ToUint32 n / 256) mod 256; n mod 256 ].

(** [xor_bytes a stream]: the stored bytes [a[i] ^ stream[i]]. *)
Definition xor_bytes (a stream : list Z) : list Z :=
  map (fun '(c, k) => u8 (JS.xor c k)) (combine a stream).

(** [callback_threw onProgress e]: a call of the callback threw [e]. *)
Definition callback_threw {W : Type} (onProgress : option (callback W)) (e : exn) : Prop :=
  exists f progress w, onProgress = Some f /\ f progress w = Throws e.

(** The container [quantumEncrypt] builds: header, then the compressed
    bytes xored with the keystream. *)
Definition container_of (data : Uint8Array) (password : list Z) : Uint8Array :=
  let compressed := quantumCompress data in
  (be32 (len data) ++ be32 (len compressed)) ++
  xor_bytes compressed (entropyStream (generateEntropySeed password) (len compressed)).

Definition encrypt_value (data : Uint8Array) (password : list Z) : EncryptResult :=
  mkEncryptResult (container_of data password)
    (generateEntropyFingerprint password)
    (quantumHash (container_of data password) password).

(** ** The seed as the design document words it

    "[h = ((h << 5) - h + code) mod 2^32], then [h ^= h >> 16], applied
    per character, using wrap-around 32-bit arithmetic", then
    [clamp(|h| / 2147483647, 0.0001, 0.9999)].  The shift is a
    parameter: the document's [>>] is the sign-extending shift. *)

(** [z] modulo 2^32, read as a two's-complement 32-bit integer. *)
Definition wrap32 (z : Z) : Z :=
  let u := z mod 4294967296 in
  if u <? 2147483648 then u else u - 4294967296.

(** The sign-extending shift of a 32-bit integer, and the zero-filling
    shift of its 32-bit pattern. *)
Definition shift_arithmetic (h n : Z) : Z := h / 2 ^ n.
Definition shift_logical (h n : Z) : Z := (h mod 4294967296) / 2 ^ n.

Definition rolling_step (shift : Z -> Z -> Z) (h code : Z) : Z :=
  let h := wrap32 (h * 32 - h + code) in
  wrap32 (Z.lxor h (shift h 16)).

Definition rolling_hash (shift : Z -> Z -> Z) (password : list Z) : Z :=
  fold_left (rolling_step shift) password 0.

Definition clamp (x lo hi : float) : float := JS.Math_max lo (JS.Math_min hi x).

Definition derive_seed (shift : Z -> Z -> Z) (password : list Z) : float :=
  clamp (JS.of_int (Z.abs (rolling_hash shift password)) / 2147483647)%float 0.0001 0.9999.

(** ** Nonnegative finite doubles and their scaled values *)

(** [SFnn f]: [f] is a zero or a positive finite number. *)
Definition SFnn (f : spec_float) : bool :=
  match f with
  | S754_zero _ | S754_finite false _ _ => true
  | _ => false
  end.

(** The value of a nonnegative finite number in units of [2^-K]:
    [m * 2^(e + K)] (an integer when [0 <= e + K]); 0 otherwise. *)
Definition SFval (K : Z) (f : spec_float) : Z :=
  match f with
  | S754_finite false m e => Zpos m * 2 ^ (e + K)
  | _ => 0
  end.

(** [nnf f]: the double [f] is a zero or a positive finite number;
    [val f]: its value in units of [2^-1074], the smallest positive
    double, so that every nonnegative finite double is an integer. *)
Definition nnf (f : float) : Prop := SFnn (Prim2SF f) = true.
Definition val (f : float) : Z := SFval 1074 (Prim2SF f).

(** ** Certificates for the logistic map

    [logisticMap] maps the doubles of [0, 1] into [0, 1].  The proof
    cuts [0, 1] at the points [k / 1024] for the [k] of [grid] (finer
    near [1/2], where the map comes closest to 1) and bounds the map on
    each piece by a computation: on [a, b] the product [3.99 * x] is
    at most [B1], [1 - x] at most [B2], and their product at most
    [B3 <= 1], for three doubles found by rounding up. *)

Definition nnfb (f : float) : bool := SFnn (Prim2SF f).

Definition grid_point (k : Z) : float := (JS.of_int k / 1024)%float.

Definition logistic_check (ka kb : Z) : bool :=
  let a := grid_point ka in
  let b := grid_point kb in
  let B1 := next_up (3.99 * b)%float in
  let B2 := next_up (1 - a)%float in
  let B3 := next_up (B1 * B2)%float in
  nnfb a && nnfb b && nnfb B1 && nnfb B2 && nnfb B3 &&
  (val a =? ka * 2 ^ 1064) && (val b =? kb * 2 ^ 1064) &&
  (0 <? val B1) && (0 <? val B2) && (0 <? val B3) &&
  (val 3.99 * val b <=? val B1 * 2 ^ 1074) &&
  (val b <=? val 1) &&
  (val 1 - val a <=? val B2) &&
  (val B1 * val B2 <=? val B3 * 2 ^ 1074) &&
  (val B3 <=? val 1).

Fixpoint check_pairs (ka : Z) (l : list Z) : bool :=
  match l with
  | [] => true
  | kb :: l' => logistic_check ka kb && check_pairs kb l'
  end.

Definition grid : list Z :=
  [256; 342; 385; 411; 428; 440; 450; 457; 463; 468; 472; 476; 479; 482; 484;
   486; 488; 490; 492; 493; 494; 495; 496; 497; 498; 499; 500; 501; 502; 503;
   504; 505; 506; 507; 508; 509; 510; 511; 512; 513; 514; 515; 516; 517; 518;
   519; 520; 521; 522; 523; 524; 525; 526; 527; 528; 529; 530; 531; 533; 535;
   537; 539; 541; 544; 547; 550; 554; 559; 565; 572; 581; 593; 609; 633; 672;
   746; 945; 1024].

(** ** The stream as the design document words it

    "Initialize [x = seed], [y = tent(seed)].  Run exactly 100 burn-in
    iterations updating both maps.  Then for each of [count]
    iterations: update both maps, emit
    [floor(((x + y) / 2) * 256) & 0xFF]", the floor truncating toward
    zero. *)

Definition chaos_update (s : float * float) : float * float :=
  (logisticMap (fst s), tentMap (snd s)).

Definition chaos_emit (s : float * float) : Z :=
  Z.land (JS.truncate ((fst s + snd s) / 2 * 256)%float) 255.

Fixpoint chaos_emits (count : nat) (s : float * float) : list Z :=
  match count with
  | O => []
  | S count' => let s' := chaos_update s in chaos_emit s' :: chaos_emits count' s'
  end.

Definition chaos_stream (seed : float) (count : nat) : list Z :=
  chaos_emits count (Nat.iter 100 chaos_update (seed, tentMap seed)).

(** ** The fingerprint as the design document words it: each byte as
    two lowercase hexadecimal characters, in stream order. *)

Definition hex_byte (b : Z) : string :=
  String (hex_digit (b / 16)) (String (hex_digit (b mod 16)) EmptyString).

Definition is_lower_hex (c : ascii) : bool :=
  let n := Z.of_N (N_of_ascii c) in
  ((48 <=? n) && (n <=? 57)) || ((97 <=? n) && (n <=? 102)).

Fixpoint string_forallb (p : ascii -> bool) (s : string) : bool :=
  match s with
  | EmptyString => true
  | String c s' => p c && string_forallb p s'
  end.

(** [in_unit x y]: the state of the two maps is in [0, 1] x [0, 1]. *)
Definition in_unit (x y : float) : Prop :=
  nnf x /\ val x <= val 1 /\ nnf y /\ val y <= val 1.

(** ** Auxiliary definitions of the rounding proofs *)

(** A shift record is inexact when a nonzero bit was shifted out. *)
Definition inexact (mrs : shr_record) : bool := shr_r mrs || shr_s mrs.

(** A nonnegative valid number is a zero or [m * 2^e] with a bounded
    mantissa. *)
Variant nn_view : spec_float -> Type :=
| nn_zero (s : bool) : nn_view (S754_zero s)
| nn_finite (m : positive) (e : Z) :
    bounded prec emax m e = true -> nn_view (S754_finite false m e).

(** The 256 bytes, for properties checked byte by byte. *)
Definition bytes_0_255 : list Z := map Z.of_nat (seq 0 256).


(** ** Auxiliary definitions for the further properties *)

(** No byte of the array is the marker 0xFE. *)
Definition no_marker (a : list Z) : bool := forallb (fun b => negb (b =? 254)) a.

(** No three neighbours of the array are equal. *)
Fixpoint no_run3 (a : list Z) : bool :=
  match a with
  | x :: ((y :: z :: _) as tl) => negb ((x =? y) && (y =? z)) && no_run3 tl
  | _ => true
  end.

(** Every code unit of the password is an ASCII character. *)
Definition ascii_codes (password : list Z) : bool :=
  forallb (fun c => (0 <=? c) && (c <? 128)) password.

(** Reading lowercase hexadecimal back: the value of a digit, and the
    bytes of a string of two-digit groups. *)
Definition hex_value (c : ascii) : Z :=
  let n := Z.of_N (N_of_ascii c) in
  if n <? 58 then n - 48 else n - 87.

Fixpoint unhex (s : string) : list Z :=
  match s with
  | String hi (String lo s') => (16 * hex_value hi + hex_value lo) :: unhex s'
  | _ => []
  end.

(** The counts at which a loop over [n] bytes reports its progress:
    the multiples of 1024 up to [n], in increasing order; and the
    values it reports there. *)
Definition progress_marks (n : Z) : list Z :=
  map (fun k => 1024 * Z.of_nat k) (seq 1 (Z.to_nat (n / 1024))).

Definition progress_values (n : Z) : list float :=
  map (fun q => (JS.of_int q / JS.of_int n)%float) (progress_marks n).

(** The same counts as the loop meets them: those of the [m] turns
    that follow a count of [p]. *)
Fixpoint marks_from (p : Z) (m : nat) : list Z :=
  match m with
  | O => []
  | S m' => (if (p + 1) mod 1024 =? 0 then [p + 1] else []) ++ marks_from (p + 1) m'
  end.

(** The calls of a callback on the given values, in order, up to the
    first that throws. *)
Fixpoint run_callback {W : Type} (f : callback W) (values : list float) (w : W)
    : completion W :=
  match values with
  | [] => Returns w
  | v :: values' =>
      match f v w with
      | Returns w' => run_callback f values' w'
      | Throws e => Throws e
      end
  end.

(** A callback that files the values it is given. *)
Definition record_progress : callback (list float) :=
  fun progress log => Returns (log ++ [progress]).

(** The number that a list of bytes spells, most significant first. *)
Definition big_endian (bytes : list Z) : Z := fold_left (fun n b => 256 * n + b) bytes 0.

(** [a[i] ^ k[i]] for two lists of bytes, as long as both last. *)
Definition xor_lists (a k : list Z) : list Z :=
  map (fun '(c, b) => Z.lxor c b) (combine a k).

(** ** The compressed form as the design document accounts for it

    "Each run of identical input bytes of length L contributes at
    most 3 output bytes when L >= 3, and each literal input byte
    contributes at most 3 output bytes."  The runs are those the
    compressor cuts, left to right: a run ends where the byte changes,
    and at 255 bytes at the latest. *)

(** The runs of [rest] that follow a run of [L] bytes [v]. *)
Fixpoint runs_from (v : Z) (L : Z) (rest : list Z) : list (Z * Z) :=
  match rest with
  | [] => [(v, L)]
  | b :: rest' =>
      if (b =? v) && (L <? 255) then runs_from v (L + 1) rest'
      else (v, L) :: runs_from b 1 rest'
  end.

(** The runs of an array, each as its byte and its length. *)
Definition runs (data : list Z) : list (Z * Z) :=
  match data with
  | [] => []
  | b :: rest => runs_from b 1 rest
  end.

(** The bytes a run stands for. *)
Definition run_bytes (r : Z * Z) : list Z := repeat (fst r) (Z.to_nat (snd r)).

(** A literal byte in the output: escaped when it is the marker. *)
Definition encode_literal (b : Z) : list Z := if b =? 254 then [254; 1; b] else [b].

(** A run in the output: one token from three bytes on, literals below. *)
Definition encode_run (r : Z * Z) : list Z :=
  if 3 <=? snd r then [254; snd r; fst r] else flat_map encode_literal (run_bytes r).

(** * Properties of the run-length codec *)

Section RunLength.

Lemma is_bytes_all_bytes (a : list Z) : is_bytes a <-> all_bytes a.
Proof.
  unfold is_bytes, all_bytes. rewrite forallb_forall, Forall_forall.
  unfold is_byte. split; intros H b Hb; specialize (H b Hb); lia.
Qed.

(** The inner loop never steps back, stops at 255 at the latest, and
    counts only bytes equal to [v]. *)
Lemma scan_run_spec (v : Z) (rest : list Z) :
  forall r, 1 <= r <= 255 ->
    let r' := scan_run v rest r in
    r <= r' <= 255 /\
    (Z.to_nat (r' - r) <= List.length rest)%nat /\
    firstn (Z.to_nat (r' - r)) rest = repeat v (Z.to_nat (r' - r)).
Proof.
  induction rest as [|b rest IH]; intros r Hr; cbn [scan_run].
  - cbv zeta. rewrite Z.sub_diag. cbn. repeat split; lia.
  - destruct (v =? b) eqn:Hvb; cbn [andb].
    + destruct (r <? 255) eqn:Hlt.
      * apply Z.ltb_lt in Hlt. apply Z.eqb_eq in Hvb. subst b.
        destruct (IH (r + 1)) as (H1 & H2 & H3); [lia|].
        cbv zeta.
        replace (Z.to_nat (scan_run v rest (r + 1) - r))
          with (S (Z.to_nat (scan_run v rest (r + 1) - (r + 1)))) by lia.
        cbn [firstn repeat List.length]. rewrite H3. repeat split; lia.
      * cbv zeta. rewrite Z.sub_diag. cbn. repeat split; lia.
    + cbv zeta. rewrite Z.sub_diag. cbn. repeat split; lia.
Qed.

(** The run measured at the head of [v :: tl]. *)
Lemma scan_run_head (v : Z) (tl : list Z) :
  let n := Z.to_nat (scan_run v tl 1) in
  1 <= scan_run v tl 1 <= 255 /\
  (1 <= n <= List.length (v :: tl))%nat /\
  firstn n (v :: tl) = repeat v n.
Proof.
  destruct (scan_run_spec v tl 1) as (H1 & H2 & H3); [lia|].
  cbv zeta in *.
  replace (Z.to_nat (scan_run v tl 1)) with (S (Z.to_nat (scan_run v tl 1 - 1))) by lia.
  cbn [firstn repeat List.length]. rewrite H3. repeat split; lia.
Qed.

Lemma push_raw_app (bytes result : list Z) :
  push_raw result bytes = result ++ push_raw [] bytes.
Proof.
  unfold push_raw. revert result.
  induction bytes as [|b bytes IH]; intro result; cbn [fold_left].
  - now rewrite app_nil_r.
  - rewrite IH. rewrite (IH (if b =? 254 then _ else _)).
    destruct (b =? 254); cbn [app]; now rewrite <- app_assoc.
Qed.

Lemma push_raw_cons (b : Z) (bytes : list Z) :
  push_raw [] (b :: bytes) =
  (if b =? 254 then [254; 1; b] else [b]) ++ push_raw [] bytes.
Proof.
  unfold push_raw at 1. cbn [fold_left]. fold (push_raw (if b =? 254 then [] ++ [254; 1; b] else [] ++ [b]) bytes).
  rewrite push_raw_app. now destruct (b =? 254).
Qed.

Lemma compress_loop_app (fuel : nat) :
  forall rest result,
    compress_loop fuel rest result = result ++ compress_loop fuel rest [].
Proof.
  induction fuel as [|fuel IH]; intros rest result; cbn [compress_loop].
  - destruct rest; now rewrite app_nil_r.
  - destruct rest as [|v tl]; [now rewrite app_nil_r|].
    cbv zeta. rewrite IH. rewrite (IH _ (if 3 <=? _ then _ else _)).
    rewrite app_assoc. f_equal.
    destruct (3 <=? scan_run v tl 1); [reflexivity|].
    now rewrite push_raw_app.
Qed.

Lemma decompress_loop_cons (b : Z) (tl result : list Z) :
  decompress_loop (b :: tl) result =
  match tl with
  | length :: value :: tl' =>
      if b =? 254 then decompress_loop tl' (result ++ repeat value (Z.to_nat length))
      else decompress_loop tl (result ++ [b])
  | _ => decompress_loop tl (result ++ [b])
  end.
Proof. reflexivity. Qed.

Lemma decompress_loop_app (rest : list Z) :
  forall result, decompress_loop rest result = result ++ decompress_loop rest [].
Proof.
  induction rest as [rest IH] using (induction_ltof1 _ (@List.length Z)).
  unfold ltof in IH. intro result.
  destruct rest as [|b tl]; [cbn; now rewrite app_nil_r|].
  rewrite !decompress_loop_cons.
  assert (Htl : (List.length tl < List.length (b :: tl))%nat) by (cbn; lia).
  destruct tl as [|l [|v tl']].
  - rewrite (IH _ Htl), (IH _ Htl ([] ++ _)). now rewrite app_assoc.
  - rewrite (IH _ Htl), (IH _ Htl ([] ++ _)). now rewrite app_assoc.
  - assert (Htl' : (List.length tl' < List.length (b :: l :: v :: tl'))%nat) by (cbn; lia).
    destruct (b =? 254).
    + rewrite (IH _ Htl'), (IH _ Htl' ([] ++ _)). now rewrite app_assoc.
    + rewrite (IH _ Htl), (IH _ Htl ([] ++ _)). now rewrite app_assoc.
Qed.

(** A token is read back as the run it stands for, whatever follows. *)
Lemma decompress_token (n v : Z) (more : list Z) :
  decompress_loop (254 :: n :: v :: more) [] =
  repeat v (Z.to_nat n) ++ decompress_loop more [].
Proof.
  rewrite decompress_loop_cons. change (254 =? 254) with true. cbv iota.
  now rewrite decompress_loop_app.
Qed.

(** A byte other than the marker is read back as itself. *)
Lemma decompress_literal (b : Z) (more : list Z) :
  b <> 254 -> decompress_loop (b :: more) [] = b :: decompress_loop more [].
Proof.
  intro Hb. apply Z.eqb_neq in Hb.
  rewrite decompress_loop_cons.
  destruct more as [|l [|v tl]]; rewrite ?Hb; now rewrite decompress_loop_app.
Qed.

Lemma decompress_push_raw (bytes more : list Z) :
  decompress_loop (push_raw [] bytes ++ more) [] = bytes ++ decompress_loop more [].
Proof.
  induction bytes as [|b bytes IH]; [reflexivity|].
  rewrite push_raw_cons. destruct (b =? 254) eqn:Hb.
  - apply Z.eqb_eq in Hb. subst b. cbn [app].
    rewrite decompress_token, IH. reflexivity.
  - apply Z.eqb_neq in Hb. cbn [app]. rewrite decompress_literal by assumption.
    now rewrite IH.
Qed.

Lemma firstn_skipn_split {A} (n : nat) (l : list A) : l = firstn n l ++ skipn n l.
Proof. symmetry. apply firstn_skipn. Qed.

(** The round trip on the lists the loops build, before the final
    conversion to a [Uint8Array]. *)
Lemma decompress_compress_loop (fuel : nat) :
  forall rest more,
    (List.length rest <= fuel)%nat ->
    decompress_loop (compress_loop fuel rest [] ++ more) [] =
    rest ++ decompress_loop more [].
Proof.
  induction fuel as [|fuel IH]; intros rest more Hlen.
  - destruct rest; [reflexivity | cbn in Hlen; lia].
  - destruct rest as [|v tl]; [reflexivity|].
    cbn [compress_loop]. cbv zeta.
    destruct (scan_run_head v tl) as (Hr & Hn & Hrun). cbv zeta in Hn, Hrun.
    set (r := scan_run v tl 1) in *. set (n := Z.to_nat r) in *.
    rewrite compress_loop_app, <- app_assoc.
    assert (Hskip : (List.length (skipn n (v :: tl)) <= fuel)%nat).
    { rewrite length_skipn. cbn [List.length] in *. lia. }
    rewrite (firstn_skipn_split n (v :: tl)) at 3. rewrite <- app_assoc.
    destruct (3 <=? r) eqn:H3.
    + cbn [app]. rewrite decompress_token. fold n. rewrite Hrun.
      f_equal. now apply IH.
    + rewrite push_raw_app. cbn [app]. rewrite decompress_push_raw.
      f_equal. now apply IH.
Qed.

Lemma all_bytes_split (n : nat) (a : list Z) :
  all_bytes a -> all_bytes (firstn n a) /\ all_bytes (skipn n a).
Proof.
  intro Hb. apply Forall_app. now rewrite firstn_skipn.
Qed.

(** What [compress_loop] pushes is made of bytes. *)
Lemma push_raw_bytes (bytes : list Z) :
  all_bytes bytes -> all_bytes (push_raw [] bytes).
Proof.
  induction 1 as [|b bytes Hb _ IH]; [constructor|].
  rewrite push_raw_cons. apply Forall_app. split; [|exact IH].
  destruct (b =? 254); repeat constructor; lia.
Qed.

Lemma compress_loop_bytes (fuel : nat) :
  forall rest, all_bytes rest -> all_bytes (compress_loop fuel rest []).
Proof.
  induction fuel as [|fuel IH]; intros rest Hb.
  - destruct rest; constructor.
  - destruct rest as [|v tl]; [constructor|].
    cbn [compress_loop]. cbv zeta. rewrite compress_loop_app.
    destruct (scan_run_head v tl) as (Hr & _ & _).
    apply Forall_app. split.
    + destruct (3 <=? scan_run v tl 1).
      * inversion Hb; subst. repeat constructor; lia.
      * cbn [app]. apply push_raw_bytes. now apply all_bytes_split.
    + apply IH. now apply all_bytes_split.
Qed.

Lemma Uint8Array_from_bytes (a : list Z) : all_bytes a -> Uint8Array_from a = a.
Proof.
  induction 1 as [|b a Hb _ IH]; [reflexivity|].
  cbn. unfold Uint8Array_from in IH. rewrite IH. f_equal.
  unfold u8. apply Z.mod_small. lia.
Qed.

Lemma quantumCompress_loop (data : Uint8Array) :
  all_bytes data -> quantumCompress data = compress_loop (List.length data) data [].
Proof.
  intro Hb. unfold quantumCompress. apply Uint8Array_from_bytes.
  now apply compress_loop_bytes.
Qed.

Lemma quantumCompress_bytes (data : Uint8Array) :
  all_bytes data -> all_bytes (quantumCompress data).
Proof.
  intro Hb. rewrite quantumCompress_loop by assumption. now apply compress_loop_bytes.
Qed.

(** The round trip of the codec on an array of bytes. *)
Lemma quantumDecompress_inverse (data : Uint8Array) :
  all_bytes data -> quantumDecompress (quantumCompress data) = data.
Proof.
  intro Hb. rewrite quantumCompress_loop by assumption.
  unfold quantumDecompress.
  rewrite <- (app_nil_r (compress_loop _ _ _)).
  rewrite decompress_compress_loop by lia.
  cbn [decompress_loop]. rewrite app_nil_r. now apply Uint8Array_from_bytes.
Qed.

Lemma push_raw_length (bytes : list Z) :
  (List.length (push_raw [] bytes) <= 3 * List.length bytes)%nat.
Proof.
  induction bytes as [|b bytes IH]; [cbn; lia|].
  rewrite push_raw_cons, length_app. cbn [List.length].
  destruct (b =? 254); cbn [List.length]; lia.
Qed.

(** Every turn of the outer loop pushes at most three bytes for each
    byte it consumes. *)
Lemma compress_loop_length (fuel : nat) :
  forall rest, (List.length (compress_loop fuel rest []) <= 3 * List.length rest)%nat.
Proof.
  induction fuel as [|fuel IH]; intro rest.
  - destruct rest; cbn; lia.
  - destruct rest as [|v tl]; [cbn; lia|].
    cbn [compress_loop]. cbv zeta. rewrite compress_loop_app, length_app.
    destruct (scan_run_head v tl) as (Hr & Hn & _). cbv zeta in Hn.
    specialize (IH (skipn (Z.to_nat (scan_run v tl 1)) (v :: tl))).
    rewrite length_skipn in IH.
    set (chunk := if 3 <=? scan_run v tl 1 then [] ++ [254; scan_run v tl 1; v]
                  else push_raw [] (firstn (Z.to_nat (scan_run v tl 1)) (v :: tl))).
    assert (Hchunk : (List.length chunk <= 3 * Z.to_nat (scan_run v tl 1))%nat).
    { subst chunk. destruct (3 <=? scan_run v tl 1).
      - cbn. lia.
      - etransitivity; [apply push_raw_length|]. rewrite length_firstn. lia. }
    lia.
Qed.

(** One turn of the outer loop: a measured run of three bytes or more
    becomes one token of three bytes, a shorter one is pushed byte by
    byte, and the loop goes on behind the run. *)
Lemma compress_loop_turn (fuel : nat) (v : Z) (tl : list Z) :
  let runLength := scan_run v tl 1 in
  compress_loop (S fuel) (v :: tl) [] =
  (if 3 <=? runLength then [254; runLength; v]
   else push_raw [] (firstn (Z.to_nat runLength) (v :: tl))) ++
  compress_loop fuel (skipn (Z.to_nat runLength) (v :: tl)) [].
Proof.
  cbv zeta. cbn [compress_loop]. cbv zeta. rewrite compress_loop_app.
  now destruct (3 <=? scan_run v tl 1).
Qed.

(** The length of the array is fuel enough: the loop has consumed the
    whole input when it stops, whatever larger bound it is given. *)
Lemma compress_loop_fuel (fuel : nat) :
  forall fuel' rest result,
    (List.length rest <= fuel)%nat -> (List.length rest <= fuel')%nat ->
    compress_loop fuel rest result = compress_loop fuel' rest result.
Proof.
  induction fuel as [|fuel IH]; intros fuel' rest result H1 H2.
  - destruct rest; [now destruct fuel' | cbn in H1; lia].
  - destruct rest as [|v tl]; [now destruct fuel'|].
    destruct fuel' as [|fuel']; [cbn in H2; lia|].
    cbn [compress_loop]. cbv zeta.
    destruct (scan_run_head v tl) as (_ & Hn & _). cbv zeta in Hn.
    apply IH; rewrite length_skipn; cbn [List.length] in *; lia.
Qed.

(** ** The output, run by run *)

Lemma push_raw_literals (bytes : list Z) :
  push_raw [] bytes = flat_map encode_literal bytes.
Proof.
  induction bytes as [|b bytes IH]; [reflexivity|].
  rewrite push_raw_cons, IH. reflexivity.
Qed.

(** The first run of [runs_from] is the one [scan_run] measures. *)
Lemma runs_from_scan (rest : list Z) :
  forall v L, 1 <= L <= 255 ->
    runs_from v L rest =
    (v, scan_run v rest L) :: runs (skipn (Z.to_nat (scan_run v rest L - L)) rest).
Proof.
  induction rest as [|b rest IH]; intros v L HL; cbn [runs_from scan_run].
  - rewrite Z.sub_diag. reflexivity.
  - rewrite (Z.eqb_sym b v).
    destruct ((v =? b) && (L <? 255)) eqn:Hc.
    + apply andb_true_iff in Hc. destruct Hc as [_ Hlt]. apply Z.ltb_lt in Hlt.
      rewrite IH by lia.
      destruct (scan_run_spec v rest (L + 1) ltac:(lia)) as (Hs & _). cbv zeta in Hs.
      replace (Z.to_nat (scan_run v rest (L + 1) - L))
        with (S (Z.to_nat (scan_run v rest (L + 1) - (L + 1)))) by lia.
      reflexivity.
    + rewrite Z.sub_diag. reflexivity.
Qed.

Lemma compress_loop_runs (fuel : nat) :
  forall rest,
    (List.length rest <= fuel)%nat ->
    compress_loop fuel rest [] = flat_map encode_run (runs rest).
Proof.
  induction fuel as [|fuel IH]; intros rest Hlen.
  - destruct rest; [reflexivity | cbn in Hlen; lia].
  - destruct rest as [|v tl]; [reflexivity|].
    rewrite compress_loop_turn. cbv zeta.
    destruct (scan_run_head v tl) as (Hr & Hn & Hrun). cbv zeta in Hn, Hrun.
    unfold runs at 1. rewrite runs_from_scan by lia.
    cbn [flat_map]. f_equal.
    + unfold encode_run, run_bytes. cbn [fst snd].
      destruct (3 <=? scan_run v tl 1); [reflexivity|].
      now rewrite Hrun, push_raw_literals.
    + replace (Z.to_nat (scan_run v tl 1)) with (S (Z.to_nat (scan_run v tl 1 - 1))) by lia.
      cbn [skipn]. apply IH. rewrite length_skipn. cbn [List.length] in Hlen. lia.
Qed.

(** The runs spell the array. *)
Lemma runs_from_bytes (rest : list Z) :
  forall v L, 0 <= L ->
    flat_map run_bytes (runs_from v L rest) = repeat v (Z.to_nat L) ++ rest.
Proof.
  induction rest as [|b rest IH]; intros v L HL; cbn [runs_from].
  - cbn [flat_map run_bytes fst snd]. reflexivity.
  - destruct (Z.eqb_spec b v) as [->|_]; cbn [andb].
    + destruct (Z.ltb_spec L 255) as [Hlt|Hge].
      * rewrite IH by lia.
        replace (Z.to_nat (L + 1)) with (S (Z.to_nat L)) by lia.
        cbn [repeat]. rewrite repeat_cons, <- app_assoc. reflexivity.
      * cbn [flat_map run_bytes fst snd]. rewrite (IH v 1) by lia. reflexivity.
    + cbn [flat_map run_bytes fst snd]. rewrite (IH b 1) by lia. reflexivity.
Qed.

(** No run is empty, and none is longer than 255 bytes. *)
Lemma runs_from_range (rest : list Z) :
  forall v L, 1 <= L <= 255 ->
    Forall (fun r => 1 <= snd r <= 255) (runs_from v L rest).
Proof.
  induction rest as [|b rest IH]; intros v L HL; cbn [runs_from].
  - now repeat constructor.
  - destruct ((b =? v) && (L <? 255)) eqn:Hc.
    + apply andb_true_iff in Hc. destruct Hc as [_ Hlt]. apply Z.ltb_lt in Hlt.
      apply IH. lia.
    + constructor; [exact HL | apply IH; lia].
Qed.

(** What a run contributes to the output. *)
Lemma encode_run_length (v L : Z) :
  0 <= L ->
  len (encode_run (v, L)) = if 3 <=? L then 3 else if v =? 254 then 3 * L else L.
Proof.
  intro HL. unfold encode_run, run_bytes. cbn [fst snd].
  destruct (3 <=? L); [reflexivity|].
  set (n := Z.to_nat L). assert (HLn : L = Z.of_nat n) by lia.
  clearbody n. subst L. clear HL. unfold len.
  induction n as [|n IH]; [now destruct (v =? 254)|].
  cbn [repeat flat_map]. rewrite length_app. unfold encode_literal at 1.
  destruct (v =? 254); cbn [List.length] in *; lia.
Qed.

End RunLength.

(** C2: decompressing a compressed byte array gives the array back,
    for every byte array: empty, with the marker byte 0xFE in it, with
    runs longer than 255. *)
Theorem quantumDecompress_quantumCompress (data : Uint8Array) :
  is_bytes data -> quantumDecompress (quantumCompress data) = data.
Proof.
  intro Hb. apply is_bytes_all_bytes in Hb.
  rewrite quantumCompress_loop by assumption.
  unfold quantumDecompress.
  rewrite <- (app_nil_r (compress_loop _ _ _)).
  rewrite decompress_compress_loop by lia.
  cbn [decompress_loop]. rewrite app_nil_r. now apply Uint8Array_from_bytes.
Qed.

(** The round trip at an array with a run of 300, the marker twice in
    a row, and a lone byte. *)
Lemma quantumDecompress_quantumCompress_witness :
  is_bytes (repeat 7 300 ++ [254; 254; 1]) /\
  quantumDecompress (quantumCompress (repeat 7 300 ++ [254; 254; 1])) =
  repeat 7 300 ++ [254; 254; 1].
Proof.
  split; [reflexivity | apply quantumDecompress_quantumCompress; reflexivity].
Defined.

(** C9, as the code has it: the compressed array is at most three
    times as long as the input.  The compressor cuts the input, left
    to right, into runs of identical bytes of at most 255 bytes each
    (a longer stretch of identical bytes is several runs); the output
    is, run after run, one token of exactly 3 bytes for a run of 3
    bytes or more, and for a shorter run its bytes one by one, 3
    bytes for a 0xFE and 1 byte for any other. *)
Theorem quantumCompress_length (data : Uint8Array) :
  is_bytes data ->
  len (quantumCompress data) <= 3 * len data /\
  data = flat_map run_bytes (runs data) /\
  quantumCompress data = flat_map encode_run (runs data) /\
  Forall (fun r =>
            1 <= snd r <= 255 /\
            encode_run r =
              (if 3 <=? snd r then [254; snd r; fst r]
               else flat_map encode_literal (run_bytes r)) /\
            len (encode_run r) =
              (if 3 <=? snd r then 3 else if fst r =? 254 then 3 * snd r else snd r))
         (runs data).
Proof.
  intro Hb. apply is_bytes_all_bytes in Hb.
  split; [|split; [|split]].
  - unfold quantumCompress, Uint8Array_from, len. rewrite length_map.
    pose proof (compress_loop_length (List.length data) data). lia.
  - destruct data as [|b rest]; [reflexivity|].
    unfold runs. now rewrite runs_from_bytes by lia.
  - rewrite quantumCompress_loop by assumption. now apply compress_loop_runs.
  - assert (Hr : Forall (fun r => 1 <= snd r <= 255) (runs data)).
    { destruct data as [|b rest]; [constructor|]. apply runs_from_range. lia. }
    apply Forall_impl with (2 := Hr). intros [v L] HL. cbn [fst snd] in *.
    split; [exact HL|]. split; [reflexivity|]. apply encode_run_length. lia.
Qed.

(** The accounting at an array with a stretch of 300 equal bytes (two
    runs, 255 and 45), the marker twice in a row, and a lone byte. *)
Lemma quantumCompress_length_witness :
  is_bytes (repeat 7 300 ++ [254; 254; 1]) /\
  runs (repeat 7 300 ++ [254; 254; 1]) = [(7, 255); (7, 45); (254, 2); (1, 1)] /\
  quantumCompress (repeat 7 300 ++ [254; 254; 1])
    = [254; 255; 7; 254; 45; 7; 254; 1; 254; 254; 1; 254; 1] /\
  len (quantumCompress (repeat 7 300 ++ [254; 254; 1]))
    <= 3 * len (repeat 7 300 ++ [254; 254; 1]) /\
  repeat 7 300 ++ [254; 254; 1]
    = flat_map run_bytes (runs (repeat 7 300 ++ [254; 254; 1])) /\
  quantumCompress (repeat 7 300 ++ [254; 254; 1])
    = flat_map encode_run (runs (repeat 7 300 ++ [254; 254; 1])) /\
  Forall (fun r =>
            1 <= snd r <= 255 /\
            encode_run r =
              (if 3 <=? snd r then [254; snd r; fst r]
               else flat_map encode_literal (run_bytes r)) /\
            len (encode_run r) =
              (if 3 <=? snd r then 3 else if fst r =? 254 then 3 * snd r else snd r))
         (runs (repeat 7 300 ++ [254; 254; 1])).
Proof.
  split; [reflexivity|]. split; [reflexivity|]. split; [reflexivity|].
  apply quantumCompress_length. reflexivity.
Defined.

(** C9 fails as it is worded: 300 identical bytes, a run of length
    [L = 300 >= 3], contribute 6 output bytes, not at most 3. *)
Lemma quantumCompress_300_identical :
  is_bytes (repeat 7 300) /\
  quantumCompress (repeat 7 300) = [254; 255; 7; 254; 45; 7] /\
  len (quantumCompress (repeat 7 300)) = 6 /\
  ~ len (quantumCompress (repeat 7 300)) <= 3.
Proof.
  split; [reflexivity|]. split; [reflexivity|]. split; [reflexivity|].
  vm_compute. intro H. apply H. reflexivity.
Qed.


(** ** The compressed size of a constant array *)

Lemma scan_run_repeat (v : Z) (m : nat) :
  forall r, 1 <= r <= 255 -> scan_run v (repeat v m) r = Z.min (r + Z.of_nat m) 255.
Proof.
  induction m as [|m IH]; intros r Hr; cbn [repeat scan_run].
  - lia.
  - rewrite Z.eqb_refl. cbn [andb]. destruct (Z.ltb_spec r 255).
    + rewrite IH by lia. lia.
    + lia.
Qed.

Lemma skipn_repeat_sub (v : Z) (k : nat) :
  forall n, skipn k (repeat v n) = repeat v (n - k).
Proof.
  induction k as [|k IH]; intro n; [now rewrite Nat.sub_0_r|].
  destruct n; [reflexivity|]. cbn [repeat skipn]. apply IH.
Qed.

(** A constant array of [n] bytes compresses to one token per 255
    bytes, and at most two escaped bytes at the end. *)
Lemma compress_loop_repeat (v : Z) (fuel : nat) :
  forall n : nat,
    Z.of_nat (List.length (compress_loop fuel (repeat v n) [])) <=
    3 * ((Z.of_nat n + 254) / 255) + 3.
Proof.
  induction fuel as [|fuel IH]; intro n.
  - assert (0 <= (Z.of_nat n + 254) / 255) by (apply Z.div_pos; lia).
    destruct n; cbn [compress_loop repeat List.length]; lia.
  - destruct n as [|n].
    + cbn. lia.
    + cbn [repeat compress_loop]. cbv zeta.
      rewrite scan_run_repeat by lia. rewrite compress_loop_app, length_app.
      set (r := Z.min (1 + Z.of_nat n) 255).
      change (v :: repeat v n) with (repeat v (S n)).
      rewrite skipn_repeat_sub.
      specialize (IH (S n - Z.to_nat r)%nat).
      set (chunk := if 3 <=? r then [] ++ [254; r; v]
                    else push_raw [] (firstn (Z.to_nat r) (repeat v (S n)))).
      assert (Hchunk : Z.of_nat (List.length chunk) <= (if 3 <=? r then 3 else 6)).
      { subst chunk. destruct (Z.leb_spec 3 r); [cbn; lia|].
        pose proof (push_raw_length (firstn (Z.to_nat r) (repeat v (S n)))) as Hp.
        rewrite length_firstn in Hp. lia. }
      destruct (Z.leb_spec 3 r) as [H3|H3].
      * destruct (Z.le_gt_cases (1 + Z.of_nat n) 255) as [Hs|Hl].
        -- replace (S n - Z.to_nat r)%nat with O in * by lia.
           assert (1 <= (Z.of_nat (S n) + 254) / 255)
             by (apply Z.div_le_lower_bound; lia).
           assert (Z.of_nat (List.length (compress_loop fuel (repeat v 0) [])) <= 3).
           { etransitivity; [apply IH|]. cbn. lia. }
           lia.
        -- replace (Z.of_nat (S n - Z.to_nat r)) with (Z.of_nat (S n) - 255) in IH by lia.
           replace (Z.of_nat (S n) - 255 + 254) with (Z.of_nat (S n) + 254 + (-1) * 255) in IH by lia.
           rewrite Z.div_add in IH by lia. lia.
      * replace (S n - Z.to_nat r)%nat with O in * by lia.
        assert (1 <= (Z.of_nat (S n) + 254) / 255)
          by (apply Z.div_le_lower_bound; lia).
        destruct fuel; cbn [compress_loop repeat List.length] in *; lia.
Qed.


(** ** The scenarios of the design document *)

(** Four equal bytes become one token, and come back. *)
Example quantumCompress_AAAA :
  quantumCompress [65; 65; 65; 65] = [254; 4; 65] /\
  quantumDecompress [254; 4; 65] = [65; 65; 65; 65].
Proof. split; reflexivity. Qed.

(** A lone marker byte is escaped as a run of one, and comes back. *)
Example quantumCompress_marker :
  quantumCompress [254] = [254; 1; 254] /\
  quantumDecompress [254; 1; 254] = [254].
Proof. split; reflexivity. Qed.

(** A run of 300 is split into a token of 255 and a token of 45. *)
Example quantumCompress_run_300 :
  quantumCompress (repeat 7 300) = [254; 255; 7; 254; 45; 7].
Proof. reflexivity. Qed.

(** * Properties of the 32-bit operators *)

Module JSFacts.
Import JS.

Lemma ToInt32_range (z : Z) : -2147483648 <= ToInt32 z < 2147483648.
Proof. unfold ToInt32. pose proof (Z.mod_pos_bound (z + 2147483648) 4294967296). lia. Qed.

Lemma ToInt32_small (z : Z) : -2147483648 <= z < 2147483648 -> ToInt32 z = z.
Proof. intro H. unfold ToInt32. rewrite Z.mod_small; lia. Qed.

Lemma ToInt32_mod (z : Z) : ToInt32 z mod 4294967296 = z mod 4294967296.
Proof.
  unfold ToInt32.
  pose proof (Z.div_mod (z + 2147483648) 4294967296 ltac:(lia)) as H.
  replace ((z + 2147483648) mod 4294967296 - 2147483648)
    with (z + (- ((z + 2147483648) / 4294967296)) * 4294967296) by lia.
  apply Z_mod_plus_full.
Qed.

(** [ToInt32] depends on the low 32 bits only. *)
Lemma ToInt32_congr (a b : Z) :
  a mod 4294967296 = b mod 4294967296 -> ToInt32 a = ToInt32 b.
Proof.
  intro H. unfold ToInt32.
  rewrite <- (Zplus_mod_idemp_l a), <- (Zplus_mod_idemp_l b), H. reflexivity.
Qed.

Lemma ToInt32_idem (z : Z) : ToInt32 (ToInt32 z) = ToInt32 z.
Proof. apply ToInt32_small, ToInt32_range. Qed.

Lemma ToInt32_mod256 (z : Z) : ToInt32 z mod 256 = z mod 256.
Proof.
  pose proof (ToInt32_mod z) as H.
  assert (Hd : forall x, x mod 256 = (x mod 4294967296) mod 256).
  { intro x. symmetry. apply Z.mod_mod_divide. now exists 16777216. }
  rewrite (Hd (ToInt32 z)), (Hd z). now rewrite H.
Qed.

(** Reduction modulo a power of two commutes with the bitwise operators. *)
Lemma lxor_mod_pow2 (a b n : Z) :
  0 <= n -> Z.lxor a b mod 2 ^ n = Z.lxor (a mod 2 ^ n) (b mod 2 ^ n).
Proof.
  intro Hn. apply Z.bits_inj'. intros i Hi.
  rewrite Z.lxor_spec, !Z.testbit_mod_pow2, Z.lxor_spec by lia.
  destruct (i <? n); cbn; [reflexivity | now rewrite ?andb_false_r].
Qed.

Lemma lor_mod_pow2 (a b n : Z) :
  0 <= n -> Z.lor a b mod 2 ^ n = Z.lor (a mod 2 ^ n) (b mod 2 ^ n).
Proof.
  intro Hn. apply Z.bits_inj'. intros i Hi.
  rewrite Z.lor_spec, !Z.testbit_mod_pow2, Z.lor_spec by lia.
  destruct (i <? n); cbn; [reflexivity | now rewrite ?andb_false_r].
Qed.

Lemma shiftl_mod_pow2 (a k n : Z) :
  0 <= k -> 0 <= n ->
  Z.shiftl a k mod 2 ^ n = Z.shiftl (a mod 2 ^ n) k mod 2 ^ n.
Proof.
  intros Hk Hn. apply Z.bits_inj'. intros i Hi.
  rewrite !Z.testbit_mod_pow2 by lia.
  destruct (i <? n) eqn:Hin; [|reflexivity]. cbn [andb].
  destruct (Z.ltb_spec i k).
  - now rewrite !Z.shiftl_spec_low.
  - rewrite !Z.shiftl_spec, Z.testbit_mod_pow2 by lia.
    apply Z.ltb_lt in Hin. destruct (Z.ltb_spec (i - k) n); [reflexivity | lia].
Qed.

Lemma xor_pure (a b : Z) : xor a b = ToInt32 (Z.lxor a b).
Proof.
  unfold xor. apply ToInt32_congr. change 4294967296 with (2 ^ 32).
  rewrite (lxor_mod_pow2 (ToInt32 a)), (lxor_mod_pow2 a) by lia.
  change (2 ^ 32) with 4294967296. now rewrite !ToInt32_mod.
Qed.

Lemma or_pure (a b : Z) : or a b = ToInt32 (Z.lor a b).
Proof.
  unfold or. apply ToInt32_congr. change 4294967296 with (2 ^ 32).
  rewrite (lor_mod_pow2 (ToInt32 a)), (lor_mod_pow2 a) by lia.
  change (2 ^ 32) with 4294967296. now rewrite !ToInt32_mod.
Qed.

Lemma shl_pure (a k : Z) : 0 <= k -> shl a k = ToInt32 (Z.shiftl a k).
Proof.
  intro Hk. unfold shl. apply ToInt32_congr. change 4294967296 with (2 ^ 32).
  rewrite (shiftl_mod_pow2 (ToInt32 a)), (shiftl_mod_pow2 a) by lia.
  change (2 ^ 32) with 4294967296. now rewrite !ToInt32_mod.
Qed.

(** The low byte of [a ^ b]. *)
Lemma u8_xor (a b : Z) : u8 (xor a b) = Z.lxor (a mod 256) (b mod 256).
Proof.
  unfold u8. rewrite xor_pure, ToInt32_mod256.
  change 256 with (2 ^ 8). now apply lxor_mod_pow2.
Qed.

(** Storing [c ^ k] and xoring the stored byte with [k] again gives
    the byte [c] back, whatever number [k] is. *)
Lemma u8_xor_xor (c k : Z) : 0 <= c < 256 -> u8 (xor (u8 (xor c k)) k) = c.
Proof.
  intro Hc. rewrite u8_xor.
  replace (u8 (xor c k) mod 256) with (u8 (xor c k)) by (unfold u8; now rewrite Z.mod_mod).
  rewrite u8_xor. rewrite Z.lxor_assoc, Z.lxor_nilpotent, Z.lxor_0_r.
  apply Z.mod_small. lia.
Qed.

(** [(n >>> k) & 0xFF] is the byte of [n] at bit [k]. *)
Lemma and_ushr_255 (n k : Z) :
  0 <= k -> and (ushr n k) 255 = (ToUint32 n / 2 ^ k) mod 256.
Proof.
  intro Hk. unfold and, ushr. rewrite Z.shiftr_div_pow2 by lia.
  assert (Hq : 0 <= ToUint32 n / 2 ^ k < 4294967296).
  { unfold ToUint32. pose proof (Z.mod_pos_bound n 4294967296).
    split; [apply Z.div_pos; lia|].
    apply Z.le_lt_trans with (n mod 4294967296); [|lia].
    apply Z.div_le_upper_bound; [lia|].
    assert (1 <= 2 ^ k) by (apply (Z.pow_le_mono_r 2 0 k); lia). nia. }
  change (ToInt32 255) with (Z.ones 8). rewrite Z.land_ones by lia.
  change (2 ^ 8) with 256. rewrite ToInt32_mod256.
  apply ToInt32_small. pose proof (Z.mod_pos_bound (ToUint32 n / 2 ^ k) 256). lia.
Qed.

Lemma and_255 (n : Z) : and n 255 = n mod 256.
Proof.
  unfold and. change (ToInt32 255) with (Z.ones 8). rewrite Z.land_ones by lia.
  change (2 ^ 8) with 256. rewrite ToInt32_mod256.
  apply ToInt32_small. pose proof (Z.mod_pos_bound n 256). lia.
Qed.

(** Or-ing a field below bit [k] into a multiple of [2^k] adds it. *)
Lemma lor_low (a b k : Z) :
  0 <= k -> 0 <= b < 2 ^ k -> Z.lor (a * 2 ^ k) b = a * 2 ^ k + b.
Proof.
  intros Hk Hb. rewrite <- Z.add_lor_land.
  assert (H0 : Z.land (a * 2 ^ k) b = 0).
  { apply Z.bits_inj'. intros i Hi. rewrite Z.land_spec, Z.bits_0.
    destruct (Z.ltb_spec i k).
    - rewrite Z.mul_pow2_bits_low by lia. reflexivity.
    - destruct (Z.eq_dec b 0) as [->|Hnz]; [now rewrite Z.bits_0, andb_false_r|].
      rewrite (Z.bits_above_log2 b i), andb_false_r; [reflexivity|lia|].
      apply Z.lt_le_trans with k; [|lia]. apply Z.log2_lt_pow2; lia. }
  lia.
Qed.

End JSFacts.

Import JSFacts.

(** * Properties of the container *)

(** ** The header *)

Lemma be32_bytes (n : Z) : all_bytes (be32 n).
Proof.
  unfold be32. repeat constructor; apply Z.mod_pos_bound; lia.
Qed.

(** The four bytes are the base-256 digits of [n] modulo 2^32. *)
Lemma be32_value (n : Z) :
  (JS.ToUint32 n / 16777216) mod 256 * 16777216 +
  (JS.ToUint32 n / 65536) mod 256 * 65536 +
  (JS.ToUint32 n / 256) mod 256 * 256 + n mod 256 = JS.ToUint32 n.
Proof.
  unfold JS.ToUint32.
  replace (n mod 256) with ((n mod 4294967296) mod 256)
    by (apply Z.mod_mod_divide; now exists 16777216).
  pose proof (Z.mod_pos_bound n 4294967296 ltac:(lia)).
  generalize dependent (n mod 4294967296). intros u Hu.
  Z.div_mod_to_equations. lia.
Qed.

Lemma or_ToInt32_l (a b : Z) : JS.or (JS.ToInt32 a) b = JS.or a b.
Proof. unfold JS.or. now rewrite ToInt32_idem. Qed.

Lemma or_ToInt32_r (a b : Z) : JS.or a (JS.ToInt32 b) = JS.or a b.
Proof. unfold JS.or. now rewrite ToInt32_idem. Qed.

Lemma lor_field (a b p k : Z) :
  p = 2 ^ k -> 0 <= k -> 0 <= b < p -> Z.lor (a * p) b = a * p + b.
Proof. intros -> Hk Hb. now apply lor_low. Qed.

(** Reading four bytes as a length: the big-endian sum, as an int32. *)
Lemma read_length_sum (a : Uint8Array) (i : Z) :
  let b k := int_of (aget a (i + k)) in
  0 <= b 1 < 256 -> 0 <= b 2 < 256 -> 0 <= b 3 < 256 ->
  read_length a i =
  JS.ToInt32 (b 0 * 16777216 + b 1 * 65536 + b 2 * 256 + b 3).
Proof.
  intros b H1 H2 H3. unfold read_length. rewrite <- (Z.add_0_r i) at 1.
  fold (b 0) (b 1) (b 2) (b 3).
  rewrite !shl_pure by lia. rewrite !or_ToInt32_l, !or_ToInt32_r.
  rewrite (or_pure (Z.shiftl (b 0) 24)), or_ToInt32_l.
  rewrite (or_pure (Z.lor _ _) (Z.shiftl (b 2) 8)), or_ToInt32_l.
  rewrite or_pure. f_equal.
  rewrite !Z.shiftl_mul_pow2 by lia.
  change (2 ^ 24) with 16777216. change (2 ^ 16) with 65536. change (2 ^ 8) with 256.
  rewrite (lor_field (b 0) (b 1 * 65536) 16777216 24) by (try reflexivity; lia).
  replace (b 0 * 16777216 + b 1 * 65536) with ((b 0 * 256 + b 1) * 65536) by lia.
  rewrite (lor_field _ (b 2 * 256) 65536 16) by (try reflexivity; lia).
  replace ((b 0 * 256 + b 1) * 65536 + b 2 * 256)
    with (((b 0 * 256 + b 1) * 256 + b 2) * 256) by lia.
  rewrite (lor_field _ (b 3) 256 8) by (try reflexivity; lia).
  lia.
Qed.

Lemma u8_and_ushr (n k : Z) :
  0 <= k -> u8 (JS.and (JS.ushr n k) 255) = (JS.ToUint32 n / 2 ^ k) mod 256.
Proof. intro Hk. rewrite and_ushr_255 by assumption. unfold u8. now rewrite Z.mod_mod. Qed.

Lemma u8_and_255 (n : Z) : u8 (JS.and n 255) = n mod 256.
Proof. rewrite and_255. unfold u8. now rewrite Z.mod_mod. Qed.

(** The array [quantumEncrypt] holds when it enters its loop. *)
Lemma header_layout (n m : Z) (c : list Z) :
  let encrypted := repeat 0 (Z.to_nat (len c + 8)) in
  let encrypted := aset encrypted 0 (JS.and (JS.ushr n 24) 255) in
  let encrypted := aset encrypted 1 (JS.and (JS.ushr n 16) 255) in
  let encrypted := aset encrypted 2 (JS.and (JS.ushr n 8) 255) in
  let encrypted := aset encrypted 3 (JS.and n 255) in
  let encrypted := aset encrypted 4 (JS.and (JS.ushr m 24) 255) in
  let encrypted := aset encrypted 5 (JS.and (JS.ushr m 16) 255) in
  let encrypted := aset encrypted 6 (JS.and (JS.ushr m 8) 255) in
  let encrypted := aset encrypted 7 (JS.and m 255) in
  encrypted = (be32 n ++ be32 m) ++ repeat 0 (List.length c).
Proof.
  replace (Z.to_nat (len c + 8)) with (8 + List.length c)%nat by (unfold len; lia).
  cbv zeta. cbn [repeat Nat.add]. unfold aset.
  cbn [Z.ltb Z.compare Z.to_nat Pos.to_nat Pos.iter_op Nat.add set_nth].
  rewrite !u8_and_ushr, !u8_and_255 by lia. reflexivity.
Qed.

(** ** The keystream loops *)

Lemma aget_app_middle (pre : list Z) (c : Z) (post : list Z) (i : Z) :
  i = len pre -> aget (pre ++ c :: post) i = Some c.
Proof.
  intros ->. unfold aget, len.
  destruct (Z.ltb_spec (Z.of_nat (List.length pre)) 0); [lia|].
  rewrite Nat2Z.id, nth_error_app2 by lia. now rewrite Nat.sub_diag.
Qed.

Lemma set_nth_app_middle (pre : list Z) (z v : Z) (post : list Z) :
  set_nth (pre ++ z :: post) (List.length pre) v = pre ++ v :: post.
Proof. induction pre as [|x pre IH]; cbn; [reflexivity | now rewrite IH]. Qed.

Lemma aset_app_middle (pre : list Z) (z v : Z) (post : list Z) (i : Z) :
  i = len pre -> aset (pre ++ z :: post) i v = pre ++ u8 v :: post.
Proof.
  intros ->. unfold aset, len.
  destruct (Z.ltb_spec (Z.of_nat (List.length pre)) 0); [lia|].
  rewrite Nat2Z.id. apply set_nth_app_middle.
Qed.

Lemma len_app (a b : list Z) : len (a ++ b) = len a + len b.
Proof. unfold len. rewrite length_app. lia. Qed.

Lemma len_nonneg (a : list Z) : 0 <= len a.
Proof. unfold len. lia. Qed.

Section Loops.
Context {W : Type}.
Variable onProgress : option (callback W).

(** The loop of [quantumEncrypt], entered with [cdone] already
    encrypted into [pre]: it fills the rest of the array with the xor
    of [ctodo] and the keystream, unless the callback throws. *)
Lemma encrypt_loop_spec (stream : list Z) :
  forall (ctodo cdone pre zeros : list Z) (idx processedBytes : Z) (w : W),
    List.length stream = List.length ctodo ->
    List.length zeros = List.length ctodo ->
    idx = len pre -> len pre = 8 + len cdone ->
    match encrypt_loop stream (cdone ++ ctodo) onProgress idx processedBytes (pre ++ zeros) w with
    | Returns (e, _) => e = pre ++ xor_bytes ctodo stream
    | Throws e => callback_threw onProgress e
    end.
Proof.
  induction stream as [|keyByte stream IH];
    intros ctodo cdone pre zeros idx processedBytes w Hs Hz Hidx Hpre.
  - destruct ctodo; [|discriminate]. destruct zeros; [|discriminate]. reflexivity.
  - destruct ctodo as [|c ctodo]; [discriminate|].
    destruct zeros as [|z zeros]; [discriminate|].
    cbn [encrypt_loop].
    destruct (Z.leb_spec (len (cdone ++ c :: ctodo)) (idx - 8)) as [Hle|_].
    { rewrite len_app in Hle. unfold len in Hle, Hpre, Hidx. cbn [List.length] in Hle. lia. }
    rewrite (aget_app_middle cdone c ctodo) by lia. cbn [int_of].
    rewrite (aset_app_middle pre z) by assumption.
    destruct (report onProgress _ _ w) as [w'|e] eqn:Hrep.
    + replace (cdone ++ c :: ctodo) with ((cdone ++ [c]) ++ ctodo) by now rewrite <- app_assoc.
      replace (pre ++ u8 (JS.xor c keyByte) :: zeros)
        with ((pre ++ [u8 (JS.xor c keyByte)]) ++ zeros) by now rewrite <- app_assoc.
      assert (Hlen1 : forall a x, len (a ++ [x]) = len a + 1)
        by (intros; rewrite len_app; reflexivity).
      assert (IH' := IH ctodo (cdone ++ [c]) (pre ++ [u8 (JS.xor c keyByte)]) zeros
                    (idx + 1) (processedBytes + 1) w'
                    ltac:(cbn in Hs; lia) ltac:(cbn in Hz; lia)
                    ltac:(rewrite Hlen1; lia) ltac:(rewrite !Hlen1; lia)).
      destruct (encrypt_loop stream _ _ _ _ _ w') as [[e w'']|e].
      * rewrite IH'. cbn [xor_bytes combine map]. now rewrite <- app_assoc.
      * exact IH'.
    + unfold report in Hrep. destruct onProgress as [f|]; [|discriminate].
      destruct (_ =? 0); [|discriminate]. eexists f, _, w. split; [reflexivity | exact Hrep].
Qed.

(** The loop of [quantumDecrypt] on a container that holds as many
    cipher bytes as its header says. *)
Lemma decrypt_loop_spec (stream : list Z) :
  forall (ctodo cdone hdr rdone zeros : list Z) (idx compressedLength : Z) (w : W),
    List.length hdr = 8%nat ->
    List.length stream = List.length ctodo ->
    List.length zeros = List.length ctodo ->
    idx = len rdone -> len rdone = len cdone ->
    compressedLength = len cdone + len ctodo ->
    match decrypt_loop stream (hdr ++ cdone ++ ctodo) compressedLength onProgress idx
            (rdone ++ zeros) w with
    | Returns (c, _) => c = rdone ++ xor_bytes ctodo stream
    | Throws e => callback_threw onProgress e
    end.
Proof.
  induction stream as [|keyByte stream IH];
    intros ctodo cdone hdr rdone zeros idx compressedLength w Hh Hs Hz Hidx Hr Hc.
  - destruct ctodo; [|discriminate]. destruct zeros; [|discriminate]. reflexivity.
  - destruct ctodo as [|c ctodo]; [discriminate|].
    destruct zeros as [|z zeros]; [discriminate|].
    cbn [decrypt_loop].
    destruct (Z.leb_spec compressedLength idx) as [Hle|_].
    { unfold len in *. cbn [List.length] in *. lia. }
    rewrite app_assoc, (aget_app_middle (hdr ++ cdone) c ctodo), <- app_assoc
      by (rewrite len_app; unfold len in *; lia).
    cbn [int_of]. rewrite (aset_app_middle rdone z) by assumption.
    destruct (report onProgress _ _ w) as [w'|e] eqn:Hrep.
    + replace (cdone ++ c :: ctodo) with ((cdone ++ [c]) ++ ctodo) by now rewrite <- app_assoc.
      replace (rdone ++ u8 (JS.xor c keyByte) :: zeros)
        with ((rdone ++ [u8 (JS.xor c keyByte)]) ++ zeros) by now rewrite <- app_assoc.
      assert (Hlen1 : forall a x, len (a ++ [x]) = len a + 1)
        by (intros; rewrite len_app; reflexivity).
      assert (Hc' : compressedLength = len (cdone ++ [c]) + len ctodo).
      { rewrite Hlen1. unfold len in *. cbn [List.length] in Hc. lia. }
      assert (IH' := IH ctodo (cdone ++ [c]) hdr (rdone ++ [u8 (JS.xor c keyByte)]) zeros
                    (idx + 1) compressedLength w' Hh
                    ltac:(cbn in Hs; lia) ltac:(cbn in Hz; lia)
                    ltac:(rewrite Hlen1; lia) ltac:(rewrite !Hlen1; lia) Hc').
      destruct (decrypt_loop stream _ _ _ _ _ w') as [[r w'']|e].
      * rewrite IH'. cbn [xor_bytes combine map]. now rewrite <- app_assoc.
      * exact IH'.
    + unfold report in Hrep. destruct onProgress as [f|]; [|discriminate].
      destruct (_ =? 0); [|discriminate]. eexists f, _, w. split; [reflexivity | exact Hrep].
Qed.

End Loops.

(** ** The keystream *)

Lemma yield_loop_length (n : nat) : forall x y, List.length (yield_loop n x y) = n.
Proof. induction n as [|n IH]; intros x y; cbn; [reflexivity | now rewrite IH]. Qed.

Lemma entropyStream_length (seed : float) (iterations : Z) :
  List.length (entropyStream seed iterations) = Z.to_nat iterations.
Proof.
  unfold entropyStream. destruct (burn_in 100 seed (tentMap seed)) as [x y].
  apply yield_loop_length.
Qed.

Lemma entropyStream_0 (seed : float) : entropyStream seed 0 = [].
Proof.
  unfold entropyStream. now destruct (burn_in 100 seed (tentMap seed)).
Qed.

(** ** [quantumEncrypt] *)

(** A call of [quantumEncrypt] returns [encrypt_value], a function of
    the data and the password alone, unless the callback throws. *)
Lemma quantumEncrypt_spec {W : Type} (data : Uint8Array) (password : list Z)
    (onProgress : option (callback W)) (w : W) :
  match quantumEncrypt data password onProgress w with
  | Returns (r, _) => r = encrypt_value data password
  | Throws e => callback_threw onProgress e
  end.
Proof.
  unfold quantumEncrypt. cbv zeta.
  rewrite header_layout.
  pose proof (encrypt_loop_spec onProgress
    (entropyStream (generateEntropySeed password) (len (quantumCompress data)))
    (quantumCompress data) [] (be32 (len data) ++ be32 (len (quantumCompress data)))
    (repeat 0 (List.length (quantumCompress data))) 8 0 w) as H.
  cbn [app] in H.
  destruct (encrypt_loop _ _ _ _ _ _ w) as [[e w']|e].
  - rewrite H; [reflexivity | | | | ].
    + rewrite entropyStream_length. unfold len. lia.
    + apply repeat_length.
    + reflexivity.
    + reflexivity.
  - apply H.
    + rewrite entropyStream_length. unfold len. lia.
    + apply repeat_length.
    + reflexivity.
    + reflexivity.
Qed.

Lemma callback_threw_None {W : Type} (e : exn) : ~ callback_threw (W := W) None e.
Proof. intros (f & v & w & H & _). discriminate. Qed.

Lemma encrypt_returns (data : Uint8Array) (password : list Z) :
  encrypt data password = Returns (encrypt_value data password, tt).
Proof.
  unfold encrypt. pose proof (quantumEncrypt_spec data password None tt) as H.
  destruct (quantumEncrypt data password None tt) as [[r []]|e].
  - now subst r.
  - now apply callback_threw_None in H.
Qed.

(** C10: a call of [quantumEncrypt] that returns, returns the
    container, fingerprint and digest that the call without a callback
    returns, whichever callback is passed and whatever the callback
    does; a call throws only when its callback throws. *)
Theorem quantumEncrypt_deterministic (data : Uint8Array) (password : list Z) :
  exists r : EncryptResult,
    encrypt data password = Returns (r, tt) /\
    forall (W : Type) (onProgress : option (callback W)) (w : W),
      match quantumEncrypt data password onProgress w with
      | Returns (r', _) => r' = r
      | Throws e => callback_threw onProgress e
      end.
Proof.
  exists (encrypt_value data password). split.
  - apply encrypt_returns.
  - intros W onProgress w. apply quantumEncrypt_spec.
Qed.

(** ** [quantumDecrypt] *)

#[local] Opaque entropyStream generateEntropySeed quantumHash generateEntropyFingerprint.

Lemma read_length_header (b0 b1 b2 b3 b4 b5 b6 b7 : Z) (rest : list Z) :
  let a := b0 :: b1 :: b2 :: b3 :: b4 :: b5 :: b6 :: b7 :: rest in
  all_bytes [b0; b1; b2; b3; b4; b5; b6; b7] ->
  read_length a 0 = JS.ToInt32 (b0 * 16777216 + b1 * 65536 + b2 * 256 + b3) /\
  read_length a 4 = JS.ToInt32 (b4 * 16777216 + b5 * 65536 + b6 * 256 + b7).
Proof.
  intros a Hb.
  assert (H0 : 0 <= b0 < 256 /\ 0 <= b1 < 256 /\ 0 <= b2 < 256 /\ 0 <= b3 < 256 /\
               0 <= b4 < 256 /\ 0 <= b5 < 256 /\ 0 <= b6 < 256 /\ 0 <= b7 < 256).
  { repeat match goal with H : all_bytes (_ :: _) |- _ => inversion H; clear H; subst
           | H : Forall _ (_ :: _) |- _ => inversion H; clear H; subst end.
    repeat split; lia. }
  split.
  - rewrite read_length_sum; [reflexivity | | | ]; cbn [int_of]; subst a.
    + change (aget _ (0 + 1)) with (Some b1). cbn [int_of]. lia.
    + change (aget _ (0 + 2)) with (Some b2). cbn [int_of]. lia.
    + change (aget _ (0 + 3)) with (Some b3). cbn [int_of]. lia.
  - rewrite read_length_sum; [reflexivity | | | ]; cbn [int_of]; subst a.
    + change (aget _ (4 + 1)) with (Some b5). cbn [int_of]. lia.
    + change (aget _ (4 + 2)) with (Some b6). cbn [int_of]. lia.
    + change (aget _ (4 + 3)) with (Some b7). cbn [int_of]. lia.
Qed.

(** The two lengths [quantumDecrypt] reads from a container that
    [quantumEncrypt] built: the stored 32 bits, read as signed. *)
Lemma read_length_container (data : Uint8Array) (password : list Z) :
  read_length (container_of data password) 0 = JS.ToInt32 (len data) /\
  read_length (container_of data password) 4 = JS.ToInt32 (len (quantumCompress data)).
Proof.
  unfold container_of. cbv zeta.
  set (rest := xor_bytes _ _). unfold be32. cbn [app].
  pose proof (be32_bytes (len data)) as Hn.
  pose proof (be32_bytes (len (quantumCompress data))) as Hm.
  unfold be32 in Hn, Hm.
  assert (Hnm := proj2 (Forall_app _ _ _) (conj Hn Hm)). cbn [app] in Hnm.
  destruct (read_length_header _ _ _ _ _ _ _ _ rest Hnm) as [H0 H4].
  rewrite H0, H4.
  rewrite !be32_value. split; apply ToInt32_congr; unfold JS.ToUint32; apply Z.mod_mod; lia.
Qed.

Lemma xor_bytes_xor_bytes (c : list Z) :
  forall stream, all_bytes c -> List.length stream = List.length c ->
    xor_bytes (xor_bytes c stream) stream = c.
Proof.
  induction c as [|b c IH]; intros stream Hb Hlen.
  - reflexivity.
  - destruct stream as [|k stream]; [discriminate|].
    inversion Hb; subst. cbn [xor_bytes combine map].
    fold (xor_bytes c stream). fold (xor_bytes (xor_bytes c stream) stream).
    rewrite u8_xor_xor by assumption. rewrite IH; [reflexivity | assumption | cbn in Hlen; lia].
Qed.

Lemma xor_bytes_length (c stream : list Z) :
  List.length stream = List.length c -> List.length (xor_bytes c stream) = List.length c.
Proof.
  intro H. unfold xor_bytes. rewrite length_map, length_combine. lia.
Qed.

(** A container whose first four bytes read as a negative length is
    never decrypted to a plaintext. *)
Lemma quantumDecrypt_negative_length {W : Type} (container : Uint8Array)
    (password : list Z) (fp digest : string) (onProgress : option (callback W)) (w : W) :
  read_length container 0 < 0 ->
  forall plain w',
    quantumDecrypt container password fp digest onProgress w <> Returns (Some plain, w').
Proof.
  intros Hneg plain w'. unfold quantumDecrypt. cbv zeta.
  destruct (negb (_ =? fp)%string); [discriminate|].
  destruct (negb (_ =? digest)%string); [discriminate|].
  destruct (read_length container 4 <? 0); [discriminate|].
  destruct (decrypt_loop _ _ _ _ _ _ w) as [[c w'']|e]; [|discriminate].
  destruct (Z.eqb_spec (len (quantumDecompress c)) (read_length container 0)) as [Heq|Hne].
  - pose proof (len_nonneg (quantumDecompress c)). lia.
  - discriminate.
Qed.

(** What [decrypt] returns on a container [quantumEncrypt] built, with
    the fingerprint and digest that came with it, when the compressed
    length is below 2^31. *)
Lemma decrypt_container (data : Uint8Array) (password : list Z) :
  is_bytes data ->
  len (quantumCompress data) < 2147483648 ->
  decrypt (container_of data password) password
    (generateEntropyFingerprint password)
    (quantumHash (container_of data password) password) =
  Returns (if len data =? JS.ToInt32 (len data) then Some data else None, tt).
Proof.
  intros Hb Hc. unfold decrypt, quantumDecrypt. cbv zeta.
  rewrite !String.eqb_refl. cbn [negb].
  destruct (read_length_container data password) as [H0 H4]. rewrite H0, H4.
  pose proof (len_nonneg (quantumCompress data)) as Hc0.
  rewrite (ToInt32_small (len (quantumCompress data))) by lia.
  destruct (Z.ltb_spec (len (quantumCompress data)) 0) as [|_]; [lia|].
  apply is_bytes_all_bytes in Hb.
  set (stream := entropyStream (generateEntropySeed password) (len (quantumCompress data))).
  assert (Hs : List.length stream = List.length (quantumCompress data)).
  { subst stream. rewrite entropyStream_length. unfold len. lia. }
  unfold container_of. cbv zeta. fold stream.
  set (cipher := xor_bytes (quantumCompress data) stream).
  set (hdr := be32 (len data) ++ be32 (len (quantumCompress data))).
  set (zeros := repeat 0 (Z.to_nat (len (quantumCompress data)))).
  change (hdr ++ cipher) with (hdr ++ [] ++ cipher).
  change zeros with ([] ++ zeros).
  assert (Hcl : List.length cipher = List.length (quantumCompress data))
    by (subst cipher; now rewrite xor_bytes_length).
  assert (H := decrypt_loop_spec (W := unit) None stream cipher [] hdr [] zeros 0
                 (len (quantumCompress data)) tt eq_refl
                 ltac:(lia)
                 ltac:(subst zeros; rewrite repeat_length; unfold len; lia)
                 eq_refl eq_refl
                 ltac:(unfold len; cbn [List.length]; lia)).
  destruct (decrypt_loop stream (hdr ++ [] ++ cipher) (len (quantumCompress data)) None 0
              ([] ++ zeros) tt) as [[c []]|e].
  - rewrite H. cbn [app]. subst cipher.
    rewrite xor_bytes_xor_bytes by (try apply quantumCompress_bytes; assumption).
    rewrite quantumDecompress_inverse by assumption.
    now destruct (len data =? JS.ToInt32 (len data)).
  - now apply callback_threw_None in H.
Qed.

(** ** The round trip through [encrypt] and [decrypt] *)

(** X22: the round trip succeeds when the two lengths of the header
    are below 2^31, where reading them as signed changes nothing:
    [decrypt] returns the data that [encrypt] was given. *)
Theorem decrypt_encrypt_below_2G (data : Uint8Array) (password : list Z) :
  is_bytes data ->
  len data < 2147483648 ->
  len (quantumCompress data) < 2147483648 ->
  exists r : EncryptResult,
    encrypt data password = Returns (r, tt) /\
    decrypt (encrypted r) password (fingerprint r) (hash r) = Returns (Some data, tt).
Proof.
  intros Hb Hn Hc. exists (encrypt_value data password). split.
  - apply encrypt_returns.
  - cbn [encrypt_value encrypted fingerprint hash].
    rewrite decrypt_container by assumption.
    pose proof (len_nonneg data).
    rewrite ToInt32_small by lia. now rewrite Z.eqb_refl.
Qed.

(** With 2^31 bytes or more (and fewer than 2^32), the stored length
    reads back negative and [decrypt] never returns the data. *)
Lemma decrypt_encrypt_from_2G (data : Uint8Array) (password : list Z) :
  2147483648 <= len data < 4294967296 ->
  forall plain w,
    decrypt (container_of data password) password
      (generateEntropyFingerprint password)
      (quantumHash (container_of data password) password) <> Returns (Some plain, w).
Proof.
  intros Hn plain w. apply quantumDecrypt_negative_length.
  destruct (read_length_container data password) as [H0 _]. rewrite H0.
  unfold JS.ToInt32.
  replace (len data + 2147483648) with (len data - 2147483648 + 1 * 4294967296) by lia.
  rewrite Z_mod_plus_full, Z.mod_small; lia.
Qed.

Lemma is_bytes_repeat (b : Z) (n : nat) : is_byte b = true -> is_bytes (repeat b n).
Proof.
  intro Hb. unfold is_bytes. induction n as [|n IH]; [reflexivity|].
  cbn [repeat forallb]. now rewrite Hb, IH.
Qed.

(** C1, at 2^31 zero bytes: [encrypt] returns a container, and
    [decrypt] of that container with the same password, fingerprint
    and digest returns [null], not the data: the stored length
    0x80000000 reads back as -2^31. *)
Theorem decrypt_encrypt_2G_zero_bytes (password : list Z) :
  let data := repeat 0 (Z.to_nat 2147483648) in
  is_bytes data /\ len data = 2147483648 /\
  exists r : EncryptResult,
    encrypt data password = Returns (r, tt) /\
    decrypt (encrypted r) password (fingerprint r) (hash r) = Returns (None, tt).
Proof.
  set (N := Z.to_nat 2147483648).
  assert (HN : Z.of_nat N = 2147483648) by (subst N; lia).
  clearbody N. cbv zeta.
  assert (Hb : is_bytes (repeat 0 N)) by now apply is_bytes_repeat.
  assert (Hlen : len (repeat 0 N) = 2147483648)
    by (unfold len; now rewrite repeat_length).
  split; [exact Hb|]. split; [exact Hlen|].
  exists (encrypt_value (repeat 0 N) password). split; [apply encrypt_returns|].
  cbn [encrypt_value encrypted fingerprint hash].
  rewrite decrypt_container; [now rewrite Hlen | exact Hb |].
  unfold quantumCompress, Uint8Array_from, len. rewrite length_map, repeat_length.
  pose proof (compress_loop_repeat 0 N N) as Hc. rewrite HN in Hc.
  change ((2147483648 + 254) / 255) with 8421505 in Hc. lia.
Qed.

(** C5, as the code has it: when the fingerprint of the password
    differs from the expected one, [quantumDecrypt] returns [null] and
    leaves the world as it was (no callback is called), whatever the
    container and the expected digest are.  There is no kind of
    failure: a call that fails at the digest returns the same [null],
    so the result does not say which check failed. *)
Theorem quantumDecrypt_wrong_password {W : Type} (container : Uint8Array)
    (password : list Z) (expectedFingerprint expectedHash : string)
    (onProgress : option (callback W)) (w : W) :
  generateEntropyFingerprint password <> expectedFingerprint ->
  quantumDecrypt container password expectedFingerprint expectedHash onProgress w
    = Returns (None, w) /\
  (forall (container' : Uint8Array) (expectedHash' : string),
     quantumDecrypt container' password expectedFingerprint expectedHash' onProgress w
     = quantumDecrypt container password expectedFingerprint expectedHash onProgress w) /\
  (forall (container' : Uint8Array) (password' : list Z)
          (expectedFingerprint' expectedHash' : string),
     quantumHash container' password' <> expectedHash' ->
     quantumDecrypt container' password' expectedFingerprint' expectedHash' onProgress w
     = quantumDecrypt container password expectedFingerprint expectedHash onProgress w).
Proof.
  intro Hfp. apply String.eqb_neq in Hfp.
  assert (H : forall c h,
            quantumDecrypt c password expectedFingerprint h onProgress w = Returns (None, w)).
  { intros c h. unfold quantumDecrypt. cbv zeta. now rewrite Hfp. }
  split; [apply H|]. split.
  - intros container' expectedHash'. now rewrite !H.
  - intros container' password' expectedFingerprint' expectedHash' Hd.
    rewrite H. apply String.eqb_neq in Hd.
    unfold quantumDecrypt. cbv zeta. rewrite Hd.
    now destruct (negb (_ =? expectedFingerprint')%string).
Qed.

Lemma aget_past_end (a : list Z) (i : Z) : len a <= i -> aget a i = None.
Proof.
  intro H. unfold aget. destruct (i <? 0); [reflexivity|].
  apply nth_error_None. unfold len in H. lia.
Qed.

(** C4, as the code has it: [quantumDecrypt] has no check of the
    container's length and no error kind of its own for it.  On a
    container shorter than 8 bytes it returns [null] when the
    fingerprint or the digest does not match; when both match it
    reads the missing header bytes as 0, so that a container of at
    most 4 bytes is decrypted to the empty array when its stored
    length reads 0, and to [null] otherwise. *)
Theorem quantumDecrypt_short_container {W : Type} (container : Uint8Array)
    (password : list Z) (expectedFingerprint expectedHash : string)
    (onProgress : option (callback W)) (w : W) :
  len container < 8 ->
  (generateEntropyFingerprint password <> expectedFingerprint \/
   quantumHash container password <> expectedHash ->
   quantumDecrypt container password expectedFingerprint expectedHash onProgress w
     = Returns (None, w)) /\
  (generateEntropyFingerprint password = expectedFingerprint ->
   quantumHash container password = expectedHash ->
   len container <= 4 ->
   quantumDecrypt container password expectedFingerprint expectedHash onProgress w
     = Returns (if read_length container 0 =? 0 then Some [] else None, w)).
Proof.
  intro Hshort. split.
  - intros [Hfp|Hd]; unfold quantumDecrypt; cbv zeta.
    + apply String.eqb_neq in Hfp. now rewrite Hfp.
    + apply String.eqb_neq in Hd. rewrite Hd.
      now destruct (_ =? expectedFingerprint)%string.
  - intros Hfp Hd H4. unfold quantumDecrypt. cbv zeta.
    apply String.eqb_eq in Hfp, Hd. rewrite Hfp, Hd. cbn [negb].
    assert (Hc : read_length container 4 = 0).
    { unfold read_length. rewrite !aget_past_end by lia. reflexivity. }
    rewrite Hc. change (0 <? 0) with false. cbv iota.
    rewrite entropyStream_0. cbn [decrypt_loop Z.to_nat repeat].
    change (len (quantumDecompress [])) with 0.
    rewrite (Z.eqb_sym 0). now destruct (read_length container 0 =? 0).
Qed.

#[local] Transparent entropyStream generateEntropySeed quantumHash generateEntropyFingerprint.

(** ** Witnesses and counterexamples of the container's claims *)

(** The container, fingerprint and digest of [1, 2, 3] under
    "password1", offered with the password "wrongpass". *)
Lemma quantumDecrypt_wrong_password_witness :
  generateEntropyFingerprint (password_of "wrongpass")
    <> "72398ee8306674dc5ccb7080fa0c1b43a4d171ee338586ec2f7aec295898a67c"%string /\
  (quantumDecrypt (W := unit) [0; 0; 0; 3; 0; 0; 0; 3; 115; 59; 141] (password_of "wrongpass")
     "72398ee8306674dc5ccb7080fa0c1b43a4d171ee338586ec2f7aec295898a67c"
     "3e5a1e6b4d1a1536d6e143c20db8051c74401f07c7c71fcc163b8f0203cc1f1d" None tt
     = Returns (None, tt) /\
   (forall (container' : Uint8Array) (expectedHash' : string),
      quantumDecrypt (W := unit) container' (password_of "wrongpass")
        "72398ee8306674dc5ccb7080fa0c1b43a4d171ee338586ec2f7aec295898a67c" expectedHash' None tt
      = quantumDecrypt (W := unit) [0; 0; 0; 3; 0; 0; 0; 3; 115; 59; 141]
          (password_of "wrongpass")
          "72398ee8306674dc5ccb7080fa0c1b43a4d171ee338586ec2f7aec295898a67c"
          "3e5a1e6b4d1a1536d6e143c20db8051c74401f07c7c71fcc163b8f0203cc1f1d" None tt) /\
   (forall (container' : Uint8Array) (password' : list Z)
           (expectedFingerprint' expectedHash' : string),
      quantumHash container' password' <> expectedHash' ->
      quantumDecrypt (W := unit) container' password' expectedFingerprint' expectedHash' None tt
      = quantumDecrypt (W := unit) [0; 0; 0; 3; 0; 0; 0; 3; 115; 59; 141]
          (password_of "wrongpass")
          "72398ee8306674dc5ccb7080fa0c1b43a4d171ee338586ec2f7aec295898a67c"
          "3e5a1e6b4d1a1536d6e143c20db8051c74401f07c7c71fcc163b8f0203cc1f1d" None tt)).
Proof.
  split.
  - vm_compute. discriminate.
  - apply quantumDecrypt_wrong_password. vm_compute. discriminate.
Defined.

(** C5 fails as it is worded: the failure has no kind.  The call
    with the wrong password, the call with the right password on a
    container with one bit flipped, and the call on a container whose
    stored length is wrong return one and the same [null]. *)
Lemma wrong_password_not_told_apart :
  generateEntropyFingerprint (password_of "wrongpass")
    <> "72398ee8306674dc5ccb7080fa0c1b43a4d171ee338586ec2f7aec295898a67c"%string /\
  decrypt [0; 0; 0; 3; 0; 0; 0; 3; 115; 59; 141] (password_of "wrongpass")
    "72398ee8306674dc5ccb7080fa0c1b43a4d171ee338586ec2f7aec295898a67c"
    "3e5a1e6b4d1a1536d6e143c20db8051c74401f07c7c71fcc163b8f0203cc1f1d"
  = Returns (None, tt) /\
  generateEntropyFingerprint (password_of "password1")
    = "72398ee8306674dc5ccb7080fa0c1b43a4d171ee338586ec2f7aec295898a67c"%string /\
  quantumHash [0; 0; 0; 3; 0; 0; 0; 3; 114; 59; 141] (password_of "password1")
    <> "3e5a1e6b4d1a1536d6e143c20db8051c74401f07c7c71fcc163b8f0203cc1f1d"%string /\
  decrypt [0; 0; 0; 3; 0; 0; 0; 3; 114; 59; 141] (password_of "password1")
    "72398ee8306674dc5ccb7080fa0c1b43a4d171ee338586ec2f7aec295898a67c"
    "3e5a1e6b4d1a1536d6e143c20db8051c74401f07c7c71fcc163b8f0203cc1f1d"
  = Returns (None, tt) /\
  decrypt [0; 0; 0; 4; 0; 0; 0; 3; 115; 59; 141] (password_of "password1")
    "72398ee8306674dc5ccb7080fa0c1b43a4d171ee338586ec2f7aec295898a67c"
    (quantumHash [0; 0; 0; 4; 0; 0; 0; 3; 115; 59; 141] (password_of "password1"))
  = Returns (None, tt).
Proof.
  split; [vm_compute; discriminate|]. split; [vm_compute; reflexivity|].
  split; [vm_compute; reflexivity|]. split; [vm_compute; discriminate|].
  split; vm_compute; reflexivity.
Qed.

(** C4 fails on the empty container: offered with the fingerprint of
    the password and with its own digest, it is decrypted to the
    empty array. *)
Lemma decrypt_empty_container :
  len [] < 8 /\
  decrypt [] (password_of "p")
    (generateEntropyFingerprint (password_of "p"))
    (quantumHash [] (password_of "p")) = Returns (Some [], tt).
Proof. split; [reflexivity | vm_compute; reflexivity]. Qed.

(** A five-byte container whose fifth byte is 0x80 makes
    [new Uint8Array(compressedLength)] throw. *)
Lemma decrypt_short_container_throws :
  decrypt [0; 0; 0; 0; 128] (password_of "p")
    (generateEntropyFingerprint (password_of "p"))
    (quantumHash [0; 0; 0; 0; 128] (password_of "p")) = Throws RangeError.
Proof. vm_compute. reflexivity. Qed.

Lemma quantumDecrypt_short_container_witness :
  len [0; 0; 0] < 8 /\
  ((generateEntropyFingerprint (password_of "p") <> generateEntropyFingerprint (password_of "p") \/
    quantumHash [0; 0; 0] (password_of "p") <> quantumHash [0; 0; 0] (password_of "p") ->
    quantumDecrypt (W := unit) [0; 0; 0] (password_of "p")
      (generateEntropyFingerprint (password_of "p"))
      (quantumHash [0; 0; 0] (password_of "p")) None tt = Returns (None, tt)) /\
   (generateEntropyFingerprint (password_of "p") = generateEntropyFingerprint (password_of "p") ->
    quantumHash [0; 0; 0] (password_of "p") = quantumHash [0; 0; 0] (password_of "p") ->
    len [0; 0; 0] <= 4 ->
    quantumDecrypt (W := unit) [0; 0; 0] (password_of "p")
      (generateEntropyFingerprint (password_of "p"))
      (quantumHash [0; 0; 0] (password_of "p")) None tt
    = Returns (if read_length [0; 0; 0] 0 =? 0 then Some [] else None, tt))).
Proof.
  split; [reflexivity | apply quantumDecrypt_short_container; reflexivity].
Defined.

(** ** The scenarios of the design document *)

(** The empty array is encrypted to eight zero bytes, and decrypted
    back from them. *)
Example encrypt_empty :
  match encrypt [] (password_of "password1") with
  | Returns (r, _) =>
      encrypted r = [0; 0; 0; 0; 0; 0; 0; 0] /\
      decrypt (encrypted r) (password_of "password1") (fingerprint r) (hash r)
        = Returns (Some [], tt)
  | Throws _ => False
  end.
Proof. vm_compute. split; reflexivity. Qed.

(** [1, 2, 3] under "password1". *)
Example encrypt_123 :
  encrypt [1; 2; 3] (password_of "password1") =
  Returns ({| encrypted := [0; 0; 0; 3; 0; 0; 0; 3; 115; 59; 141];
              fingerprint := "72398ee8306674dc5ccb7080fa0c1b43a4d171ee338586ec2f7aec295898a67c";
              hash := "3e5a1e6b4d1a1536d6e143c20db8051c74401f07c7c71fcc163b8f0203cc1f1d" |}, tt).
Proof. vm_compute. reflexivity. Qed.

Example decrypt_123 :
  decrypt [0; 0; 0; 3; 0; 0; 0; 3; 115; 59; 141] (password_of "password1")
    "72398ee8306674dc5ccb7080fa0c1b43a4d171ee338586ec2f7aec295898a67c"
    "3e5a1e6b4d1a1536d6e143c20db8051c74401f07c7c71fcc163b8f0203cc1f1d"
  = Returns (Some [1; 2; 3], tt).
Proof. vm_compute. reflexivity. Qed.

(** One bit of the first ciphertext byte flipped (115 to 114): the
    digest no longer matches and the result is [null]. *)
Example decrypt_123_flipped :
  quantumHash [0; 0; 0; 3; 0; 0; 0; 3; 114; 59; 141] (password_of "password1")
    <> "3e5a1e6b4d1a1536d6e143c20db8051c74401f07c7c71fcc163b8f0203cc1f1d"%string /\
  decrypt [0; 0; 0; 3; 0; 0; 0; 3; 114; 59; 141] (password_of "password1")
    "72398ee8306674dc5ccb7080fa0c1b43a4d171ee338586ec2f7aec295898a67c"
    "3e5a1e6b4d1a1536d6e143c20db8051c74401f07c7c71fcc163b8f0203cc1f1d"
  = Returns (None, tt).
Proof. split; [vm_compute; discriminate | vm_compute; reflexivity]. Qed.

(** * Properties of the seed *)

Lemma wrap32_ToInt32 (z : Z) : wrap32 z = JS.ToInt32 z.
Proof.
  unfold wrap32, JS.ToInt32. cbv zeta.
  destruct (Z.ltb_spec (z mod 4294967296) 2147483648); Z.div_mod_to_equations; lia.
Qed.

(** The loop body of [generateEntropySeed] is the rolling step with
    the zero-filling shift. *)
Lemma seed_step_rolling (h code : Z) : seed_step h code = rolling_step shift_logical h code.
Proof.
  unfold seed_step, rolling_step. cbv zeta. rewrite !wrap32_ToInt32.
  assert (H1 : JS.ToInt32 (JS.shl h 5 - h + code) = JS.ToInt32 (h * 32 - h + code)).
  { apply ToInt32_congr. rewrite shl_pure by lia.
    rewrite Z.shiftl_mul_pow2 by lia. change (2 ^ 5) with 32.
    rewrite <- Z.add_sub_swap, <- (Z.add_sub_swap (h * 32)).
    rewrite <- Zminus_mod_idemp_l, <- Zplus_mod_idemp_l, ToInt32_mod.
    now rewrite Zplus_mod_idemp_l, Zminus_mod_idemp_l. }
  rewrite H1, xor_pure. unfold JS.ushr, JS.ToUint32, shift_logical.
  now rewrite Z.shiftr_div_pow2 by lia.
Qed.

Lemma seed_hash_rolling (password : list Z) :
  seed_hash password = rolling_hash shift_logical password.
Proof.
  unfold seed_hash, rolling_hash. generalize 0.
  induction password as [|c password IH]; intro h; [reflexivity|].
  cbn [fold_left]. now rewrite seed_step_rolling, IH.
Qed.

(** C7, as the code has it: the seed is the clamped quotient of the
    magnitude of the 32-bit rolling hash whose second step,
    [h ^= h >>> 16], shifts the 32-bit pattern of [h] with zero fill
    (not with sign extension). *)
Theorem generateEntropySeed_rolling_hash (password : list Z) :
  generateEntropySeed password = derive_seed shift_logical password.
Proof.
  unfold generateEntropySeed, derive_seed, clamp, JS.Math_abs. cbv zeta.
  now rewrite seed_hash_rolling.
Qed.

(** C7 fails with the sign-extending shift: on "abcdef" the hash goes
    negative in the loop, the two shifts part, and so do the seeds. *)
Lemma derive_seed_arithmetic_differs :
  seed_hash (password_of "abcdef") = -1424377616 /\
  rolling_hash shift_arithmetic (password_of "abcdef") = 1424406768 /\
  generateEntropySeed (password_of "abcdef")
    <> derive_seed shift_arithmetic (password_of "abcdef").
Proof.
  split; [vm_compute; reflexivity|]. split; [vm_compute; reflexivity|].
  intro H. apply (f_equal Prim2SF) in H. vm_compute in H. discriminate H.
Qed.

(** * Rounding of binary64 operations

    The arithmetic of the chaotic maps is binary64 with rounding to
    nearest even.  What the engine needs from it is one fact: rounding
    is faithful, it never steps over a representable number.  The
    section proves it for the rounding function of the specification
    of the primitive floats, on nonnegative numbers, with every value
    scaled to an integer: a nonnegative [m * 2^e] is the integer
    [m * 2^(e + K)] for a [K] with [0 <= e + K]. *)

Module Rounding.

Lemma fexp_eq (e : Z) : SpecFloat.fexp prec emax e = Z.max (e - 53) (-1074).
Proof. reflexivity. Qed.

(** ** Number of binary digits *)

Lemma digits2_pos_bounds (p : positive) :
  2 ^ (Zpos (digits2_pos p) - 1) <= Zpos p < 2 ^ Zpos (digits2_pos p).
Proof.
  induction p as [p IH|p IH|]; cbn [digits2_pos]; [| |cbn; lia];
    rewrite Pos2Z.inj_succ; replace (Z.succ (Zpos (digits2_pos p)) - 1)
      with (Z.succ (Zpos (digits2_pos p) - 1)) by lia;
    rewrite !Z.pow_succ_r by lia; lia.
Qed.

Lemma Zdigits2_nonneg (m : Z) : 0 <= m -> 0 <= Zdigits2 m.
Proof. destruct m; cbn; lia. Qed.

Lemma Zdigits2_bounds (m : Z) :
  0 < m -> 2 ^ (Zdigits2 m - 1) <= m < 2 ^ Zdigits2 m.
Proof.
  destruct m as [|p|p]; try lia. intros _. apply digits2_pos_bounds.
Qed.

(** A number below [2^n] has at most [n] digits. *)
Lemma Zdigits2_le (m n : Z) : 0 <= m < 2 ^ n -> 0 <= n -> Zdigits2 m <= n.
Proof.
  intros Hm Hn. destruct (Z.eq_dec m 0) as [->|Hnz]; [assumption|].
  pose proof (Zdigits2_bounds m ltac:(lia)) as Hd.
  destruct (Z.le_gt_cases (Zdigits2 m) n) as [|Hgt]; [assumption|].
  assert (2 ^ n <= 2 ^ (Zdigits2 m - 1)) by (apply Z.pow_le_mono_r; lia). lia.
Qed.

(** ** Shifting right with a record of what was shifted out *)

Lemma shr_1_nonneg (m : Z) (r s : bool) :
  0 <= m ->
  shr_1 (Build_shr_record m r s) = Build_shr_record (m / 2) (Z.odd m) (r || s).
Proof.
  intro Hm. rewrite <- Z.div2_div.
  destruct m as [|[p|p|]|p]; try reflexivity. lia.
Qed.

Lemma iter_pos_nat {A : Type} (f : A -> A) (p : positive) :
  forall x, iter_pos f p x = Nat.iter (Pos.to_nat p) f x.
Proof.
  induction p as [p IH|p IH|]; intro x; cbn [iter_pos].
  - rewrite !IH, Pos2Nat.inj_xI, Nat.iter_succ_r.
    replace (2 * Pos.to_nat p)%nat with (Pos.to_nat p + Pos.to_nat p)%nat by lia.
    now rewrite Nat.iter_add.
  - rewrite !IH, Pos2Nat.inj_xO.
    replace (2 * Pos.to_nat p)%nat with (Pos.to_nat p + Pos.to_nat p)%nat by lia.
    now rewrite Nat.iter_add.
  - reflexivity.
Qed.

(** [n] steps divide by [2^n]; the record says "inexact" only if the
    input did or a nonzero bit was shifted out. *)
Lemma shr_iter (n : nat) (m : Z) (r s : bool) :
  0 <= m ->
  let mrs := Nat.iter n shr_1 (Build_shr_record m r s) in
  shr_m mrs = m / 2 ^ Z.of_nat n /\
  (inexact mrs = true -> r || s = true \/ m mod 2 ^ Z.of_nat n <> 0).
Proof.
  intro Hm. induction n as [|n IH]; cbv zeta.
  - cbn [Nat.iter shr_m]. split; [now rewrite Z.div_1_r | now left].
  - rewrite Nat.iter_succ. cbv zeta in IH.
    destruct (Nat.iter n shr_1 (Build_shr_record m r s)) as [mn rn sn].
    cbn [shr_m] in IH. destruct IH as [Hmn Hin].
    assert (Hp : 0 < 2 ^ Z.of_nat n) by (apply Z.pow_pos_nonneg; lia).
    assert (Hmn0 : 0 <= mn) by (subst mn; apply Z.div_pos; lia).
    rewrite shr_1_nonneg by assumption. cbn [shr_m].
    replace (Z.of_nat (S n)) with (Z.succ (Z.of_nat n)) by lia.
    rewrite Z.pow_succ_r by lia. split.
    + subst mn. rewrite Z.div_div by lia. f_equal. lia.
    + unfold inexact. cbn [shr_r shr_s]. intro Hx.
      destruct (r || s) eqn:Hrs; [now left | right].
      intro Hmod.
      apply Z.mod_divide in Hmod; [|lia]. destruct Hmod as [t Ht].
      assert (Hmn' : mn = 2 * t).
      { subst mn. rewrite Ht.
        replace (t * (2 * 2 ^ Z.of_nat n)) with (2 * t * 2 ^ Z.of_nat n) by lia.
        apply Z.div_mul. lia. }
      assert (Hodd : Z.odd mn = false) by (rewrite Hmn', Z.odd_mul; reflexivity).
      rewrite Hodd in Hx. cbn [orb] in Hx.
      unfold inexact in Hin. cbn [shr_r shr_s] in Hin.
      destruct (Hin Hx) as [|Hne]; [discriminate|].
      apply Hne. rewrite Ht.
      replace (t * (2 * 2 ^ Z.of_nat n)) with (t * 2 * 2 ^ Z.of_nat n) by lia.
      apply Z.mod_mul. lia.
Qed.

Lemma shr_record_of_loc_m (m : Z) (l : location) : shr_m (shr_record_of_loc m l) = m.
Proof. now destruct l as [|[]]. Qed.

Lemma shr_record_of_loc_inexact (m : Z) (l : location) :
  inexact (shr_record_of_loc m l) = true -> l <> loc_Exact.
Proof. destruct l as [|[]]; cbn; congruence. Qed.

(** [shr_fexp] when the target exponent is not below the exponent of
    the input. *)
Lemma shr_fexp_spec (m e : Z) (l : location) :
  let k := SpecFloat.fexp prec emax (Zdigits2 m + e) - e in
  0 <= m -> 0 <= k ->
  let '(mrs, e') := shr_fexp prec emax m e l in
  e' = e + k /\ shr_m mrs = m / 2 ^ k /\
  (inexact mrs = true -> l <> loc_Exact \/ m mod 2 ^ k <> 0).
Proof.
  intros k Hm Hk. unfold shr_fexp, shr. fold k.
  destruct k as [|p|p] eqn:Ek; [| |lia].
  - rewrite Z.add_0_r, shr_record_of_loc_m. change (2 ^ 0) with 1.
    rewrite Z.div_1_r. repeat split. intro H. left.
    now apply shr_record_of_loc_inexact in H.
  - rewrite iter_pos_nat.
    pose proof (shr_iter (Pos.to_nat p) m (shr_r (shr_record_of_loc m l))
                  (shr_s (shr_record_of_loc m l)) Hm) as H.
    cbv zeta in H. rewrite positive_nat_Z in H.
    replace (Build_shr_record m (shr_r (shr_record_of_loc m l)) (shr_s (shr_record_of_loc m l)))
      with (shr_record_of_loc m l) in H by now destruct l as [|[]].
    destruct H as [H1 H2]. repeat split; [exact H1|].
    intro Hx. destruct (H2 Hx) as [Hrs|Hmod]; [left | now right].
    apply (shr_record_of_loc_inexact m). exact Hrs.
Qed.

(** Rounding to nearest even keeps the mantissa or adds one, and adds
    one only to an inexact record. *)
Lemma round_nearest_even_spec (mrs : shr_record) :
  let m' := round_nearest_even (shr_m mrs) (loc_of_shr_record mrs) in
  m' = shr_m mrs \/ (m' = shr_m mrs + 1 /\ inexact mrs = true).
Proof.
  destruct mrs as [m [|] [|]]; cbn; auto.
  destruct (Z.even m); auto.
Qed.

(** ** The shape of a rounded result *)

Lemma shr_no_shift (mrs : shr_record) (e n : Z) : n <= 0 -> shr mrs e n = (mrs, e).
Proof. intro H. unfold shr. destruct n; try reflexivity. lia. Qed.

(** Rounding [m0 * 2^e0] (with location [l0]) when the target exponent
    [e1] is not below [e0]: the mantissa [m1] at [e1] is kept or
    incremented, incremented only if something was lost, and the
    result overflows only past exponent 971. *)
Lemma binary_round_aux_shape (m0 e0 : Z) (l0 : location) :
  0 <= m0 ->
  let e1 := SpecFloat.fexp prec emax (Zdigits2 m0 + e0) in
  e0 <= e1 ->
  let m1 := m0 / 2 ^ (e1 - e0) in
  exists m1r : Z,
    (m1r = m1 \/ (m1r = m1 + 1 /\ (l0 <> loc_Exact \/ m0 mod 2 ^ (e1 - e0) <> 0))) /\
    0 <= m1 < 2 ^ 53 /\ -1074 <= e1 /\ (-1074 < e1 -> 2 ^ 52 <= m1) /\
    binary_round_aux prec emax false m0 e0 l0 =
      (if m1r =? 0 then S754_zero false
       else if m1r =? 2 ^ 53 then
         (if e1 + 1 <=? 971 then S754_finite false (2 ^ 52)%positive (e1 + 1)
          else S754_infinity false)
       else if e1 <=? 971 then S754_finite false (Z.to_pos m1r) e1
       else S754_infinity false).
Proof.
  intros Hm0 e1 He m1.
  assert (Hk : 0 <= e1 - e0) by lia.
  assert (Hp : 0 < 2 ^ (e1 - e0)) by (apply Z.pow_pos_nonneg; lia).
  assert (He1 : e1 = Z.max (Zdigits2 m0 + e0 - 53) (-1074)) by apply fexp_eq.
  assert (Hm1 : 0 <= m1 < 2 ^ 53).
  { split; [apply Z.div_pos; lia|].
    destruct (Z.eq_dec m0 0) as [->|Hnz]; [unfold m1; now rewrite Z.div_0_l by lia|].
    pose proof (Zdigits2_bounds m0 ltac:(lia)) as Hd.
    apply Z.div_lt_upper_bound; [lia|].
    rewrite <- Z.pow_add_r by lia.
    apply Z.lt_le_trans with (2 ^ Zdigits2 m0); [lia|].
    apply Z.pow_le_mono_r; lia. }
  assert (Hn : -1074 < e1 -> 2 ^ 52 <= m1).
  { intro Hgt.
    destruct (Z.eq_dec m0 0) as [->|Hnz]; [cbn in He1; lia|].
    pose proof (Zdigits2_bounds m0 ltac:(lia)) as Hd.
    apply Z.div_le_lower_bound; [lia|].
    rewrite <- Z.pow_add_r by lia.
    replace (e1 - e0 + 52) with (Zdigits2 m0 - 1) by lia. lia. }
  unfold binary_round_aux.
  pose proof (shr_fexp_spec m0 e0 l0) as H1. cbv zeta in H1. fold e1 in H1.
  specialize (H1 Hm0 Hk).
  destruct (shr_fexp prec emax m0 e0 l0) as [mrs' e'].
  destruct H1 as (He' & Hm' & Hin).
  replace (e0 + (e1 - e0)) with e1 in He' by lia. subst e'.
  pose proof (round_nearest_even_spec mrs') as Hr. cbv zeta in Hr.
  set (m1r := round_nearest_even (shr_m mrs') (loc_of_shr_record mrs')) in *.
  fold m1 in Hm'. rewrite Hm' in Hr.
  exists m1r. split; [|split; [exact Hm1|split; [lia|split; [exact Hn|]]]].
  { destruct Hr as [Hr|[Hr Hx]]; [now left | right; split; [exact Hr | now apply Hin]]. }
  assert (Hr' : 0 <= m1r <= 2 ^ 53) by (destruct Hr as [Hr|[Hr _]]; lia).
  unfold shr_fexp.
  destruct (Z.eqb_spec m1r 0) as [H0|H0].
  - rewrite H0. cbn [Zdigits2 shr_record_of_loc].
    rewrite shr_no_shift by (rewrite fexp_eq; lia). reflexivity.
  - destruct (Z.eqb_spec m1r (2 ^ 53)) as [H53|H53].
    + rewrite H53. change (Zdigits2 (2 ^ 53)) with 54. rewrite fexp_eq.
      replace (Z.max (54 + e1 - 53) (-1074) - e1) with 1 by lia.
      cbn [shr shr_record_of_loc iter_pos shr_1 shr_m Z.pow Z.pow_pos Pos.iter Z.mul Pos.mul].
      change (Z.sub emax prec) with 971. reflexivity.
    + assert (Hd : Zdigits2 m1r <= 53) by (apply Zdigits2_le; lia).
      rewrite shr_no_shift by (rewrite fexp_eq; lia).
      rewrite shr_record_of_loc_m. change (Z.sub emax prec) with 971.
      destruct m1r as [|p|p]; [lia | reflexivity | lia].
Qed.

(** ** Faithful rounding *)

(** The scaled value of a nonnegative finite number: [m * 2^(e + K)]. *)
Lemma bounded_spec (mB : positive) (eB : Z) :
  bounded prec emax mB eB = true ->
  Zpos mB < 2 ^ 53 /\ -1074 <= eB <= 971 /\ (-1074 < eB -> 2 ^ 52 <= Zpos mB).
Proof.
  unfold bounded, canonical_mantissa. rewrite andb_true_iff, Z.eqb_eq, Z.leb_le, fexp_eq.
  change (Z.sub emax prec) with 971. intros [Hc He].
  pose proof (digits2_pos_bounds mB) as Hd.
  assert (H53 : Zpos (digits2_pos mB) <= 53) by lia.
  repeat split; try lia.
  - apply Z.lt_le_trans with (2 ^ Zpos (digits2_pos mB)); [lia|].
    apply Z.pow_le_mono_r; lia.
  - intro Hn. replace 52 with (Zpos (digits2_pos mB) - 1) by lia. lia.
Qed.

(** A representable number lies on the grid of spacing [2^e1] from
    the mantissa [m1] on: it is not strictly between two neighbours. *)
Lemma on_grid (K m1 e1 : Z) (mB : positive) (eB : Z) :
  bounded prec emax mB eB = true -> 1074 <= K ->
  -1074 <= e1 -> 0 <= m1 -> (-1074 < e1 -> 2 ^ 52 <= m1) ->
  Zpos mB * 2 ^ (eB + K) <= m1 * 2 ^ (e1 + K) \/
  (m1 + 1) * 2 ^ (e1 + K) <= Zpos mB * 2 ^ (eB + K).
Proof.
  intros Hb HK He1 Hm1 Hn.
  destruct (bounded_spec mB eB Hb) as (HmB & HeB & _).
  destruct (Z.le_gt_cases e1 eB) as [Hle|Hgt].
  - replace (eB + K) with ((eB - e1) + (e1 + K)) by lia.
    rewrite Z.pow_add_r by lia.
    assert (0 < 2 ^ (e1 + K)) by (apply Z.pow_pos_nonneg; lia).
    assert (0 < 2 ^ (eB - e1)) by (apply Z.pow_pos_nonneg; lia).
    rewrite Z.mul_assoc.
    destruct (Z.le_gt_cases (Zpos mB * 2 ^ (eB - e1)) m1); [left | right];
      apply Z.mul_le_mono_nonneg_r; lia.
  - left. specialize (Hn ltac:(lia)).
    replace (e1 + K) with ((e1 - eB - 1) + (1 + (eB + K))) by lia.
    rewrite (Z.pow_add_r 2 (e1 - eB - 1)), (Z.pow_add_r 2 1) by lia. change (2 ^ 1) with 2.
    assert (0 < 2 ^ (eB + K)) by (apply Z.pow_pos_nonneg; lia).
    assert (0 < 2 ^ (e1 - eB - 1)) by (apply Z.pow_pos_nonneg; lia).
    change (2 ^ 53) with (2 * 2 ^ 52) in HmB.
    assert (Ht : 2 ^ 52 <= m1 * 2 ^ (e1 - eB - 1)) by nia.
    rewrite Z.mul_assoc. generalize dependent (m1 * 2 ^ (e1 - eB - 1)). intros t Ht. nia.
Qed.

Section Faithful.
Variables (K m0 e0 : Z) (l0 : location) (mB : positive) (eB : Z).
Hypothesis Hm0 : 0 <= m0.
Hypothesis HK : 1074 <= K.
Hypothesis HeK : 0 <= e0 + K.
Hypothesis He : e0 <= SpecFloat.fexp prec emax (Zdigits2 m0 + e0).
Hypothesis Hb : bounded prec emax mB eB = true.

(** Upper bounds pass through rounding: if the number rounded is at
    most the representable [B] (strictly below it when the location
    says that the number is above [m0 * 2^e0]), so is the result. *)
Lemma round_upper :
  m0 * 2 ^ (e0 + K) <= Zpos mB * 2 ^ (eB + K) ->
  (l0 <> loc_Exact -> m0 * 2 ^ (e0 + K) < Zpos mB * 2 ^ (eB + K)) ->
  let r := binary_round_aux prec emax false m0 e0 l0 in
  SFnn r = true /\ SFval K r <= Zpos mB * 2 ^ (eB + K).
Proof.
  intros H1 H2.
  destruct (binary_round_aux_shape m0 e0 l0 Hm0 He) as (m1r & Hr & Hm1 & He1 & Hn & Hres).
  set (e1 := SpecFloat.fexp prec emax (Zdigits2 m0 + e0)) in *.
  set (m1 := m0 / 2 ^ (e1 - e0)) in *.
  destruct (bounded_spec mB eB Hb) as (HmB & HeB & _).
  assert (Hpk : 0 < 2 ^ (e1 - e0)) by (apply Z.pow_pos_nonneg; lia).
  assert (Hp0 : 0 < 2 ^ (e0 + K)) by (apply Z.pow_pos_nonneg; lia).
  assert (HP : 2 ^ (e1 + K) = 2 ^ (e1 - e0) * 2 ^ (e0 + K))
    by (rewrite <- Z.pow_add_r by lia; f_equal; lia).
  pose proof (Z.div_mod m0 (2 ^ (e1 - e0)) ltac:(lia)) as Hdm. fold m1 in Hdm.
  pose proof (Z.mod_pos_bound m0 (2 ^ (e1 - e0)) Hpk) as Hmod.
  assert (Hle : m1r * 2 ^ (e1 + K) <= Zpos mB * 2 ^ (eB + K)).
  { destruct Hr as [->|[-> Hx]]; [rewrite HP; nia|].
    destruct (on_grid K m1 e1 mB eB Hb HK He1 ltac:(lia) Hn) as [Hg|Hg]; [|exact Hg].
    exfalso. destruct Hx as [Hx|Hx].
    - specialize (H2 Hx). rewrite HP in Hg. nia.
    - rewrite HP in Hg. nia. }
  assert (HB : Zpos mB * 2 ^ (eB + K) < 2 ^ 53 * 2 ^ (971 + K)).
  { assert (2 ^ (eB + K) <= 2 ^ (971 + K)) by (apply Z.pow_le_mono_r; lia).
    assert (0 < 2 ^ (eB + K)) by (apply Z.pow_pos_nonneg; lia). nia. }
  assert (Hr0 : 0 <= m1r) by (destruct Hr as [->|[-> _]]; lia).
  assert (HpB : 0 < 2 ^ (eB + K)) by (apply Z.pow_pos_nonneg; lia).
  cbv zeta. rewrite Hres.
  destruct (Z.eqb_spec m1r 0) as [H0|H0]; [cbn [SFnn SFval]; split; [reflexivity|nia]|].
  destruct (Z.eqb_spec m1r (2 ^ 53)) as [H53|H53].
  - destruct (Z.leb_spec (e1 + 1) 971) as [Hov|Hov]; cbn [SFnn SFval].
    + split; [reflexivity|]. rewrite H53 in Hle.
      replace (e1 + 1 + K) with (1 + (e1 + K)) by lia.
      rewrite (Z.pow_add_r 2 1) by lia. change (Zpos (2 ^ 52)) with (2 ^ 52).
      change (2 ^ 53) with (2 ^ 52 * 2 ^ 1) in Hle. lia.
    + exfalso. rewrite H53 in Hle.
      assert (2 ^ (971 + K) <= 2 ^ (e1 + K)) by (apply Z.pow_le_mono_r; lia).
      assert (2 ^ 53 * 2 ^ (971 + K) <= 2 ^ 53 * 2 ^ (e1 + K))
        by (apply Z.mul_le_mono_nonneg_l; lia).
      lia.
  - destruct (Z.leb_spec e1 971) as [Hov|Hov]; cbn [SFnn SFval].
    + split; [reflexivity|]. rewrite Z2Pos.id by lia. exact Hle.
    + exfalso. specialize (Hn ltac:(lia)).
      assert (Hq : 2 * 2 ^ (971 + K) <= 2 ^ (e1 + K)).
      { replace (2 * 2 ^ (971 + K)) with (2 ^ (972 + K)).
        - apply Z.pow_le_mono_r; lia.
        - replace (972 + K) with (Z.succ (971 + K)) by lia. apply Z.pow_succ_r. lia. }
      change (2 ^ 53) with (2 * 2 ^ 52) in HB.
      assert (0 < 2 ^ (971 + K)) by (apply Z.pow_pos_nonneg; lia).
      assert (2 ^ 52 <= m1r) by (destruct Hr as [->|[-> _]]; lia).
      assert (2 ^ 52 * (2 * 2 ^ (971 + K)) <= m1r * 2 ^ (e1 + K))
        by (apply Z.mul_le_mono_nonneg; lia).
      lia.
Qed.

(** Lower bounds pass through rounding: if the representable [B] is
    below [(m0 + 1) * 2^e0], the result is at least [B], or infinite. *)
Lemma round_lower :
  Zpos mB * 2 ^ (eB + K) < (m0 + 1) * 2 ^ (e0 + K) ->
  let r := binary_round_aux prec emax false m0 e0 l0 in
  r = S754_infinity false \/
  (SFnn r = true /\ Zpos mB * 2 ^ (eB + K) <= SFval K r).
Proof.
  intros H1.
  destruct (binary_round_aux_shape m0 e0 l0 Hm0 He) as (m1r & Hr & Hm1 & He1 & Hn & Hres).
  set (e1 := SpecFloat.fexp prec emax (Zdigits2 m0 + e0)) in *.
  set (m1 := m0 / 2 ^ (e1 - e0)) in *.
  destruct (bounded_spec mB eB Hb) as (HmB & HeB & _).
  assert (Hpk : 0 < 2 ^ (e1 - e0)) by (apply Z.pow_pos_nonneg; lia).
  assert (Hp0 : 0 < 2 ^ (e0 + K)) by (apply Z.pow_pos_nonneg; lia).
  assert (HP : 2 ^ (e1 + K) = 2 ^ (e1 - e0) * 2 ^ (e0 + K))
    by (rewrite <- Z.pow_add_r by lia; f_equal; lia).
  pose proof (Z.div_mod m0 (2 ^ (e1 - e0)) ltac:(lia)) as Hdm. fold m1 in Hdm.
  pose proof (Z.mod_pos_bound m0 (2 ^ (e1 - e0)) Hpk) as Hmod.
  assert (HpB : 0 < 2 ^ (eB + K)) by (apply Z.pow_pos_nonneg; lia).
  assert (Hle : Zpos mB * 2 ^ (eB + K) <= m1r * 2 ^ (e1 + K)).
  { assert (Hg1 : Zpos mB * 2 ^ (eB + K) <= m1 * 2 ^ (e1 + K)).
    { destruct (on_grid K m1 e1 mB eB Hb HK He1 ltac:(lia) Hn) as [Hg|Hg]; [exact Hg|].
      exfalso. rewrite HP in Hg. nia. }
    assert (0 < 2 ^ (e1 + K)) by (apply Z.pow_pos_nonneg; lia).
    destruct Hr as [->|[-> _]]; nia. }
  assert (Hr0 : 0 <= m1r) by (destruct Hr as [->|[-> _]]; lia).
  cbv zeta. rewrite Hres.
  destruct (Z.eqb_spec m1r 0) as [H0|H0]; [exfalso; rewrite H0 in Hle; nia|].
  destruct (Z.eqb_spec m1r (2 ^ 53)) as [H53|H53].
  - destruct (Z.leb_spec (e1 + 1) 971) as [Hov|Hov]; [right | now left].
    cbn [SFnn SFval]. split; [reflexivity|]. rewrite H53 in Hle.
    replace (e1 + 1 + K) with (1 + (e1 + K)) by lia.
    rewrite (Z.pow_add_r 2 1) by lia. change (Zpos (2 ^ 52)) with (2 ^ 52).
    change (2 ^ 53) with (2 ^ 52 * 2 ^ 1) in Hle. lia.
  - destruct (Z.leb_spec e1 971) as [Hov|Hov]; [right | now left].
    cbn [SFnn SFval]. split; [reflexivity|]. rewrite Z2Pos.id by lia. exact Hle.
Qed.

End Faithful.

(** ** Values of valid numbers *)

Lemma Zdigits2_lower (m n : Z) : 0 <= n -> 2 ^ n <= m -> n + 1 <= Zdigits2 m.
Proof.
  intros Hn Hm.
  assert (0 < 2 ^ n) by (apply Z.pow_pos_nonneg; lia).
  pose proof (Zdigits2_bounds m ltac:(lia)) as Hd.
  destruct (Z.le_gt_cases (n + 1) (Zdigits2 m)) as [|Hlt]; [assumption|].
  assert (2 ^ Zdigits2 m <= 2 ^ n) by (apply Z.pow_le_mono_r; lia). lia.
Qed.

Lemma fexp_mono (a b : Z) : a <= b -> SpecFloat.fexp prec emax a <= SpecFloat.fexp prec emax b.
Proof. rewrite !fexp_eq. lia. Qed.

Lemma nn_viewP (f : spec_float) :
  valid_binary f = true -> SFnn f = true -> nn_view f.
Proof.
  destruct f as [s| | |[|] m e]; cbn; intros Hv Hn; try discriminate.
  - constructor.
  - now constructor.
Qed.

Lemma nnf_view (f : float) : nnf f -> nn_view (Prim2SF f).
Proof. intro H. apply nn_viewP; [apply Prim2SF_valid | exact H]. Qed.

End Rounding.

(** * Bounds through the operations on doubles *)

Module FloatBounds.
Import Rounding.

Lemma pow2_pos (n : Z) : 0 <= n -> 0 < 2 ^ n.
Proof. intro H. apply Z.pow_pos_nonneg; lia. Qed.

Lemma pow2_split (a b : Z) : 0 <= a -> 0 <= b -> 2 ^ (a + b) = 2 ^ a * 2 ^ b.
Proof. intros. now apply Z.pow_add_r. Qed.

Lemma val_nonneg (f : float) : nnf f -> 0 <= val f.
Proof.
  intro H. unfold val. destruct (nnf_view f H) as [s|m e Hb]; cbn [SFval]; [lia|].
  destruct (bounded_spec m e Hb) as (_ & He & _).
  pose proof (pow2_pos (e + 1074) ltac:(lia)). nia.
Qed.

(** A bound in units of [2^-2148] is a bound in units of [2^-1074]. *)
Lemma rescale (r : spec_float) (mB : positive) (eB : Z) :
  valid_binary r = true -> SFnn r = true -> -1074 <= eB ->
  SFval 2148 r <= Zpos mB * 2 ^ (eB + 2148) ->
  SFval 1074 r <= Zpos mB * 2 ^ (eB + 1074).
Proof.
  intros Hv Hn HeB Hle.
  pose proof (pow2_pos (eB + 1074) ltac:(lia)) as HpB.
  destruct (nn_viewP r Hv Hn) as [s|m e Hb]; cbn [SFval] in *; [nia|].
  destruct (bounded_spec m e Hb) as (_ & He & _).
  replace (e + 2148) with ((e + 1074) + 1074) in Hle by lia.
  replace (eB + 2148) with ((eB + 1074) + 1074) in Hle by lia.
  rewrite (pow2_split (e + 1074) 1074), (pow2_split (eB + 1074) 1074), !Z.mul_assoc in Hle by lia.
  apply Z.mul_le_mono_pos_r in Hle; [exact Hle | now apply pow2_pos].
Qed.

Lemma rescale_lower (r : spec_float) (mB : positive) (eB : Z) :
  valid_binary r = true -> SFnn r = true -> -1074 <= eB ->
  Zpos mB * 2 ^ (eB + 2148) <= SFval 2148 r ->
  Zpos mB * 2 ^ (eB + 1074) <= SFval 1074 r.
Proof.
  intros Hv Hn HeB Hle.
  pose proof (pow2_pos (eB + 1074) ltac:(lia)) as HpB.
  pose proof (pow2_pos (eB + 2148) ltac:(lia)) as HpB'.
  destruct (nn_viewP r Hv Hn) as [s|m e Hb]; cbn [SFval] in *; [nia|].
  destruct (bounded_spec m e Hb) as (_ & He & _).
  replace (e + 2148) with ((e + 1074) + 1074) in Hle by lia.
  replace (eB + 2148) with ((eB + 1074) + 1074) in Hle by lia.
  rewrite (pow2_split (e + 1074) 1074), (pow2_split (eB + 1074) 1074), !Z.mul_assoc in Hle by lia.
  apply Z.mul_le_mono_pos_r in Hle; [exact Hle | now apply pow2_pos].
Qed.

(** ** Multiplication *)

Lemma mul_digits (mx my : positive) :
  2 ^ 52 <= Zpos mx \/ 2 ^ 52 <= Zpos my -> 53 <= Zdigits2 (Zpos (mx * my)).
Proof.
  intro H. apply (Zdigits2_lower _ 52); [lia|]. rewrite Pos2Z.inj_mul.
  destruct H as [H|H].
  - apply Z.le_trans with (Zpos mx * 1); [lia|]. apply Z.mul_le_mono_nonneg_l; lia.
  - apply Z.le_trans with (1 * Zpos my); [lia|]. apply Z.mul_le_mono_nonneg_r; lia.
Qed.

Lemma mul_upper (x y B : float) :
  nnf x -> nnf y -> nnf B -> 0 < val B ->
  val x * val y <= val B * 2 ^ 1074 ->
  nnf (x * y) /\ val (x * y) <= val B.
Proof.
  intros Hx Hy HB HB0 H. unfold nnf, val in *.
  pose proof (Prim2SF_valid (x * y)) as Hv.
  rewrite mul_spec in *. unfold SF64mul in *.
  destruct (nnf_view x Hx) as [sx|mx ex Hbx]; destruct (nnf_view y Hy) as [sy|my ey Hby];
    cbn [SFmul SFnn SFval xorb] in *; try (split; [reflexivity | lia]).
  destruct (nnf_view B HB) as [sB|mB eB HbB]; cbn [SFval] in *; [lia|].
  destruct (bounded_spec mx ex Hbx) as (Hmx & Hex & Hnx).
  destruct (bounded_spec my ey Hby) as (Hmy & Hey & Hny).
  destruct (bounded_spec mB eB HbB) as (HmB & HeB & _).
  assert (He : ex + ey <= SpecFloat.fexp prec emax (Zdigits2 (Zpos (mx * my)) + (ex + ey))).
  { rewrite fexp_eq.
    destruct (Z.eq_dec ex (-1074)) as [Ex|Ex]; destruct (Z.eq_dec ey (-1074)) as [Ey|Ey];
      try lia.
    - pose proof (mul_digits mx my (or_intror (Hny ltac:(lia)))). lia.
    - pose proof (mul_digits mx my (or_introl (Hnx ltac:(lia)))). lia.
    - pose proof (mul_digits mx my (or_introl (Hnx ltac:(lia)))). lia. }
  pose proof (pow2_pos (ex + 1074) ltac:(lia)) as Hpx.
  pose proof (pow2_pos (ey + 1074) ltac:(lia)) as Hpy.
  pose proof (pow2_pos (eB + 1074) ltac:(lia)) as HpB.
  pose proof (pow2_pos 1074 ltac:(lia)) as Hp.
  assert (H1 : Zpos (mx * my) * 2 ^ (ex + ey + 2148) <= Zpos mB * 2 ^ (eB + 2148)).
  { replace (ex + ey + 2148) with ((ex + 1074) + (ey + 1074)) by lia.
    replace (eB + 2148) with ((eB + 1074) + 1074) by lia.
    rewrite (pow2_split (ex + 1074) (ey + 1074)), (pow2_split (eB + 1074) 1074) by lia.
    rewrite Pos2Z.inj_mul.
    replace (Zpos mx * Zpos my * (2 ^ (ex + 1074) * 2 ^ (ey + 1074)))
      with (Zpos mx * 2 ^ (ex + 1074) * (Zpos my * 2 ^ (ey + 1074))) by ring.
    rewrite (Z.mul_assoc (Zpos mB)). exact H. }
  assert (H2 : loc_Exact <> loc_Exact ->
               Zpos (mx * my) * 2 ^ (ex + ey + 2148) < Zpos mB * 2 ^ (eB + 2148))
    by (intro Hc; now elim Hc).
  assert (Hm0 : 0 <= Zpos (mx * my)) by lia.
  assert (HK : 1074 <= 2148) by lia.
  assert (HeK : 0 <= ex + ey + 2148) by lia.
  destruct (round_upper 2148 (Zpos (mx * my)) (ex + ey) loc_Exact mB eB
              Hm0 HK HeK He HbB H1 H2) as [Hn Hle].
  split; [exact Hn|].
  apply (rescale _ mB eB Hv Hn); [lia | exact Hle].
Qed.

(** ** Normalisation before rounding *)

Lemma iter_xO (m d : positive) : Zpos (Pos.iter xO m d) = Zpos m * 2 ^ Zpos d.
Proof.
  induction d as [|d IH] using Pos.peano_ind.
  - cbn [Pos.iter]. rewrite Pos2Z.inj_xO. change (2 ^ 1) with 2. lia.
  - rewrite Pos.iter_succ, Pos2Z.inj_xO, IH, Pos2Z.inj_succ, Z.pow_succ_r by lia. lia.
Qed.

Lemma shl_align_spec (mx : positive) (ex ex' : Z) :
  let '(m', e') := shl_align mx ex ex' in
  e' = Z.min ex ex' /\ Zpos m' = Zpos mx * 2 ^ (ex - e').
Proof.
  unfold shl_align. destruct (ex' - ex) as [|d|d] eqn:Hd.
  - split; [lia|]. rewrite Z.sub_diag. change (2 ^ 0) with 1. lia.
  - split; [lia|]. rewrite Z.sub_diag. change (2 ^ 0) with 1. lia.
  - split; [lia|]. rewrite iter_xO. do 2 f_equal. lia.
Qed.

Lemma Zdigits2_unique (m n : Z) : 0 < m -> 2 ^ (n - 1) <= m < 2 ^ n -> Zdigits2 m = n.
Proof.
  intros Hm Hn. pose proof (Zdigits2_bounds m Hm) as Hd.
  pose proof (Zdigits2_nonneg m ltac:(lia)) as Hd0.
  assert (Hn0 : 0 < n).
  { destruct (Z.lt_ge_cases 0 n) as [|Hle]; [assumption|].
    rewrite (Z.pow_neg_r 2 n) in Hn by (destruct (Z.eq_dec n 0); [|lia];
      subst n; cbn in Hn; lia). lia. }
  destruct (Z.lt_trichotomy (Zdigits2 m) n) as [Hlt|[Heq|Hgt]]; [|exact Heq|].
  - assert (2 ^ Zdigits2 m <= 2 ^ (n - 1)) by (apply Z.pow_le_mono_r; lia). lia.
  - assert (2 ^ n <= 2 ^ (Zdigits2 m - 1)) by (apply Z.pow_le_mono_r; lia). lia.
Qed.

Lemma Zdigits2_shift (m d : Z) : 0 < m -> 0 <= d -> Zdigits2 (m * 2 ^ d) = Zdigits2 m + d.
Proof.
  intros Hm Hd. pose proof (Zdigits2_bounds m Hm) as Hb.
  pose proof (pow2_pos d Hd) as Hp.
  assert (Hd1 : 1 <= Zdigits2 m) by (destruct m; cbn in *; lia).
  apply Zdigits2_unique.
  - apply Z.mul_pos_pos; lia.
  - replace (Zdigits2 m + d - 1) with ((Zdigits2 m - 1) + d) by lia.
    rewrite !pow2_split by lia. split.
    + apply Z.mul_le_mono_nonneg_r; lia.
    + apply Z.mul_lt_mono_pos_r; lia.
Qed.

Section BinaryRound.
Variables (K : Z) (m : positive) (e : Z).
Hypothesis HK : 1074 <= K.
Hypothesis HeK : 0 <= e + K.

(** [binary_round] aligns its argument so that rounding can only
    shift right, and keeps the value. *)
Lemma binary_round_align :
  exists (mz : positive) (ez : Z),
    binary_round prec emax false m e = binary_round_aux prec emax false (Zpos mz) ez loc_Exact /\
    0 <= ez + K /\
    ez <= SpecFloat.fexp prec emax (Zdigits2 (Zpos mz) + ez) /\
    Zpos mz * 2 ^ (ez + K) = Zpos m * 2 ^ (e + K) /\
    (SpecFloat.fexp prec emax (Zdigits2 (Zpos m) + e) <= e ->
     ez = SpecFloat.fexp prec emax (Zdigits2 (Zpos mz) + ez)).
Proof.
  unfold binary_round.
  pose proof (shl_align_spec m e (SpecFloat.fexp prec emax (Zpos (digits2_pos m) + e))) as H.
  destruct (shl_align m e _) as [mz ez]. destruct H as [Hez Hmz].
  exists mz, ez. split; [reflexivity|].
  change (Zpos (digits2_pos m)) with (Zdigits2 (Zpos m)) in Hez.
  assert (Hsub : 0 <= e - ez) by lia.
  assert (Hdig : Zdigits2 (Zpos mz) + ez = Zdigits2 (Zpos m) + e).
  { rewrite Hmz, Zdigits2_shift by lia. lia. }
  rewrite Hdig. rewrite fexp_eq in *. repeat split; try lia.
  rewrite Hmz. replace (e + K) with ((e - ez) + (ez + K)) by lia.
  rewrite (pow2_split (e - ez)) by lia. ring.
Qed.

Lemma binary_round_upper (mB : positive) (eB : Z) :
  bounded prec emax mB eB = true ->
  Zpos m * 2 ^ (e + K) <= Zpos mB * 2 ^ (eB + K) ->
  let r := binary_round prec emax false m e in
  SFnn r = true /\ SFval K r <= Zpos mB * 2 ^ (eB + K).
Proof.
  intros Hb H. destruct binary_round_align as (mz & ez & -> & H0 & H1 & H2 & _).
  rewrite <- H2 in H.
  assert (Hx : loc_Exact <> loc_Exact -> Zpos mz * 2 ^ (ez + K) < Zpos mB * 2 ^ (eB + K))
    by (intro Hc; elim Hc; reflexivity).
  assert (Hmz : 0 <= Zpos mz) by lia.
  exact (round_upper K (Zpos mz) ez loc_Exact mB eB Hmz HK H0 H1 Hb H Hx).
Qed.

Lemma binary_round_lower (mB : positive) (eB : Z) :
  bounded prec emax mB eB = true ->
  Zpos mB * 2 ^ (eB + K) <= Zpos m * 2 ^ (e + K) ->
  let r := binary_round prec emax false m e in
  r = S754_infinity false \/ (SFnn r = true /\ Zpos mB * 2 ^ (eB + K) <= SFval K r).
Proof.
  intros Hb H. destruct binary_round_align as (mz & ez & -> & H0 & H1 & H2 & _).
  rewrite <- H2 in H.
  assert (Hmz : 0 <= Zpos mz) by lia.
  apply (round_lower K (Zpos mz) ez loc_Exact mB eB Hmz HK H0 H1 Hb).
  pose proof (pow2_pos (ez + K) H0). lia.
Qed.

End BinaryRound.

(** ** Addition and subtraction *)

Lemma SFval_finite_pos (K : Z) (m : positive) (e : Z) :
  0 <= e + K -> 0 < SFval K (S754_finite false m e).
Proof. intro H. cbn [SFval]. pose proof (pow2_pos (e + K) H). apply Z.mul_pos_pos; lia. Qed.

(** The two aligned mantissas of a sum or difference. *)
Lemma aligned_values (mx my : positive) (ex ey : Z) :
  -1074 <= ex -> -1074 <= ey ->
  let ez := Z.min ex ey in
  Zpos (fst (shl_align mx ex ez)) * 2 ^ (ez + 1074) = Zpos mx * 2 ^ (ex + 1074) /\
  Zpos (fst (shl_align my ey ez)) * 2 ^ (ez + 1074) = Zpos my * 2 ^ (ey + 1074).
Proof.
  intros Hex Hey ez.
  pose proof (shl_align_spec mx ex ez) as Hx. pose proof (shl_align_spec my ey ez) as Hy.
  destruct (shl_align mx ex ez) as [mx' ex']. destruct (shl_align my ey ez) as [my' ey'].
  cbn [fst]. destruct Hx as [Hx1 Hx2]. destruct Hy as [Hy1 Hy2].
  assert (Ex : ex' = ez) by lia. assert (Ey : ey' = ez) by lia.
  rewrite Ex in Hx2. rewrite Ey in Hy2. rewrite Hx2, Hy2. split.
  - replace (ex + 1074) with ((ex - ez) + (ez + 1074)) by lia.
    rewrite (pow2_split (ex - ez)) by lia. ring.
  - replace (ey + 1074) with ((ey - ez) + (ez + 1074)) by lia.
    rewrite (pow2_split (ey - ez)) by lia. ring.
Qed.

Lemma add_upper (x y B : float) :
  nnf x -> nnf y -> nnf B -> 0 < val B ->
  val x + val y <= val B ->
  nnf (x + y) /\ val (x + y) <= val B.
Proof.
  intros Hx Hy HB HB0 H. unfold nnf, val in *.
  rewrite add_spec in *. unfold SF64add in *.
  destruct (nnf_view B HB) as [sB|mB eB HbB]; cbn [SFval] in HB0; [lia|].
  destruct (bounded_spec mB eB HbB) as (_ & HeB & _).
  pose proof (pow2_pos (eB + 1074) ltac:(lia)) as HpB. cbn [SFval] in H |- *.
  destruct (nnf_view x Hx) as [sx|mx ex Hbx]; destruct (nnf_view y Hy) as [sy|my ey Hby].
  - destruct sx, sy; cbn [SFadd SFnn SFval]; split; try reflexivity; lia.
  - cbn [SFadd SFnn SFval] in *. split; [reflexivity | lia].
  - cbn [SFadd SFnn SFval] in *. split; [reflexivity | lia].
  - destruct (bounded_spec mx ex Hbx) as (_ & Hex & _).
    destruct (bounded_spec my ey Hby) as (_ & Hey & _).
    cbn [SFadd SFval cond_Zopp] in *.
    destruct (aligned_values mx my ex ey ltac:(lia) ltac:(lia)) as [Ax Ay]. cbv zeta in Ax, Ay.
    set (ez := Z.min ex ey) in *.
    set (ax := fst (shl_align mx ex ez)) in *. set (ay := fst (shl_align my ey ez)) in *.
    change (Zpos ax + Zpos ay) with (Zpos (ax + ay)). cbn [binary_normalize].
    apply binary_round_upper; [lia | lia | exact HbB |].
    rewrite Pos2Z.inj_add, Z.mul_add_distr_r, Ax, Ay. exact H.
Qed.

Lemma sub_upper (x y B : float) :
  nnf x -> nnf y -> nnf B -> 0 < val B ->
  val y <= val x -> val x - val y <= val B ->
  nnf (x - y) /\ val (x - y) <= val B.
Proof.
  intros Hx Hy HB HB0 Hyx H. unfold nnf, val in *.
  rewrite sub_spec in *. unfold SF64sub in *.
  destruct (nnf_view B HB) as [sB|mB eB HbB]; cbn [SFval] in HB0; [lia|].
  destruct (bounded_spec mB eB HbB) as (_ & HeB & _).
  pose proof (pow2_pos (eB + 1074) ltac:(lia)) as HpB. cbn [SFval] in H |- *.
  destruct (nnf_view x Hx) as [sx|mx ex Hbx]; destruct (nnf_view y Hy) as [sy|my ey Hby].
  - destruct sx, sy; cbn [SFsub SFnn SFval]; split; try reflexivity; lia.
  - exfalso. destruct (bounded_spec my ey Hby) as (_ & Hey & _).
    pose proof (SFval_finite_pos 1074 my ey ltac:(lia)). cbn [SFval] in *. lia.
  - cbn [SFsub SFnn SFval] in *. split; [reflexivity | lia].
  - destruct (bounded_spec mx ex Hbx) as (_ & Hex & _).
    destruct (bounded_spec my ey Hby) as (_ & Hey & _).
    cbn [SFsub SFval cond_Zopp] in *.
    destruct (aligned_values mx my ex ey ltac:(lia) ltac:(lia)) as [Ax Ay]. cbv zeta in Ax, Ay.
    set (ez := Z.min ex ey) in *.
    set (ax := fst (shl_align mx ex ez)) in *. set (ay := fst (shl_align my ey ez)) in *.
    pose proof (pow2_pos (ez + 1074) ltac:(lia)) as Hpz.
    rewrite <- Ax, <- Ay, <- Z.mul_sub_distr_r in H.
    rewrite <- Ax, <- Ay in Hyx. apply Z.mul_le_mono_pos_r in Hyx; [|exact Hpz].
    destruct (Zpos ax - Zpos ay) as [|d|d] eqn:Hd; [| |lia].
    + cbn [binary_normalize SFnn SFval]. split; [reflexivity | lia].
    + cbn [binary_normalize]. apply binary_round_upper; [lia | lia | exact HbB | exact H].
Qed.

(** ** Conversion of an integer *)

Lemma binary_round_aux_exact (mz : positive) (ez : Z) :
  ez = SpecFloat.fexp prec emax (Zdigits2 (Zpos mz) + ez) -> ez <= 971 ->
  binary_round_aux prec emax false (Zpos mz) ez loc_Exact = S754_finite false mz ez.
Proof.
  intros Hc He.
  destruct (binary_round_aux_shape (Zpos mz) ez loc_Exact ltac:(lia) ltac:(lia))
    as (m1r & Hr & Hm1 & _ & _ & Hres).
  rewrite <- Hc, Z.sub_diag in *. change (2 ^ 0) with 1 in *.
  rewrite Z.div_1_r, Z.mod_1_r in *.
  assert (m1r = Zpos mz) by (destruct Hr as [Hr|[_ [Hx|Hx]]]; [exact Hr | now elim Hx | now elim Hx]).
  subst m1r. rewrite Hres.
  destruct (Z.eqb_spec (Zpos mz) 0) as [|_]; [lia|].
  destruct (Z.eqb_spec (Zpos mz) (2 ^ 53)) as [|_]; [lia|].
  destruct (Z.leb_spec ez 971); [reflexivity | lia].
Qed.

Lemma of_int_val (z : Z) :
  0 <= z < 2 ^ 53 -> nnf (JS.of_int z) /\ val (JS.of_int z) = z * 2 ^ 1074.
Proof.
  intro Hz. unfold nnf, val, JS.of_int. rewrite of_uint63_spec, Uint63.of_Z_spec.
  rewrite Z.mod_small by (change Uint63.wB with (2 ^ 63); split; [lia|];
    apply Z.lt_trans with (2 ^ 53); [lia | reflexivity]).
  destruct z as [|p|p]; [cbn; split; reflexivity | | lia].
  cbn [binary_normalize].
  destruct (binary_round_align 1074 p 0 ltac:(lia) ltac:(lia))
    as (mz & ez & -> & H0 & H1 & H2 & H3).
  assert (Hd : Zdigits2 (Zpos p) <= 53) by (apply Zdigits2_le; lia).
  assert (Hc : ez = SpecFloat.fexp prec emax (Zdigits2 (Zpos mz) + ez))
    by (apply H3; rewrite fexp_eq; lia).
  rewrite binary_round_aux_exact; [cbn [SFnn SFval]; split; [reflexivity | exact H2] | exact Hc |].
  rewrite fexp_eq in Hc, H1.
  destruct (Z.le_gt_cases ez 971) as [|Hgt]; [assumption|].
  exfalso. pose proof (Zdigits2_bounds (Zpos mz) ltac:(lia)) as Hb.
  assert (2 ^ (52 + (ez + 1074)) <= Zpos mz * 2 ^ (ez + 1074)).
  { rewrite pow2_split by lia. apply Z.mul_le_mono_nonneg_r; [apply Z.lt_le_incl, pow2_pos; lia|].
    replace 52 with (Zdigits2 (Zpos mz) - 1) by lia. lia. }
  assert (2 ^ (53 + 1074) <= 2 ^ (52 + (ez + 1074))) by (apply Z.pow_le_mono_r; lia).
  rewrite H2 in *. change (0 + 1074) with 1074 in *.
  assert (Zpos p * 2 ^ 1074 < 2 ^ 53 * 2 ^ 1074)
    by (apply Z.mul_lt_mono_pos_r; [apply pow2_pos|]; lia).
  rewrite (pow2_split 53 1074) in * by lia. lia.
Qed.

(** ** Comparisons *)

(** Between numbers of the format, the one with the smaller exponent
    is the smaller one. *)
Lemma bounded_exponent_lt (m1 m2 : positive) (e1 e2 : Z) :
  bounded prec emax m1 e1 = true -> bounded prec emax m2 e2 = true -> e1 < e2 ->
  Zpos m1 * 2 ^ (e1 + 1074) < Zpos m2 * 2 ^ (e2 + 1074).
Proof.
  intros H1 H2 Hlt.
  destruct (bounded_spec m1 e1 H1) as (Hm1 & He1 & _).
  destruct (bounded_spec m2 e2 H2) as (_ & He2 & Hn2). specialize (Hn2 ltac:(lia)).
  pose proof (pow2_pos (e1 + 1074) ltac:(lia)) as Hp1.
  apply Z.lt_le_trans with (2 ^ 53 * 2 ^ (e1 + 1074)).
  - apply Z.mul_lt_mono_pos_r; assumption.
  - apply Z.le_trans with (2 ^ 52 * 2 ^ (e2 + 1074)).
    + replace (e2 + 1074) with ((e2 - e1 - 1) + (1 + (e1 + 1074))) by lia.
      rewrite (pow2_split (e2 - e1 - 1)), (pow2_split 1) by lia.
      pose proof (pow2_pos (e2 - e1 - 1) ltac:(lia)).
      change (2 ^ 53) with (2 ^ 52 * 2 ^ 1). rewrite <- Z.mul_assoc.
      apply Z.mul_le_mono_nonneg_l; [lia|].
      rewrite <- (Z.mul_1_l (2 ^ 1 * 2 ^ (e1 + 1074))) at 1.
      apply Z.mul_le_mono_nonneg_r; [|lia].
      apply Z.mul_nonneg_nonneg; lia.
    + apply Z.mul_le_mono_nonneg_r; [|exact Hn2]. apply Z.lt_le_incl, pow2_pos. lia.
Qed.

Lemma SFcompare_val (x y : spec_float) :
  nn_view x -> nn_view y -> SFcompare x y = Some (SFval 1074 x ?= SFval 1074 y).
Proof.
  intros [sx|mx ex Hbx] [sy|my ey Hby]; cbn [SFcompare SFval].
  - reflexivity.
  - destruct (bounded_spec my ey Hby) as (_ & Hey & _).
    pose proof (SFval_finite_pos 1074 my ey ltac:(lia)) as Hp. cbn [SFval] in Hp.
    f_equal. symmetry. now apply Z.compare_lt_iff.
  - destruct (bounded_spec mx ex Hbx) as (_ & Hex & _).
    pose proof (SFval_finite_pos 1074 mx ex ltac:(lia)) as Hp. cbn [SFval] in Hp.
    f_equal. symmetry. now apply Z.compare_gt_iff.
  - f_equal. destruct (Z.compare_spec ex ey) as [He|He|He].
    + subst ey. destruct (bounded_spec mx ex Hbx) as (_ & Hex & _).
      pose proof (pow2_pos (ex + 1074) ltac:(lia)) as Hp.
      change (Pos.compare_cont Eq mx my) with (Pos.compare mx my).
      symmetry. destruct (Pos.compare_spec mx my) as [Hm|Hm|Hm].
      * subst my. apply Z.compare_refl.
      * apply Z.compare_lt_iff. apply Z.mul_lt_mono_pos_r; [exact Hp | lia].
      * apply Z.compare_gt_iff. apply Z.mul_lt_mono_pos_r; [exact Hp | lia].
    + symmetry. apply Z.compare_lt_iff. now apply bounded_exponent_lt.
    + symmetry. apply Z.compare_gt_iff. now apply bounded_exponent_lt.
Qed.

Lemma ltb_val (x y : float) : nnf x -> nnf y -> (x <? y)%float = (val x <? val y).
Proof.
  intros Hx Hy. rewrite ltb_spec. unfold SFltb, val.
  rewrite SFcompare_val by now apply nnf_view. unfold Z.ltb.
  first [reflexivity | now destruct (SFval 1074 (Prim2SF x) ?= SFval 1074 (Prim2SF y))].
Qed.

Lemma leb_val (x y : float) : nnf x -> nnf y -> (x <=? y)%float = (val x <=? val y).
Proof.
  intros Hx Hy. rewrite leb_spec. unfold SFleb, val.
  rewrite SFcompare_val by now apply nnf_view. unfold Z.leb.
  first [reflexivity | now destruct (SFval 1074 (Prim2SF x) ?= SFval 1074 (Prim2SF y))].
Qed.

Lemma eqb_val (x y : float) : nnf x -> nnf y -> (x =? y)%float = (val x =? val y).
Proof.
  intros Hx Hy. rewrite eqb_spec. unfold SFeqb, val.
  rewrite SFcompare_val by now apply nnf_view.
  destruct (Z.compare_spec (SFval 1074 (Prim2SF x)) (SFval 1074 (Prim2SF y))) as [H|H|H];
    symmetry; [apply Z.eqb_eq; exact H | apply Z.eqb_neq; lia | apply Z.eqb_neq; lia].
Qed.

Lemma is_nan_nnf (x : float) : nnf x -> is_nan x = false.
Proof. intro H. unfold is_nan. rewrite eqb_val by assumption. now rewrite Z.eqb_refl. Qed.

(** ** [Math.min] and [Math.max] *)

Lemma Math_min_val (a b : float) :
  nnf a -> nnf b ->
  nnf (JS.Math_min a b) /\ val (JS.Math_min a b) = Z.min (val a) (val b).
Proof.
  intros Ha Hb. unfold JS.Math_min.
  rewrite !is_nan_nnf by assumption. cbn [orb].
  rewrite !ltb_val by assumption.
  destruct (Z.ltb_spec (val a) (val b)); [split; [assumption | lia]|].
  destruct (Z.ltb_spec (val b) (val a)); [split; [assumption | lia]|].
  destruct (get_sign a); split; try assumption; lia.
Qed.

Lemma Math_max_val (a b : float) :
  nnf a -> nnf b ->
  nnf (JS.Math_max a b) /\ val (JS.Math_max a b) = Z.max (val a) (val b).
Proof.
  intros Ha Hb. unfold JS.Math_max.
  rewrite !is_nan_nnf by assumption. cbn [orb].
  rewrite !ltb_val by assumption.
  destruct (Z.ltb_spec (val b) (val a)); [split; [assumption | lia]|].
  destruct (Z.ltb_spec (val a) (val b)); [split; [assumption | lia]|].
  destruct (get_sign a); split; try assumption; lia.
Qed.

(** ** The integer part *)

Lemma truncate_val (f : float) : nnf f -> JS.truncate f = val f / 2 ^ 1074.
Proof.
  intro H. unfold JS.truncate, val.
  destruct (nnf_view f H) as [s|m e Hb]; [reflexivity|].
  destruct (bounded_spec m e Hb) as (_ & He & _). cbn [SFval].
  destruct (Z.leb_spec 0 e).
  - rewrite Z.shiftl_mul_pow2, (pow2_split e 1074), Z.mul_assoc by lia.
    symmetry. apply Z.div_mul. apply Z.neq_sym, Z.lt_neq, pow2_pos. lia.
  - rewrite Z.shiftr_div_pow2 by lia.
    replace 1074 with ((- e) + (e + 1074)) at 2 by lia.
    rewrite (pow2_split (- e)) by lia.
    symmetry. apply Z.div_mul_cancel_r; apply Z.neq_sym, Z.lt_neq, pow2_pos; lia.
Qed.

(** A nonnegative double below 256 converts to a byte. *)
Lemma ToInt32F_byte (f : float) :
  nnf f -> val f < 256 * 2 ^ 1074 ->
  0 <= JS.ToInt32F f < 256 /\ JS.ToInt32F f = val f / 2 ^ 1074.
Proof.
  intros H Hlt. unfold JS.ToInt32F. rewrite truncate_val by assumption.
  pose proof (val_nonneg f H) as H0.
  pose proof (pow2_pos 1074 ltac:(lia)) as Hp.
  assert (Hq : 0 <= val f / 2 ^ 1074 < 256).
  { split; [apply Z.div_pos; lia | apply Z.div_lt_upper_bound; lia]. }
  rewrite JSFacts.ToInt32_small by lia. split; [exact Hq | reflexivity].
Qed.

(** ** Division *)

Lemma new_location_exact (n r : Z) : new_location n r <> loc_Exact -> r <> 0.
Proof.
  unfold new_location, new_location_even, new_location_odd. intros H Hr. subst r.
  destruct (Z.even n); cbn in H; now apply H.
Qed.

Lemma div_arith_upper (q r n P U : Z) :
  0 < n -> 0 < P -> 0 <= r -> (q * n + r) * P <= U * n ->
  q * P <= U /\ (r <> 0 -> q * P < U).
Proof. intros. split; [|intro]; nia. Qed.

Lemma div_arith_lower (q r n P U : Z) :
  0 < n -> 0 < P -> r < n -> U * n <= (q * n + r) * P -> U < (q + 1) * P.
Proof. intros. nia. Qed.

(** The quotient computed before rounding: [mx * 2^s = q * my + r]
    at an exponent [e'] from which rounding can only shift right. *)
Lemma SFdiv_core_spec (mx my : positive) (ex ey : Z) :
  bounded prec emax mx ex = true -> bounded prec emax my ey = true ->
  let '(q, e', l) := SFdiv_core_binary prec emax (Zpos mx) ex (Zpos my) ey in
  exists r : Z,
    0 <= ex - ey - e' /\ -2045 <= e' /\
    Zpos mx * 2 ^ (ex - ey - e') = q * Zpos my + r /\ 0 <= r < Zpos my /\ 0 <= q /\
    (l <> loc_Exact -> r <> 0) /\
    e' <= SpecFloat.fexp prec emax (Zdigits2 q + e').
Proof.
  intros Hbx Hby.
  destruct (bounded_spec mx ex Hbx) as (_ & Hex & _).
  destruct (bounded_spec my ey Hby) as (_ & Hey & _).
  unfold SFdiv_core_binary.
  set (d1 := Zdigits2 (Zpos mx)). set (d2 := Zdigits2 (Zpos my)).
  set (e' := Z.min (SpecFloat.fexp prec emax (d1 + ex - (d2 + ey))) (ex - ey)).
  set (s := ex - ey - e').
  assert (Hs : 0 <= s) by (unfold s, e'; lia).
  assert (He' : -2045 <= e') by (unfold e'; rewrite fexp_eq; lia).
  set (m' := match s with Zpos _ => Z.shiftl (Zpos mx) s | Z0 => Zpos mx | Zneg _ => 0 end).
  assert (Hm' : m' = Zpos mx * 2 ^ s).
  { unfold m'. destruct s as [|p|p] eqn:Es; [change (2 ^ 0) with 1; lia | | lia].
    now rewrite Z.shiftl_mul_pow2 by lia. }
  pose proof (Z_div_mod m' (Zpos my) ltac:(lia)) as Hdiv.
  destruct (Z.div_eucl m' (Zpos my)) as [q r] eqn:Hqr.
  destruct Hdiv as [Hdiv Hr].
  pose proof (pow2_pos s Hs) as Hps.
  assert (Hm'0 : 0 < m') by (rewrite Hm'; apply Z.mul_pos_pos; lia).
  assert (Hq : 0 <= q) by nia.
  exists r. fold s. repeat split; try lia.
  - now apply new_location_exact.
  - (* the quotient has at least [d1 + s - d2] digits *)
    assert (Hdig : d1 + s - d2 <= Zdigits2 q).
    { pose proof (Zdigits2_bounds (Zpos mx) ltac:(lia)) as B1. fold d1 in B1.
      pose proof (Zdigits2_bounds (Zpos my) ltac:(lia)) as B2. fold d2 in B2.
      assert (Hd1 : 1 <= d1) by (unfold d1; cbn; lia).
      assert (Hd2 : 1 <= d2) by (unfold d2; cbn; lia).
      pose proof (Zdigits2_nonneg q Hq) as Hq0.
      destruct (Z.le_gt_cases (d1 + s - d2) 0) as [|Hpos]; [lia|].
      assert (Hm'l : 2 ^ (d1 - 1 + s) <= m').
      { rewrite Hm', pow2_split by lia. apply Z.mul_le_mono_nonneg_r; lia. }
      assert (Hql : 2 ^ (d1 + s - d2 - 1) <= q).
      { assert (Hsplit : 2 ^ (d1 - 1 + s) = 2 ^ (d1 + s - d2 - 1) * 2 ^ d2).
        { rewrite <- pow2_split by lia. f_equal. lia. }
        pose proof (pow2_pos (d1 + s - d2 - 1) ltac:(lia)) as Hpp.
        pose proof (pow2_pos d2 ltac:(lia)) as Hpd.
        destruct (Z.le_gt_cases (2 ^ (d1 + s - d2 - 1)) q) as [|Hlt]; [assumption|].
        exfalso.
        assert (q + 1 <= 2 ^ (d1 + s - d2 - 1)) by lia.
        assert (m' < (q + 1) * Zpos my) by lia.
        assert ((q + 1) * Zpos my <= 2 ^ (d1 + s - d2 - 1) * 2 ^ d2)
          by (apply Z.mul_le_mono_nonneg; lia).
        lia. }
      pose proof (Zdigits2_lower q (d1 + s - d2 - 1) ltac:(lia) Hql). lia. }
    apply Z.le_trans with (SpecFloat.fexp prec emax (d1 + ex - (d2 + ey))).
    + unfold e'. lia.
    + apply fexp_mono. unfold s in Hdig. lia.
Qed.

Lemma div_scale (mx : positive) (ex ey e' : Z) :
  -1074 <= ex -> -1074 <= ey -> 0 <= ex - ey - e' -> -2148 <= e' ->
  Zpos mx * 2 ^ (ex - ey - e') * 2 ^ (e' + 2148) * 2 ^ (ey + 1074) =
  Zpos mx * 2 ^ (ex + 1074) * 2 ^ 1074 * 2 ^ 1074.
Proof.
  intros. rewrite <- !Z.mul_assoc. f_equal.
  rewrite <- !pow2_split by lia. f_equal. lia.
Qed.

Lemma div_upper (x y B : float) :
  nnf x -> nnf y -> nnf B -> 0 < val y -> 0 < val B ->
  val x * 2 ^ 1074 <= val B * val y ->
  nnf (x / y) /\ val (x / y) <= val B.
Proof.
  intros Hx Hy HB Hy0 HB0 H. unfold nnf, val in *.
  pose proof (Prim2SF_valid (x / y)) as Hv.
  rewrite div_spec in *. unfold SF64div in *.
  destruct (nnf_view B HB) as [sB|mB eB HbB]; cbn [SFval] in HB0; [lia|].
  destruct (nnf_view y Hy) as [sy|my ey Hby]; cbn [SFval] in Hy0; [lia|].
  destruct (bounded_spec mB eB HbB) as (_ & HeB & _).
  destruct (bounded_spec my ey Hby) as (_ & Hey & _).
  pose proof (pow2_pos (eB + 1074) ltac:(lia)) as HpB.
  destruct (nnf_view x Hx) as [sx|mx ex Hbx].
  { cbn [SFdiv SFnn SFval]. split; [reflexivity | cbn [SFval]; lia]. }
  destruct (bounded_spec mx ex Hbx) as (_ & Hex & _).
  cbn [SFdiv xorb SFval] in *.
  pose proof (SFdiv_core_spec mx my ex ey Hbx Hby) as Hcore.
  destruct (SFdiv_core_binary prec emax (Zpos mx) ex (Zpos my) ey) as [[q e'] l].
  destruct Hcore as (r & Hs & He' & Hdiv & Hr & Hq & Hl & Hfexp).
  pose proof (pow2_pos (e' + 2148) ltac:(lia)) as HP.
  pose proof (pow2_pos (ey + 1074) ltac:(lia)) as HY.
  pose proof (pow2_pos 1074 ltac:(lia)) as Hp.
  assert (Hmain : (q * Zpos my + r) * 2 ^ (e' + 2148) <= Zpos mB * 2 ^ (eB + 2148) * Zpos my).
  { rewrite <- Hdiv.
    apply (Z.mul_le_mono_pos_r _ _ (2 ^ (ey + 1074))); [exact HY|].
    rewrite div_scale by lia.
    replace (eB + 2148) with ((eB + 1074) + 1074) by lia.
    rewrite (pow2_split (eB + 1074) 1074) by lia.
    replace (Zpos mB * (2 ^ (eB + 1074) * 2 ^ 1074) * Zpos my * 2 ^ (ey + 1074))
      with (Zpos mB * 2 ^ (eB + 1074) * (Zpos my * 2 ^ (ey + 1074)) * 2 ^ 1074) by ring.
    apply Z.mul_le_mono_nonneg_r; [lia | exact H]. }
  destruct (div_arith_upper q r (Zpos my) (2 ^ (e' + 2148)) (Zpos mB * 2 ^ (eB + 2148))
              ltac:(lia) HP ltac:(lia) Hmain) as [H1 H2].
  assert (H2' : l <> loc_Exact -> q * 2 ^ (e' + 2148) < Zpos mB * 2 ^ (eB + 2148))
    by (intro Hne; apply H2, Hl, Hne).
  assert (HK : 1074 <= 2148) by lia.
  assert (HeK : 0 <= e' + 2148) by lia.
  destruct (round_upper 2148 q e' l mB eB Hq HK HeK Hfexp HbB H1 H2') as [Hn Hle].
  split; [exact Hn|].
  apply (rescale _ mB eB Hv Hn); [lia | exact Hle].
Qed.

Lemma div_lower (x y B : float) :
  nnf x -> nnf y -> nnf B -> 0 < val y -> 0 < val B ->
  nnf (x / y) ->
  val B * val y <= val x * 2 ^ 1074 ->
  val B <= val (x / y).
Proof.
  intros Hx Hy HB Hy0 HB0 Hxy H. unfold nnf, val in *.
  pose proof (Prim2SF_valid (x / y)) as Hv.
  rewrite div_spec in *. unfold SF64div in *.
  destruct (nnf_view B HB) as [sB|mB eB HbB]; cbn [SFval] in HB0; [lia|].
  destruct (nnf_view y Hy) as [sy|my ey Hby]; cbn [SFval] in Hy0; [lia|].
  destruct (bounded_spec mB eB HbB) as (_ & HeB & _).
  destruct (bounded_spec my ey Hby) as (_ & Hey & _).
  pose proof (pow2_pos (eB + 1074) ltac:(lia)) as HpB.
  pose proof (pow2_pos 1074 ltac:(lia)) as Hp.
  destruct (nnf_view x Hx) as [sx|mx ex Hbx].
  { exfalso. cbn [SFval] in H.
    assert (0 < Zpos mB * 2 ^ (eB + 1074) * (Zpos my * 2 ^ (ey + 1074)))
      by (apply Z.mul_pos_pos; assumption).
    lia. }
  destruct (bounded_spec mx ex Hbx) as (_ & Hex & _).
  cbn [SFdiv xorb SFval] in *.
  pose proof (SFdiv_core_spec mx my ex ey Hbx Hby) as Hcore.
  destruct (SFdiv_core_binary prec emax (Zpos mx) ex (Zpos my) ey) as [[q e'] l].
  destruct Hcore as (r & Hs & He' & Hdiv & Hr & Hq & Hl & Hfexp).
  pose proof (pow2_pos (e' + 2148) ltac:(lia)) as HP.
  pose proof (pow2_pos (ey + 1074) ltac:(lia)) as HY.
  assert (Hmain : Zpos mB * 2 ^ (eB + 2148) * Zpos my <= (q * Zpos my + r) * 2 ^ (e' + 2148)).
  { rewrite <- Hdiv.
    apply (Z.mul_le_mono_pos_r _ _ (2 ^ (ey + 1074))); [exact HY|].
    rewrite div_scale by lia.
    replace (eB + 2148) with ((eB + 1074) + 1074) by lia.
    rewrite (pow2_split (eB + 1074) 1074) by lia.
    replace (Zpos mB * (2 ^ (eB + 1074) * 2 ^ 1074) * Zpos my * 2 ^ (ey + 1074))
      with (Zpos mB * 2 ^ (eB + 1074) * (Zpos my * 2 ^ (ey + 1074)) * 2 ^ 1074) by ring.
    apply Z.mul_le_mono_nonneg_r; [lia | exact H]. }
  pose proof (div_arith_lower q r (Zpos my) (2 ^ (e' + 2148)) (Zpos mB * 2 ^ (eB + 2148))
                ltac:(lia) HP ltac:(lia) Hmain) as H1.
  assert (HK : 1074 <= 2148) by lia.
  assert (HeK : 0 <= e' + 2148) by lia.
  destruct (round_lower 2148 q e' l mB eB Hq HK HeK Hfexp HbB H1) as [Hinf|[Hn Hle]].
  - rewrite Hinf in Hxy. discriminate Hxy.
  - apply (rescale_lower _ mB eB Hv Hn); [lia | exact Hle].
Qed.

End FloatBounds.

(** * The chaotic maps stay in the unit interval *)

Module Chaos.
Import Rounding FloatBounds.

(** Facts about given doubles are settled by evaluation. *)
Ltac by_eval := vm_compute; reflexivity.
Ltac le_eval := apply Z.leb_le; vm_compute; reflexivity.
Ltac lt_eval := apply Z.ltb_lt; vm_compute; reflexivity.

Lemma grid_checked : check_pairs 0 grid = true.
Proof. by_eval. Qed.

Lemma last_cons_indep {A : Type} (l : list A) :
  forall x d d', last (x :: l) d = last (x :: l) d'.
Proof.
  induction l as [|y l IH]; intros x d d'; [reflexivity|].
  change (last (x :: y :: l) d) with (last (y :: l) d).
  change (last (x :: y :: l) d') with (last (y :: l) d'). apply IH.
Qed.

(** Every value between the first and the last point of a checked
    grid lies on a checked piece. *)
Lemma check_pairs_cover (l : list Z) :
  forall ka v : Z,
    check_pairs ka l = true ->
    ka * 2 ^ 1064 <= v <= last l ka * 2 ^ 1064 ->
    l <> [] ->
    exists a b : Z,
      logistic_check a b = true /\ a * 2 ^ 1064 <= v <= b * 2 ^ 1064.
Proof.
  induction l as [|kb l IH]; intros ka v Hc Hv Hne; [now elim Hne|].
  cbn [check_pairs] in Hc. apply andb_true_iff in Hc. destruct Hc as [Hab Hc].
  destruct (Z.le_gt_cases v (kb * 2 ^ 1064)) as [Hle|Hgt].
  - exists ka, kb. split; [exact Hab | lia].
  - destruct l as [|kc l].
    + cbn [last] in Hv. lia.
    + apply (IH kb v Hc); [|discriminate].
      change (last (kb :: kc :: l) ka) with (last (kc :: l) ka) in Hv.
      rewrite (last_cons_indep l kc ka kb) in Hv. lia.
Qed.

Lemma val_one : val 1 = 1024 * 2 ^ 1064.
Proof. by_eval. Qed.

(** The logistic map on one piece. *)
Lemma logistic_piece (ka kb : Z) (x : float) :
  logistic_check ka kb = true ->
  nnf x -> ka * 2 ^ 1064 <= val x <= kb * 2 ^ 1064 ->
  nnf (logisticMap x) /\ val (logisticMap x) <= val 1.
Proof.
  unfold logistic_check. cbv zeta.
  set (a := grid_point ka). set (b := grid_point kb).
  set (B1 := next_up (3.99 * b)%float). set (B2 := next_up (1 - a)%float).
  set (B3 := next_up (B1 * B2)%float).
  rewrite !andb_true_iff, !Z.eqb_eq, !Z.ltb_lt, !Z.leb_le.
  intros ((((((((((((((Na & Nb) & N1) & N2) & N3) & Va) & Vb) & P1) & P2) & P3)
            & C1) & Cb) & C2) & C3) & C4) Hx Hv.
  assert (N399 : nnf 3.99) by by_eval.
  assert (None : nnf 1) by by_eval.
  assert (V399 : 0 <= val 3.99) by (now apply val_nonneg).
  pose proof (val_nonneg x Hx) as Vx.
  unfold logisticMap.
  destruct (mul_upper 3.99 x B1 N399 Hx N1 P1) as [Nt1 Vt1].
  { apply Z.le_trans with (val 3.99 * val b); [|exact C1].
    apply Z.mul_le_mono_nonneg_l; lia. }
  destruct (sub_upper 1 x B2 None Hx N2 P2) as [Nt2 Vt2]; [lia | lia |].
  destruct (mul_upper _ _ B3 Nt1 Nt2 N3 P3) as [Nt3 Vt3].
  { apply Z.le_trans with (val B1 * val B2); [|exact C3].
    apply Z.mul_le_mono_nonneg; try assumption; now apply val_nonneg. }
  split; [exact Nt3 | lia].
Qed.

(** The logistic map keeps [0, 1]. *)
Lemma logisticMap_unit (x : float) :
  nnf x -> val x <= val 1 -> nnf (logisticMap x) /\ val (logisticMap x) <= val 1.
Proof.
  intros Hx Hv. pose proof (val_nonneg x Hx) as H0.
  destruct (check_pairs_cover grid 0 (val x) grid_checked) as (a & b & Hab & Hx').
  - rewrite val_one in Hv. change (last grid 0) with 1024. lia.
  - discriminate.
  - now apply (logistic_piece a b).
Qed.

(** The tent map keeps [0, 1], and stays below 0.996. *)
Lemma tentMap_unit (y : float) :
  nnf y -> val y <= val 1 -> nnf (tentMap y) /\ val (tentMap y) <= val 0.996.
Proof.
  intros Hy Hv. pose proof (val_nonneg y Hy) as H0.
  assert (N199 : nnf 1.99) by by_eval. assert (N05 : nnf 0.5) by by_eval.
  assert (N1 : nnf 1) by by_eval. assert (NB : nnf 0.996) by by_eval.
  assert (PB : 0 < val 0.996) by lt_eval. assert (P05 : 0 < val 0.5) by lt_eval.
  assert (C : val 1.99 * val 0.5 <= val 0.996 * 2 ^ 1074) by le_eval.
  assert (H1 : val 1 = 2 * val 0.5) by by_eval.
  pose proof (val_nonneg 1.99 N199) as V199.
  unfold tentMap. rewrite ltb_val by assumption.
  destruct (Z.ltb_spec (val y) (val 0.5)) as [Hlt|Hge].
  - apply mul_upper; try assumption.
    apply Z.le_trans with (val 1.99 * val 0.5); [|exact C].
    apply Z.mul_le_mono_nonneg_l; lia.
  - destruct (sub_upper 1 y 0.5 N1 Hy N05 P05) as [Nt Vt]; [lia | lia |].
    apply mul_upper; try assumption.
    apply Z.le_trans with (val 1.99 * val 0.5); [|exact C].
    apply Z.mul_le_mono_nonneg_l; lia.
Qed.

Lemma val_0996_le_1 : val 0.996 <= val 1.
Proof. le_eval. Qed.

(** One update of the two maps keeps the state in the unit square. *)
Lemma update_unit (x y : float) :
  in_unit x y -> in_unit (logisticMap x) (tentMap y) /\ val (tentMap y) <= val 0.996.
Proof.
  intros (Nx & Vx & Ny & Vy).
  destruct (logisticMap_unit x Nx Vx) as [Nx' Vx'].
  destruct (tentMap_unit y Ny Vy) as [Ny' Vy'].
  pose proof val_0996_le_1. repeat split; try assumption. lia.
Qed.

Lemma burn_in_unit (n : nat) :
  forall x y, in_unit x y ->
    let '(x', y') := burn_in n x y in in_unit x' y'.
Proof.
  induction n as [|n IH]; intros x y H; cbn [burn_in]; [exact H|].
  apply IH. now apply update_unit.
Qed.

(** The value yielded after an update is a byte: the integer part of
    a double below 256. *)
Lemma emit_byte (x y : float) :
  nnf x -> val x <= val 1 -> nnf y -> val y <= val 0.996 ->
  let v := ((x + y) / 2 * 256)%float in
  0 <= JS.ToInt32F v < 256 /\ JS.ToInt32F v = JS.truncate v.
Proof.
  intros Nx Vx Ny Vy v.
  pose proof (val_nonneg x Nx) as X0. pose proof (val_nonneg y Ny) as Y0.
  assert (Ns : nnf 1.997) by by_eval. assert (Ps : 0 < val 1.997) by lt_eval.
  assert (Nh : nnf 0.999) by by_eval. assert (Ph : 0 < val 0.999) by lt_eval.
  assert (No : nnf 255.9) by by_eval. assert (Po : 0 < val 255.9) by lt_eval.
  assert (N2 : nnf 2) by by_eval. assert (P2 : 0 < val 2) by lt_eval.
  assert (N256 : nnf 256) by by_eval. assert (P256 : 0 <= val 256) by (now apply val_nonneg).
  assert (C1 : val 1 + val 0.996 <= val 1.997) by le_eval.
  assert (C2 : val 1.997 * 2 ^ 1074 <= val 0.999 * val 2) by le_eval.
  assert (C3 : val 0.999 * val 256 <= val 255.9 * 2 ^ 1074) by le_eval.
  assert (C4 : val 255.9 < 256 * 2 ^ 1074) by lt_eval.
  destruct (add_upper x y 1.997 Nx Ny Ns Ps ltac:(lia)) as [N1 V1].
  destruct (div_upper (x + y) 2 0.999 N1 N2 Nh P2 Ph) as [N2' V2].
  { apply Z.le_trans with (val 1.997 * 2 ^ 1074); [|exact C2].
    apply Z.mul_le_mono_nonneg_r; [apply Z.lt_le_incl, pow2_pos; lia | exact V1]. }
  destruct (mul_upper ((x + y) / 2) 256 255.9 N2' N256 No Po) as [N3 V3].
  { apply Z.le_trans with (val 0.999 * val 256); [|exact C3].
    apply Z.mul_le_mono_nonneg_r; assumption. }
  fold v in N3, V3.
  destruct (ToInt32F_byte v N3 ltac:(lia)) as [Hb Heq].
  split; [exact Hb|]. unfold JS.ToInt32F in *.
  rewrite JSFacts.ToInt32_small; [reflexivity|].
  rewrite truncate_val in * by assumption.
  rewrite Heq in Hb. lia.
Qed.

Lemma land_255_byte (z : Z) : 0 <= z < 256 -> Z.land z 255 = z.
Proof.
  intro H. change 255 with (Z.ones 8). rewrite Z.land_ones by lia.
  apply Z.mod_small. exact H.
Qed.

(** The yielding loop from a state in the unit square: bytes, and the
    values the document's formula gives. *)
Lemma yield_loop_unit (n : nat) :
  forall x y, in_unit x y ->
    all_bytes (yield_loop n x y) /\
    yield_loop n x y = chaos_emits n (x, y).
Proof.
  induction n as [|n IH]; intros x y H; cbn [yield_loop chaos_emits].
  - split; [constructor | reflexivity].
  - destruct (update_unit x y H) as [H' Hy]. cbv zeta.
    destruct H' as (Nx & Vx & Ny & Vy).
    destruct (emit_byte (logisticMap x) (tentMap y) Nx Vx Ny Hy) as [Hb Heq].
    cbv zeta in Hb, Heq.
    destruct (IH (logisticMap x) (tentMap y)) as [IHb IHe]; [now repeat split|].
    split.
    + constructor; assumption.
    + unfold chaos_update, chaos_emit. cbn [fst snd]. rewrite IHe. f_equal.
      rewrite Heq in *. now rewrite land_255_byte.
Qed.

Lemma burn_in_iter (n : nat) :
  forall x y, burn_in n x y = Nat.iter n chaos_update (x, y).
Proof.
  induction n as [|n IH]; intros x y; [reflexivity|].
  cbn [burn_in]. now rewrite IH, Nat.iter_succ_r.
Qed.

(** A double between two nonnegative finite doubles is one. *)
Lemma between_nnf (lo hi s : float) :
  nnf lo -> 0 < val lo -> nnf hi ->
  (lo <=? s)%float = true -> (s <=? hi)%float = true -> nnf s.
Proof.
  intros Hlo Plo Hhi. rewrite !leb_spec. unfold SFleb, nnf, val in *.
  destruct (nnf_view lo Hlo) as [sl|ml el Hbl]; [cbn in Plo; lia|].
  destruct (nnf_view hi Hhi) as [sh|mh eh Hbh];
    destruct (Prim2SF s) as [ss|[|]| |[|] ms es]; cbn; congruence.
Qed.

(** The stream from a seed in [0.0001, 0.9999]. *)
Lemma entropyStream_unit (seed : float) (iterations : Z) :
  (0.0001 <=? seed)%float = true -> (seed <=? 0.9999)%float = true ->
  all_bytes (entropyStream seed iterations) /\
  entropyStream seed iterations = chaos_stream seed (Z.to_nat iterations).
Proof.
  intros Hlo Hhi.
  assert (Nlo : nnf 0.0001) by by_eval. assert (Nhi : nnf 0.9999) by by_eval.
  assert (Plo : 0 < val 0.0001) by lt_eval.
  assert (Ns : nnf seed) by now apply (between_nnf 0.0001 0.9999).
  rewrite leb_val in Hhi by assumption. apply Z.leb_le in Hhi.
  assert (C : val 0.9999 <= val 1) by le_eval.
  assert (Hs : in_unit seed (tentMap seed)).
  { destruct (tentMap_unit seed Ns ltac:(lia)) as [Nt Vt].
    pose proof val_0996_le_1. repeat split; try assumption; lia. }
  unfold entropyStream, chaos_stream. cbv zeta.
  pose proof (burn_in_unit 100 seed (tentMap seed) Hs) as Hb.
  rewrite <- burn_in_iter.
  destruct (burn_in 100 seed (tentMap seed)) as [x y].
  now apply yield_loop_unit.
Qed.

(** ** The seed *)

Lemma seed_hash_range (password : list Z) :
  -2147483648 <= seed_hash password < 2147483648.
Proof.
  unfold seed_hash. assert (H0 : -2147483648 <= 0 < 2147483648) by lia.
  revert H0. generalize 0. induction password as [|c password IH]; intros h Hh.
  - exact Hh.
  - cbn [fold_left]. apply IH. unfold seed_step. apply JSFacts.ToInt32_range.
Qed.

(** The quotient [|hash| / 2147483647] is a nonnegative finite double,
    and it is not 0.5: it is below 0.4999999999 when [|hash|] is at
    most 2^30 - 1, and above 0.5000000001 from 2^30 on. *)
Lemma normalized_spec (a : Z) :
  0 <= a <= 2147483648 ->
  let n := (JS.of_int a / 2147483647)%float in
  nnf n /\ (val n <= val 0.4999999999 \/ val 0.5000000001 <= val n).
Proof.
  intros Ha n.
  destruct (of_int_val a) as [Na Va];
    [split; [lia | apply Z.le_lt_trans with 2147483648; [lia | reflexivity]]|].
  assert (Ny : nnf 2147483647) by by_eval.
  assert (Vy : val 2147483647 = 2147483647 * 2 ^ 1074) by by_eval.
  assert (Py : 0 < val 2147483647) by lt_eval.
  assert (NB : nnf 1.5) by by_eval. assert (PB : 0 < val 1.5) by lt_eval.
  assert (VB : 2 * val 1.5 = 3 * 2 ^ 1074) by by_eval.
  assert (N1 : nnf 0.4999999999) by by_eval. assert (P1 : 0 < val 0.4999999999) by lt_eval.
  assert (N0 : nnf 0.5000000001) by by_eval. assert (P0 : 0 < val 0.5000000001) by lt_eval.
  assert (C1 : 1073741823 * 2 ^ 1074 <= val 0.4999999999 * 2147483647) by le_eval.
  assert (C0 : val 0.5000000001 * 2147483647 <= 1073741824 * 2 ^ 1074) by le_eval.
  pose proof (pow2_pos 1074 ltac:(lia)) as HP.
  assert (Hn : nnf n).
  { apply (div_upper _ _ 1.5 Na Ny NB Py PB). rewrite Va, Vy.
    generalize dependent (2 ^ 1074). intros P. intros.
    generalize dependent (val 1.5). intros. nia. }
  split; [exact Hn|].
  destruct (Z.le_gt_cases a 1073741823) as [Hle|Hgt].
  - left. apply (div_upper _ _ 0.4999999999 Na Ny N1 Py P1). rewrite Va, Vy.
    generalize dependent (2 ^ 1074). intros P. intros.
    generalize dependent (val 0.4999999999). intros. nia.
  - right. apply (div_lower _ _ 0.5000000001 Na Ny N0 Py P0 Hn). rewrite Va, Vy.
    generalize dependent (2 ^ 1074). intros P. intros.
    generalize dependent (val 0.5000000001). intros. nia.
Qed.

(** The seed is the clamped quotient: in [0.0001, 0.9999], and either
    a bound of the clamp or the quotient itself. *)
Lemma generateEntropySeed_spec (password : list Z) :
  let s := generateEntropySeed password in
  nnf s /\ val 0.0001 <= val s <= val 0.9999 /\
  (val s <= val 0.4999999999 \/ val 0.5000000001 <= val s).
Proof.
  unfold generateEntropySeed. cbv zeta.
  pose proof (seed_hash_range password) as Hh.
  destruct (normalized_spec (JS.Math_abs (seed_hash password))) as [Nn Vn];
    [unfold JS.Math_abs; lia|]. cbv zeta in Nn, Vn.
  set (n := (JS.of_int (JS.Math_abs (seed_hash password)) / 2147483647)%float) in *.
  assert (Nlo : nnf 0.0001) by by_eval. assert (Nhi : nnf 0.9999) by by_eval.
  destruct (Math_min_val 0.9999 n Nhi Nn) as [Nm Vm].
  destruct (Math_max_val 0.0001 (JS.Math_min 0.9999 n) Nlo Nm) as [Ns Vs].
  assert (C1 : val 0.0001 <= val 0.4999999999) by le_eval.
  assert (C2 : val 0.5000000001 <= val 0.9999) by le_eval.
  assert (C3 : val 0.4999999999 <= val 0.5000000001) by le_eval.
  split; [exact Ns | lia].
Qed.

End Chaos.

(** * The seed, the stream and the fingerprint *)

Section SeedStreamFingerprint.
Import Rounding FloatBounds Chaos.

(** C3, as the code has it: the seed of every password lies in the
    closed interval [0.0001, 0.9999], whose two ends the clamp returns
    as they are, and is none of 0, 0.5 and 1. *)
Theorem generateEntropySeed_range (password : list Z) :
  let s := generateEntropySeed password in
  (0.0001 <=? s)%float = true /\ (s <=? 0.9999)%float = true /\
  (s =? 0)%float = false /\ (s =? 0.5)%float = false /\ (s =? 1)%float = false.
Proof.
  destruct (generateEntropySeed_spec password) as (Ns & Vs & Vh). cbv zeta in *.
  assert (Nlo : nnf 0.0001) by by_eval. assert (Nhi : nnf 0.9999) by by_eval.
  assert (N0 : nnf 0) by by_eval. assert (N05 : nnf 0.5) by by_eval.
  assert (N1 : nnf 1) by by_eval.
  assert (C0 : val 0 < val 0.0001) by lt_eval.
  assert (C1 : val 0.4999999999 < val 0.5) by lt_eval.
  assert (C2 : val 0.5 < val 0.5000000001) by lt_eval.
  assert (C3 : val 0.9999 < val 1) by lt_eval.
  rewrite !leb_val, !eqb_val by assumption.
  repeat split; first [apply Z.leb_le | apply Z.eqb_neq]; lia.
Qed.

(** C3 fails at the empty password (and at "a", "ab", "abc", whose
    hashes are small): the seed is the lower end 0.0001 itself.  The
    upper end is reached too: the hash of "xfhvdgd" is -2147362531. *)
Lemma generateEntropySeed_empty :
  generateEntropySeed [] = 0.0001%float /\
  (0.0001 <? generateEntropySeed [])%float = false /\
  generateEntropySeed (password_of "abc") = 0.0001%float /\
  seed_hash (password_of "xfhvdgd") = -2147362531 /\
  generateEntropySeed (password_of "xfhvdgd") = 0.9999%float /\
  (generateEntropySeed (password_of "xfhvdgd") <? 0.9999)%float = false.
Proof. repeat split; vm_compute; reflexivity. Qed.

(** C6: from a seed in [0.0001, 0.9999] the generator yields [n]
    values, each a byte, and they are the values of the document's
    stream: [x = seed], [y = tent(seed)], 100 updates of both maps,
    then [n] updates each followed by
    [floor(((x + y) / 2) * 256) & 0xFF]. *)
Theorem entropyStream_chaos_stream (seed : float) (n : Z) :
  (0.0001 <=? seed)%float = true -> (seed <=? 0.9999)%float = true -> 0 <= n ->
  len (entropyStream seed n) = n /\
  is_bytes (entropyStream seed n) /\
  entropyStream seed n = chaos_stream seed (Z.to_nat n).
Proof.
  intros Hlo Hhi Hn.
  destruct (entropyStream_unit seed n Hlo Hhi) as [Hb He].
  split; [|split].
  - unfold len. rewrite entropyStream_length. lia.
  - now apply is_bytes_all_bytes.
  - exact He.
Qed.

Lemma entropyStream_chaos_stream_witness :
  (0.0001 <=? 0.25)%float = true /\ (0.25 <=? 0.9999)%float = true /\ 0 <= 5 /\
  len (entropyStream 0.25 5) = 5 /\
  is_bytes (entropyStream 0.25 5) /\
  entropyStream 0.25 5 = chaos_stream 0.25 (Z.to_nat 5).
Proof.
  split; [reflexivity|]. split; [reflexivity|]. split; [lia|].
  apply entropyStream_chaos_stream; [reflexivity | reflexivity | lia].
Defined.

(** ** Hexadecimal rendering of a byte *)

Lemma in_bytes_0_255 (b : Z) : 0 <= b < 256 -> In b bytes_0_255.
Proof.
  intro H. unfold bytes_0_255. apply in_map_iff. exists (Z.to_nat b).
  split; [lia | apply in_seq; lia].
Qed.

Lemma hex2_table :
  forallb (fun b => String.eqb (hex2 b) (hex_byte b)
                    && string_forallb is_lower_hex (hex_byte b)) bytes_0_255 = true.
Proof. vm_compute. reflexivity. Qed.

(** [b.toString(16).padStart(2, '0')] of a byte is its two lowercase
    hexadecimal digits. *)
Lemma hex2_byte (b : Z) :
  0 <= b < 256 ->
  hex2 b = hex_byte b /\ string_forallb is_lower_hex (hex_byte b) = true.
Proof.
  intro H. pose proof hex2_table as T. rewrite forallb_forall in T.
  specialize (T b (in_bytes_0_255 b H)). apply andb_true_iff in T.
  destruct T as [T1 T2]. apply String.eqb_eq in T1. now split.
Qed.

Lemma append_nil_r (s : string) : (s ++ EmptyString)%string = s.
Proof. induction s as [|c s IH]; cbn; [reflexivity | now rewrite IH]. Qed.

Lemma concat_cons (x : string) (l : list string) :
  String.concat EmptyString (x :: l) = (x ++ String.concat EmptyString l)%string.
Proof. destruct l; cbn [String.concat]; [now rewrite append_nil_r | reflexivity]. Qed.

Lemma string_forallb_app (p : ascii -> bool) (s t : string) :
  string_forallb p (s ++ t) = string_forallb p s && string_forallb p t.
Proof. induction s as [|c s IH]; cbn; [reflexivity | now rewrite IH, andb_assoc]. Qed.

Lemma length_append (s t : string) :
  String.length (s ++ t) = (String.length s + String.length t)%nat.
Proof. induction s as [|c s IH]; cbn; [reflexivity | now rewrite IH]. Qed.

Lemma hex_join_bytes (values : list Z) :
  all_bytes values ->
  hex_join values = String.concat EmptyString (map hex_byte values) /\
  String.length (hex_join values) = (2 * List.length values)%nat /\
  string_forallb is_lower_hex (hex_join values) = true.
Proof.
  unfold hex_join. induction 1 as [|b values Hb _ (IH1 & IH2 & IH3)].
  - repeat split.
  - cbn [map]. rewrite !concat_cons. destruct (hex2_byte b Hb) as [E L].
    rewrite E, IH1 in *. split; [reflexivity|]. split.
    + rewrite length_append, IH2. cbn [List.length hex_byte String.length]. lia.
    + now rewrite string_forallb_app, L, IH3.
Qed.

Lemma fold_left_push (l : list Z) :
  forall acc, fold_left (fun acc byte => acc ++ [byte]) l acc = acc ++ l.
Proof.
  induction l as [|b l IH]; intro acc; cbn [fold_left]; [now rewrite app_nil_r|].
  now rewrite IH, <- app_assoc.
Qed.

(** C8: the fingerprint of every password is 64 lowercase hexadecimal
    characters: the 32 values of a fresh stream (each of them a
    byte), two characters each, in stream order. *)
Theorem generateEntropyFingerprint_hex (password : list Z) :
  let stream := entropyStream (generateEntropySeed password) 32 in
  stream = chaos_stream (generateEntropySeed password) 32 /\
  List.length stream = 32%nat /\ is_bytes stream /\
  generateEntropyFingerprint password = String.concat EmptyString (map hex_byte stream) /\
  String.length (generateEntropyFingerprint password) = 64%nat /\
  string_forallb is_lower_hex (generateEntropyFingerprint password) = true.
Proof.
  intro stream.
  destruct (generateEntropySeed_spec password) as (Ns & Vs & _). cbv zeta in *.
  assert (Nlo : nnf 0.0001) by by_eval. assert (Nhi : nnf 0.9999) by by_eval.
  destruct (entropyStream_unit (generateEntropySeed password) 32) as [Hb He].
  { rewrite leb_val by assumption. apply Z.leb_le. lia. }
  { rewrite leb_val by assumption. apply Z.leb_le. lia. }
  fold stream in Hb, He.
  assert (Hlen : List.length stream = 32%nat)
    by (unfold stream; now rewrite entropyStream_length).
  destruct (hex_join_bytes stream Hb) as (J1 & J2 & J3).
  unfold generateEntropyFingerprint. cbv zeta. fold stream.
  rewrite fold_left_push. cbn [app].
  split; [exact He|]. split; [exact Hlen|]. split; [now apply is_bytes_all_bytes|].
  split; [exact J1|]. split; [|exact J3].
  rewrite J2, Hlen. reflexivity.
Qed.

End SeedStreamFingerprint.

(** * Further properties of the run-length codec *)

Section Codec.

Lemma no_marker_cons (b : Z) (a : list Z) :
  no_marker (b :: a) = true -> b <> 254 /\ no_marker a = true.
Proof.
  unfold no_marker. cbn [forallb]. rewrite andb_true_iff, negb_true_iff, Z.eqb_neq.
  tauto.
Qed.

Lemma decompress_loop_no_marker (a : list Z) :
  no_marker a = true -> decompress_loop a [] = a.
Proof.
  induction a as [|b a IH]; intro H; [reflexivity|].
  apply no_marker_cons in H. destruct H as [Hb Ha].
  rewrite decompress_literal by assumption. now rewrite IH.
Qed.

Lemma push_raw_no_marker (a : list Z) :
  no_marker a = true -> push_raw [] a = a.
Proof.
  induction a as [|b a IH]; intro H; [reflexivity|].
  apply no_marker_cons in H. destruct H as [Hb Ha].
  rewrite push_raw_cons, IH by assumption.
  apply Z.eqb_neq in Hb. now rewrite Hb.
Qed.

Lemma no_run3_tail (x : Z) (a : list Z) : no_run3 (x :: a) = true -> no_run3 a = true.
Proof.
  destruct a as [|y [|z a]]; [reflexivity | reflexivity |].
  cbn [no_run3]. rewrite andb_true_iff. tauto.
Qed.

(** Without three equal neighbours, the measured run is 1 or 2. *)
Lemma scan_run_short (v : Z) (tl : list Z) :
  no_run3 (v :: tl) = true -> scan_run v tl 1 < 3.
Proof.
  intro H. destruct tl as [|b tl]; cbn [scan_run]; [lia|].
  destruct (Z.eqb_spec v b) as [->|_]; cbn [andb]; [|lia].
  change (1 <? 255) with true. cbv iota. change (1 + 1) with 2.
  destruct tl as [|c tl]; cbn [scan_run]; [lia|].
  cbn [no_run3] in H. rewrite Z.eqb_refl in H. cbn [andb] in H.
  destruct (b =? c); [discriminate H | cbn [andb]; lia].
Qed.

Lemma no_marker_split (n : nat) (a : list Z) :
  no_marker a = true -> no_marker (firstn n a) = true /\ no_marker (skipn n a) = true.
Proof.
  intro H. unfold no_marker in *. apply andb_true_iff.
  rewrite <- forallb_app. now rewrite firstn_skipn.
Qed.

Lemma no_run3_skipn (n : nat) :
  forall a, no_run3 a = true -> no_run3 (skipn n a) = true.
Proof.
  induction n as [|n IH]; intros a H; [exact H|].
  destruct a as [|x a]; [reflexivity|]. cbn [skipn]. apply IH.
  now apply no_run3_tail in H.
Qed.

Lemma compress_loop_incompressible (fuel : nat) :
  forall rest,
    (List.length rest <= fuel)%nat ->
    no_marker rest = true -> no_run3 rest = true ->
    compress_loop fuel rest [] = rest.
Proof.
  induction fuel as [|fuel IH]; intros rest Hlen Hm Hr.
  - destruct rest; [reflexivity | cbn in Hlen; lia].
  - destruct rest as [|v tl]; [reflexivity|].
    rewrite compress_loop_turn. cbv zeta.
    destruct (scan_run_head v tl) as (Hs & Hn & _). cbv zeta in Hn.
    pose proof (scan_run_short v tl Hr) as Hlt.
    destruct (Z.leb_spec 3 (scan_run v tl 1)) as [|_]; [lia|].
    destruct (no_marker_split (Z.to_nat (scan_run v tl 1)) (v :: tl) Hm) as [Hm1 Hm2].
    rewrite push_raw_no_marker by assumption.
    rewrite IH.
    + apply firstn_skipn.
    + rewrite length_skipn. cbn [List.length] in *. lia.
    + assumption.
    + now apply no_run3_skipn.
Qed.

(** A token of the input stands for at most 255 bytes, a literal for
    one. *)
Lemma decompress_loop_length (rest : list Z) :
  all_bytes rest ->
  (List.length (decompress_loop rest []) <= 85 * List.length rest)%nat.
Proof.
  induction rest as [rest IH] using (induction_ltof1 _ (@List.length Z)).
  unfold ltof in IH. intro Hb.
  destruct rest as [|b tl]; [cbn; lia|].
  assert (Htl : all_bytes tl) by now inversion Hb.
  rewrite decompress_loop_cons.
  destruct tl as [|l [|v tl']].
  - cbn. lia.
  - rewrite decompress_loop_app, length_app.
    specialize (IH [l] ltac:(cbn; lia) Htl). cbn [List.length app] in *. lia.
  - destruct (b =? 254).
    + cbn [app]. rewrite decompress_loop_app, length_app, repeat_length.
      assert (Hl : 0 <= l < 256) by (now inversion Htl).
      assert (Htl' : all_bytes tl') by (inversion Htl as [|? ? ? H2]; now inversion H2).
      specialize (IH tl' ltac:(cbn; lia) Htl'). cbn [List.length app] in *. lia.
    + rewrite decompress_loop_app, length_app.
      specialize (IH (l :: v :: tl') ltac:(cbn; lia) Htl). cbn [List.length app] in *. lia.
Qed.

Lemma decompress_loop_bytes (rest : list Z) :
  all_bytes rest -> all_bytes (decompress_loop rest []).
Proof.
  induction rest as [rest IH] using (induction_ltof1 _ (@List.length Z)).
  unfold ltof in IH. intro Hb.
  destruct rest as [|b tl]; [constructor|].
  assert (Hb0 : 0 <= b < 256) by now inversion Hb.
  assert (Htl : all_bytes tl) by now inversion Hb.
  rewrite decompress_loop_cons.
  destruct tl as [|l [|v tl']].
  - cbn. now repeat constructor.
  - rewrite decompress_loop_app. apply Forall_app. split; [now repeat constructor|].
    apply IH; [cbn; lia | assumption].
  - assert (Hv : 0 <= v < 256) by (inversion Htl as [|? ? ? H2]; now inversion H2).
    assert (Htl' : all_bytes tl') by (inversion Htl as [|? ? ? H2]; now inversion H2).
    destruct (b =? 254).
    + rewrite decompress_loop_app. apply Forall_app. split.
      * cbn [app]. apply Forall_forall. intros x Hx. apply repeat_spec in Hx. now subst x.
      * apply IH; [cbn; lia | assumption].
    + rewrite decompress_loop_app. apply Forall_app. split; [now repeat constructor|].
      apply IH; [cbn; lia | assumption].
Qed.

End Codec.

(** X1: an array without the marker byte 0xFE is decompressed to
    itself: [quantumDecompress] only ever rewrites at a marker. *)
Theorem quantumDecompress_no_marker (data : Uint8Array) :
  is_bytes data -> no_marker data = true -> quantumDecompress data = data.
Proof.
  intros Hb Hm. apply is_bytes_all_bytes in Hb. unfold quantumDecompress.
  rewrite decompress_loop_no_marker by assumption. now apply Uint8Array_from_bytes.
Qed.

Lemma quantumDecompress_no_marker_witness :
  is_bytes [1; 2; 2; 2; 2; 253; 255] /\ no_marker [1; 2; 2; 2; 2; 253; 255] = true /\
  quantumDecompress [1; 2; 2; 2; 2; 253; 255] = [1; 2; 2; 2; 2; 253; 255].
Proof.
  split; [reflexivity|]. split; [reflexivity|].
  apply quantumDecompress_no_marker; reflexivity.
Defined.

(** X2: an array without the marker byte and without three equal
    neighbours is compressed to itself: it is stored raw, byte for
    byte, and does not grow. *)
Theorem quantumCompress_incompressible (data : Uint8Array) :
  is_bytes data -> no_marker data = true -> no_run3 data = true ->
  quantumCompress data = data.
Proof.
  intros Hb Hm Hr. apply is_bytes_all_bytes in Hb.
  rewrite quantumCompress_loop by assumption.
  now apply compress_loop_incompressible.
Qed.

Lemma quantumCompress_incompressible_witness :
  is_bytes [7; 7; 1; 1; 0; 255; 255; 7] /\ no_marker [7; 7; 1; 1; 0; 255; 255; 7] = true /\
  no_run3 [7; 7; 1; 1; 0; 255; 255; 7] = true /\
  quantumCompress [7; 7; 1; 1; 0; 255; 255; 7] = [7; 7; 1; 1; 0; 255; 255; 7].
Proof.
  split; [reflexivity|]. split; [reflexivity|]. split; [reflexivity|].
  apply quantumCompress_incompressible; reflexivity.
Defined.

(** X3: an array of at most two bytes is decompressed to itself, the
    marker byte included: a marker that is not followed by two more
    bytes is copied as a literal. *)
Theorem quantumDecompress_short (data : Uint8Array) :
  is_bytes data -> len data <= 2 -> quantumDecompress data = data.
Proof.
  intros Hb Hlen. apply is_bytes_all_bytes in Hb.
  unfold quantumDecompress.
  destruct data as [|a [|b [|c data]]]; cbn [decompress_loop app].
  - reflexivity.
  - now apply Uint8Array_from_bytes.
  - now apply Uint8Array_from_bytes.
  - unfold len in Hlen. cbn [List.length] in Hlen. lia.
Qed.

Lemma quantumDecompress_short_witness :
  is_bytes [254; 9] /\ len [254; 9] <= 2 /\ quantumDecompress [254; 9] = [254; 9].
Proof.
  split; [reflexivity|]. split; [unfold len; cbn; lia|].
  apply quantumDecompress_short; [reflexivity | unfold len; cbn; lia].
Defined.

(** X4: decompression expands an array at most 85 times: three bytes
    of input stand for at most 255 bytes of output. *)
Theorem quantumDecompress_length (data : Uint8Array) :
  is_bytes data -> len (quantumDecompress data) <= 85 * len data.
Proof.
  intro Hb. apply is_bytes_all_bytes in Hb.
  unfold quantumDecompress, Uint8Array_from, len. rewrite length_map.
  pose proof (decompress_loop_length data Hb). lia.
Qed.

(** The bound is reached by a token of length 255. *)
Example quantumDecompress_token_255 :
  len (quantumDecompress [254; 255; 0]) = 85 * len [254; 255; 0].
Proof. reflexivity. Qed.

Lemma quantumDecompress_length_witness :
  is_bytes [254; 255; 0] /\
  len (quantumDecompress [254; 255; 0]) <= 85 * len [254; 255; 0].
Proof.
  split; [reflexivity | apply quantumDecompress_length; reflexivity].
Defined.

(** X5: a constant array of [n] bytes is compressed to one token of
    three bytes for each 255 bytes, and at most six bytes more (two
    escaped markers) for what is left. *)
Theorem quantumCompress_constant (v : Z) (n : nat) :
  len (quantumCompress (repeat v n)) <= 3 * ((Z.of_nat n + 254) / 255) + 3.
Proof.
  unfold quantumCompress, Uint8Array_from, len. rewrite length_map, repeat_length.
  apply compress_loop_repeat.
Qed.

(** * Further properties of the maps, the seed and the stream *)

Section Maps.
Import Rounding FloatBounds Chaos.

(** A double of [0, 1] is a zero or a positive finite number. *)
Lemma unit_nnf (x : float) :
  (0 <=? x)%float = true -> (x <=? 1)%float = true -> nnf x /\ val x <= val 1.
Proof.
  intros H0 H1.
  assert (Nx : nnf x).
  { rewrite leb_spec in H0. rewrite leb_spec in H1. unfold SFleb, nnf in *.
    replace (Prim2SF 0) with (S754_zero false) in H0 by (vm_compute; reflexivity).
    destruct (Prim2SF x) as [s|[|]| |[|] m e]; cbn in H0 |- *; try reflexivity; try discriminate H0.
    cbn in H1. discriminate. }
  split; [exact Nx|].
  assert (N1 : nnf 1) by by_eval.
  rewrite leb_val in H1 by assumption. now apply Z.leb_le.
Qed.

Lemma nnf_leb_0 (x : float) : nnf x -> (0 <=? x)%float = true.
Proof.
  intro Nx. assert (N0 : nnf 0) by by_eval.
  rewrite leb_val by assumption. apply Z.leb_le.
  assert (V0 : val 0 = 0) by by_eval. rewrite V0. now apply val_nonneg.
Qed.

(** The quotient [|hash| / 2147483647] against the two bounds of the
    clamp, by the integer [|hash|]. *)
Lemma normalized_thresholds (a : Z) :
  0 <= a <= 2147483648 ->
  let n := (JS.of_int a / 2147483647)%float in
  nnf n /\
  (a <= 214748 -> val n <= val 0.0001) /\
  (214749 <= a -> val 0.0001 < val n) /\
  (a <= 2147268898 -> val n < val 0.9999) /\
  (2147268899 <= a -> val 0.9999 < val n).
Proof.
  intros Ha n.
  destruct (normalized_spec a Ha) as [Nn _]. fold n in Nn.
  destruct (of_int_val a) as [Na Va];
    [split; [lia | apply Z.le_lt_trans with 2147483648; [lia | reflexivity]]|].
  assert (Ny : nnf 2147483647) by by_eval.
  assert (Vy : val 2147483647 = 2147483647 * 2 ^ 1074) by by_eval.
  assert (Py : 0 < val 2147483647) by lt_eval.
  pose proof (pow2_pos 1074 ltac:(lia)) as HP.
  split; [exact Nn|]. split; [|split; [|split]]; intro Hc.
  - assert (NB : nnf 0.0001) by by_eval. assert (PB : 0 < val 0.0001) by lt_eval.
    assert (C : 214748 * 2 ^ 1074 <= val 0.0001 * 2147483647) by le_eval.
    apply (div_upper _ _ 0.0001 Na Ny NB Py PB). rewrite Va, Vy.
    generalize dependent (2 ^ 1074). intros P. intros.
    generalize dependent (val 0.0001). intros. nia.
  - assert (NB : nnf (next_up 0.0001)) by by_eval.
    assert (PB : 0 < val (next_up 0.0001)) by lt_eval.
    assert (C : val (next_up 0.0001) * 2147483647 <= 214749 * 2 ^ 1074) by le_eval.
    assert (L : val 0.0001 < val (next_up 0.0001)) by lt_eval.
    apply Z.lt_le_trans with (val (next_up 0.0001)); [exact L|].
    apply (div_lower _ _ (next_up 0.0001) Na Ny NB Py PB Nn). rewrite Va, Vy.
    generalize dependent (2 ^ 1074). intros P. intros.
    generalize dependent (val (next_up 0.0001)). intros. nia.
  - assert (NB : nnf (next_down 0.9999)) by by_eval.
    assert (PB : 0 < val (next_down 0.9999)) by lt_eval.
    assert (C : 2147268898 * 2 ^ 1074 <= val (next_down 0.9999) * 2147483647) by le_eval.
    assert (L : val (next_down 0.9999) < val 0.9999) by lt_eval.
    apply Z.le_lt_trans with (val (next_down 0.9999)); [|exact L].
    apply (div_upper _ _ (next_down 0.9999) Na Ny NB Py PB). rewrite Va, Vy.
    generalize dependent (2 ^ 1074). intros P. intros.
    generalize dependent (val (next_down 0.9999)). intros. nia.
  - assert (NB : nnf (next_up 0.9999)) by by_eval.
    assert (PB : 0 < val (next_up 0.9999)) by lt_eval.
    assert (C : val (next_up 0.9999) * 2147483647 <= 2147268899 * 2 ^ 1074) by le_eval.
    assert (L : val 0.9999 < val (next_up 0.9999)) by lt_eval.
    apply Z.lt_le_trans with (val (next_up 0.9999)); [exact L|].
    apply (div_lower _ _ (next_up 0.9999) Na Ny NB Py PB Nn). rewrite Va, Vy.
    generalize dependent (2 ^ 1074). intros P. intros.
    generalize dependent (val (next_up 0.9999)). intros. nia.
Qed.

(** The clamp, by the position of [n] against its two bounds. *)
Lemma clamp_cases (n : float) :
  nnf n ->
  (val n <= val 0.0001 -> JS.Math_max 0.0001 (JS.Math_min 0.9999 n) = 0.0001%float) /\
  (val 0.9999 < val n -> JS.Math_max 0.0001 (JS.Math_min 0.9999 n) = 0.9999%float) /\
  (val 0.0001 < val n -> val n < val 0.9999 ->
   JS.Math_max 0.0001 (JS.Math_min 0.9999 n) = n).
Proof.
  intro Nn.
  assert (Nlo : nnf 0.0001) by by_eval. assert (Nhi : nnf 0.9999) by by_eval.
  assert (L : val 0.0001 < val 0.9999) by lt_eval.
  assert (Em : forall b, nnf b ->
            JS.Math_min 0.9999 b =
            if val 0.9999 <? val b then 0.9999%float
            else if val b <? val 0.9999 then b
            else if get_sign 0.9999 then 0.9999%float else b).
  { intros b Nb. unfold JS.Math_min.
    rewrite (is_nan_nnf _ Nhi), (is_nan_nnf _ Nb). cbn [orb].
    now rewrite !ltb_val by assumption. }
  assert (EM : forall b, nnf b ->
            JS.Math_max 0.0001 b =
            if val b <? val 0.0001 then 0.0001%float
            else if val 0.0001 <? val b then b
            else if get_sign 0.0001 then b else 0.0001%float).
  { intros b Nb. unfold JS.Math_max.
    rewrite (is_nan_nnf _ Nlo), (is_nan_nnf _ Nb). cbn [orb].
    now rewrite !ltb_val by assumption. }
  assert (S1 : get_sign 0.0001 = false) by by_eval.
  split; [|split].
  - intro H. rewrite (Em n Nn).
    destruct (Z.ltb_spec (val 0.9999) (val n)); [lia|].
    destruct (Z.ltb_spec (val n) (val 0.9999)); [|lia].
    rewrite (EM n Nn), S1.
    destruct (Z.ltb_spec (val n) (val 0.0001)); [reflexivity|].
    destruct (Z.ltb_spec (val 0.0001) (val n)); [lia | reflexivity].
  - intro H. rewrite (Em n Nn).
    destruct (Z.ltb_spec (val 0.9999) (val n)); [|lia].
    rewrite (EM _ Nhi).
    destruct (Z.ltb_spec (val 0.9999) (val 0.0001)); [lia|].
    destruct (Z.ltb_spec (val 0.0001) (val 0.9999)); [reflexivity | lia].
  - intros H1 H2. rewrite (Em n Nn).
    destruct (Z.ltb_spec (val 0.9999) (val n)); [lia|].
    destruct (Z.ltb_spec (val n) (val 0.9999)); [|lia].
    rewrite (EM n Nn).
    destruct (Z.ltb_spec (val n) (val 0.0001)); [lia|].
    destruct (Z.ltb_spec (val 0.0001) (val n)); [reflexivity | lia].
Qed.

Lemma generateEntropySeed_cases (password : list Z) :
  let a := Z.abs (seed_hash password) in
  generateEntropySeed password =
  if a <=? 214748 then 0.0001%float
  else if 2147268899 <=? a then 0.9999%float
  else (JS.of_int a / 2147483647)%float.
Proof.
  intro a. pose proof (seed_hash_range password) as Hh.
  destruct (normalized_thresholds a) as (Nn & T1 & T2 & T3 & T4); [subst a; lia|].
  cbv zeta in *.
  destruct (clamp_cases _ Nn) as (C1 & C2 & C3).
  unfold generateEntropySeed, JS.Math_abs. cbv zeta. fold a.
  destruct (Z.leb_spec a 214748) as [H1|H1]; [apply C1; now apply T1|].
  destruct (Z.leb_spec 2147268899 a) as [H2|H2]; [apply C2; now apply T4|].
  apply C3; [apply T2 | apply T3]; lia.
Qed.


(** ** Short passwords *)

Lemma lxor_below (a b n : Z) :
  0 <= n -> 0 <= a < 2 ^ n -> 0 <= b < 2 ^ n -> 0 <= Z.lxor a b < 2 ^ n.
Proof.
  intros Hn Ha Hb.
  rewrite <- (Z.mod_small a (2 ^ n)), <- (Z.mod_small b (2 ^ n)) by assumption.
  rewrite <- JSFacts.lxor_mod_pow2 by assumption.
  apply Z.mod_pos_bound. now apply pow2_pos.
Qed.

(** A turn of the hash loop on small values: no wrap-around, and the
    shifted copy is 0 or 1. *)
Lemma seed_step_small (h c : Z) :
  0 <= 31 * h + c < 131072 ->
  0 <= seed_step h c < 131072 /\
  (31 * h + c < 65536 -> seed_step h c = 31 * h + c).
Proof.
  intro H. rewrite seed_step_rolling. unfold rolling_step, shift_logical. cbv zeta.
  assert (W : forall z, 0 <= z < 2147483648 -> wrap32 z = z).
  { intros z Hz. unfold wrap32. cbv zeta. rewrite Z.mod_small by lia.
    destruct (Z.ltb_spec z 2147483648); lia. }
  replace (h * 32 - h + c) with (31 * h + c) by lia.
  rewrite (W (31 * h + c)) by lia.
  rewrite (Z.mod_small (31 * h + c)) by lia.
  change (2 ^ 16) with 65536.
  assert (Hq : 0 <= (31 * h + c) / 65536 < 2) by (Z.div_mod_to_equations; lia).
  destruct (lxor_below (31 * h + c) ((31 * h + c) / 65536) 17) as [L0 L1];
    [lia | change (2 ^ 17) with 131072; lia | change (2 ^ 17) with 131072; lia |].
  change (2 ^ 17) with 131072 in L1.
  rewrite W by lia. split; [lia|].
  intro Hs. rewrite Z.div_small by lia. apply Z.lxor_0_r.
Qed.

Lemma ascii_codes_cons (c : Z) (password : list Z) :
  ascii_codes (c :: password) = true -> 0 <= c < 128 /\ ascii_codes password = true.
Proof.
  unfold ascii_codes. cbn [forallb]. rewrite !andb_true_iff, Z.leb_le, Z.ltb_lt. tauto.
Qed.

Lemma seed_hash_short (password : list Z) :
  (List.length password <= 3)%nat -> ascii_codes password = true ->
  0 <= seed_hash password < 131072.
Proof.
  intros Hlen Ha. unfold seed_hash.
  destruct password as [|a password]; [cbn [fold_left]; lia|].
  apply ascii_codes_cons in Ha. destruct Ha as [Ca Ha]. cbn [fold_left].
  destruct (seed_step_small 0 a ltac:(lia)) as [_ E1]. rewrite E1 by lia.
  replace (31 * 0 + a) with a by lia.
  destruct password as [|b password]; [cbn [fold_left]; lia|].
  apply ascii_codes_cons in Ha. destruct Ha as [Cb Ha]. cbn [fold_left].
  destruct (seed_step_small a b ltac:(lia)) as [_ E2]. rewrite E2 by lia.
  destruct password as [|c password]; [cbn [fold_left]; lia|].
  apply ascii_codes_cons in Ha. destruct Ha as [Cc Ha]. cbn [fold_left].
  destruct (seed_step_small (31 * a + b) c ltac:(lia)) as [B3 _].
  destruct password as [|d password]; [cbn [fold_left]; lia|].
  cbn [List.length] in Hlen. lia.
Qed.

Lemma seed_short_ascii (password : list Z) :
  (List.length password <= 3)%nat -> ascii_codes password = true ->
  generateEntropySeed password = 0.0001%float.
Proof.
  intros Hlen Ha. pose proof (seed_hash_short password Hlen Ha) as Hh.
  rewrite generateEntropySeed_cases. cbv zeta.
  destruct (Z.leb_spec (Z.abs (seed_hash password)) 214748); [reflexivity | lia].
Qed.

(** ** The stream *)

Lemma yield_loop_firstn (n : nat) :
  forall (m : nat) (x y : float),
    (n <= m)%nat -> firstn n (yield_loop m x y) = yield_loop n x y.
Proof.
  induction n as [|n IH]; intros m x y H; [reflexivity|].
  destruct m as [|m]; [lia|].
  cbn [yield_loop firstn]. cbv zeta. f_equal. apply IH. lia.
Qed.

Lemma entropyStream_firstn (seed : float) (n m : Z) :
  n <= m -> firstn (Z.to_nat n) (entropyStream seed m) = entropyStream seed n.
Proof.
  intro H. unfold entropyStream. cbv zeta.
  destruct (burn_in 100 seed (tentMap seed)) as [x y].
  apply yield_loop_firstn. lia.
Qed.

(** ** The state of [quantumHash] *)

Lemma set_nth_length (a : list Z) :
  forall i v, List.length (set_nth a i v) = List.length a.
Proof.
  induction a as [|x a IH]; intros i v; [reflexivity|].
  destruct i; cbn [set_nth List.length]; [reflexivity | now rewrite IH].
Qed.

Lemma set_nth_bytes (a : list Z) :
  forall i v, all_bytes a -> 0 <= v < 256 -> all_bytes (set_nth a i v).
Proof.
  induction a as [|x a IH]; intros i v Ha Hv; [constructor|].
  inversion Ha; subst.
  destruct i; cbn [set_nth]; constructor; try assumption. now apply IH.
Qed.

(** [hash_state h]: 32 bytes. *)
Lemma aset_state (h : Uint8Array) (i v : Z) :
  List.length h = 32%nat /\ all_bytes h ->
  List.length (aset h i v) = 32%nat /\ all_bytes (aset h i v).
Proof.
  intros [Hl Hb]. unfold aset. destruct (i <? 0); [now split|].
  split; [now rewrite set_nth_length|].
  apply set_nth_bytes; [assumption|]. unfold u8. apply Z.mod_pos_bound. lia.
Qed.

Lemma for_loop_invariant {S : Type} (P : S -> Prop) (n : nat) (body : Z -> S -> S) (s : S) :
  (forall i s, P s -> P (body i s)) -> P s -> P (for_loop n body s).
Proof.
  intros Hbody. unfold for_loop. generalize (seq 0 n). intro l. revert s.
  induction l as [|i l IH]; intros s Hs; [exact Hs|].
  cbn [fold_left]. apply IH. now apply Hbody.
Qed.

Lemma quantumHash_bytes_state (data : Uint8Array) (password : list Z) :
  List.length (quantumHash_bytes data password) = 32%nat /\
  all_bytes (quantumHash_bytes data password).
Proof.
  unfold quantumHash_bytes. cbv zeta.
  set (P := fun h : Uint8Array => List.length h = 32%nat /\ all_bytes h).
  assert (Hinit : forall stream hash idx,
            P hash ->
            P (fst (fold_left (fun '(hash, idx) byte => (aset hash idx byte, idx + 1))
                      stream (hash, idx)))).
  { induction stream as [|b stream IH]; intros hash idx Hh; [exact Hh|].
    cbn [fold_left]. apply IH. now apply aset_state. }
  specialize (Hinit (entropyStream (generateEntropySeed password) 32) (repeat 0 32) 0).
  destruct (fold_left _ _ _) as [hash idx]. cbn [fst] in Hinit.
  apply (for_loop_invariant P).
  - intros _ h Hh. unfold final_round. apply (for_loop_invariant P); [|exact Hh].
    intros j h' Hh'. now repeat apply aset_state.
  - apply (for_loop_invariant P).
    + intros i h Hh. unfold mix_byte. cbv zeta.
      destruct (i mod 32 =? 31).
      * unfold diffuse. apply (for_loop_invariant P).
        -- intros j h' Hh'. now apply aset_state.
        -- now apply aset_state.
      * now apply aset_state.
    + apply Hinit. split; [reflexivity|].
      apply Forall_forall. intros x Hx. apply repeat_spec in Hx. subst x. lia.
Qed.

(** ** Reading the fingerprint back *)

Lemma unhex_table :
  forallb (fun b => match unhex (hex_byte b) with [b'] => b' =? b | _ => false end)
    bytes_0_255 = true.
Proof. vm_compute. reflexivity. Qed.

Lemma unhex_hex_byte (b : Z) (s : string) :
  0 <= b < 256 -> unhex (hex_byte b ++ s) = b :: unhex s.
Proof.
  intro H. pose proof unhex_table as T. rewrite forallb_forall in T.
  specialize (T b (in_bytes_0_255 b H)).
  unfold hex_byte in *. cbn [append unhex] in *.
  apply Z.eqb_eq in T. now rewrite T.
Qed.

Lemma unhex_hex_join (values : list Z) :
  all_bytes values -> unhex (hex_join values) = values.
Proof.
  intro H. destruct (hex_join_bytes values H) as [E _]. rewrite E. clear E.
  induction H as [|b values Hb _ IH]; [reflexivity|].
  cbn [map]. rewrite concat_cons, unhex_hex_byte by assumption. now rewrite IH.
Qed.

(** * The further properties *)

(** X6: in binary64 arithmetic, [logisticMap] maps the doubles of
    [0, 1] into [0, 1]: the rounding of the two products never takes
    the value above 1 (or below 0). *)
Theorem logisticMap_unit_interval (x : float) :
  (0 <=? x)%float = true -> (x <=? 1)%float = true ->
  (0 <=? logisticMap x)%float = true /\ (logisticMap x <=? 1)%float = true.
Proof.
  intros H0 H1. destruct (unit_nnf x H0 H1) as [Nx Vx].
  destruct (logisticMap_unit x Nx Vx) as [Nl Vl].
  assert (N1 : nnf 1) by by_eval.
  split; [now apply nnf_leb_0|].
  rewrite leb_val by assumption. now apply Z.leb_le.
Qed.

Lemma logisticMap_unit_interval_witness :
  (0 <=? 0.5)%float = true /\ (0.5 <=? 1)%float = true /\
  (0 <=? logisticMap 0.5)%float = true /\ (logisticMap 0.5 <=? 1)%float = true.
Proof.
  split; [reflexivity|]. split; [reflexivity|].
  apply logisticMap_unit_interval; reflexivity.
Defined.

(** X7: in binary64 arithmetic, [tentMap] maps the doubles of [0, 1]
    into [0, 0.995], the value it takes at 0.5. *)
Theorem tentMap_unit_interval (x : float) :
  (0 <=? x)%float = true -> (x <=? 1)%float = true ->
  (0 <=? tentMap x)%float = true /\ (tentMap x <=? 0.995)%float = true.
Proof.
  intros H0 H1. destruct (unit_nnf x H0 H1) as [Ny Vy].
  pose proof (val_nonneg x Ny) as Y0.
  assert (N199 : nnf 1.99) by by_eval. assert (N05 : nnf 0.5) by by_eval.
  assert (N1 : nnf 1) by by_eval. assert (NB : nnf 0.995) by by_eval.
  assert (PB : 0 < val 0.995) by lt_eval. assert (P05 : 0 < val 0.5) by lt_eval.
  assert (C : val 1.99 * val 0.5 <= val 0.995 * 2 ^ 1074) by le_eval.
  assert (E1 : val 1 = 2 * val 0.5) by by_eval.
  pose proof (val_nonneg 1.99 N199) as V199.
  assert (Ht : nnf (tentMap x) /\ val (tentMap x) <= val 0.995).
  { unfold tentMap. rewrite ltb_val by assumption.
    destruct (Z.ltb_spec (val x) (val 0.5)) as [Hlt|Hge].
    - apply mul_upper; try assumption.
      apply Z.le_trans with (val 1.99 * val 0.5); [|exact C].
      apply Z.mul_le_mono_nonneg_l; lia.
    - destruct (sub_upper 1 x 0.5 N1 Ny N05 P05) as [Nt Vt]; [lia | lia |].
      apply mul_upper; try assumption.
      apply Z.le_trans with (val 1.99 * val 0.5); [|exact C].
      apply Z.mul_le_mono_nonneg_l; lia. }
  destruct Ht as [Nt Vt].
  split; [now apply nnf_leb_0|].
  rewrite leb_val by assumption. now apply Z.leb_le.
Qed.

Lemma tentMap_unit_interval_witness :
  (0 <=? 0.5)%float = true /\ (0.5 <=? 1)%float = true /\
  (0 <=? tentMap 0.5)%float = true /\ (tentMap 0.5 <=? 0.995)%float = true.
Proof.
  split; [reflexivity|]. split; [reflexivity|].
  apply tentMap_unit_interval; reflexivity.
Defined.

(** X8: the clamp of the seed, by the integer hash alone: the seed is
    0.0001 exactly when [|hash| <= 214748], 0.9999 exactly when
    [|hash| >= 2147268899], and the rounded quotient
    [|hash| / 2147483647], strictly between the two, otherwise. *)
Theorem generateEntropySeed_thresholds (password : list Z) :
  let a := Z.abs (seed_hash password) in
  let n := (JS.of_int a / 2147483647)%float in
  generateEntropySeed password =
    (if a <=? 214748 then 0.0001%float
     else if 2147268899 <=? a then 0.9999%float else n) /\
  (214748 < a < 2147268899 -> (0.0001 <? n)%float = true /\ (n <? 0.9999)%float = true).
Proof.
  intros a n. split; [apply generateEntropySeed_cases|].
  intro H. pose proof (seed_hash_range password) as Hh.
  destruct (normalized_thresholds a) as (Nn & _ & T2 & T3 & _); [subst a; lia|].
  cbv zeta in *. fold n in Nn, T2, T3.
  assert (Nlo : nnf 0.0001) by by_eval. assert (Nhi : nnf 0.9999) by by_eval.
  rewrite !ltb_val by assumption. split; apply Z.ltb_lt; [apply T2 | apply T3]; lia.
Qed.

(** X9: every password of at most three ASCII characters has the
    seed 0.0001: its hash is below 131072, and the clamp lifts the
    quotient to its lower bound. *)
Theorem generateEntropySeed_short_ascii (password : list Z) :
  (List.length password <= 3)%nat -> ascii_codes password = true ->
  generateEntropySeed password = 0.0001%float.
Proof. apply seed_short_ascii. Qed.

Lemma generateEntropySeed_short_ascii_witness :
  (List.length (password_of "Zz9") <= 3)%nat /\ ascii_codes (password_of "Zz9") = true /\
  generateEntropySeed (password_of "Zz9") = 0.0001%float.
Proof.
  split; [cbn; lia|]. split; [reflexivity|].
  apply generateEntropySeed_short_ascii; [cbn; lia | reflexivity].
Defined.

(** X10: the stream of a shorter run is the beginning of the stream of
    a longer one, for every seed: the values do not depend on the
    number of iterations asked for. *)
Theorem entropyStream_prefix (seed : float) (n m : Z) :
  n <= m -> firstn (Z.to_nat n) (entropyStream seed m) = entropyStream seed n.
Proof. apply entropyStream_firstn. Qed.

Lemma entropyStream_prefix_witness :
  3 <= 10 /\ firstn (Z.to_nat 3) (entropyStream 0.3 10) = entropyStream 0.3 3.
Proof. split; [lia | apply entropyStream_prefix; lia]. Defined.

(** X11: the digest of every array under every password is 64
    lowercase hexadecimal characters: the state of [quantumHash] is
    32 bytes from the first store to the last. *)
Theorem quantumHash_hex (data : Uint8Array) (password : list Z) :
  String.length (quantumHash data password) = 64%nat /\
  string_forallb is_lower_hex (quantumHash data password) = true.
Proof.
  destruct (quantumHash_bytes_state data password) as [Hl Hb].
  destruct (hex_join_bytes _ Hb) as (_ & J2 & J3).
  unfold quantumHash. rewrite J2, Hl. now split.
Qed.

End Maps.

(** * Further properties of the container *)

(** ** The password enters through the magnitude of its hash *)

Lemma seed_of_hash (p1 p2 : list Z) :
  Z.abs (seed_hash p1) = Z.abs (seed_hash p2) ->
  generateEntropySeed p1 = generateEntropySeed p2.
Proof.
  intro H. unfold generateEntropySeed, JS.Math_abs. cbv zeta. now rewrite H.
Qed.

Lemma fingerprint_of_seed (p1 p2 : list Z) :
  generateEntropySeed p1 = generateEntropySeed p2 ->
  generateEntropyFingerprint p1 = generateEntropyFingerprint p2.
Proof.
  intro H. unfold generateEntropyFingerprint. cbv zeta. now rewrite H.
Qed.

Lemma quantumHash_of_seed (p1 p2 : list Z) (data : Uint8Array) :
  generateEntropySeed p1 = generateEntropySeed p2 ->
  quantumHash data p1 = quantumHash data p2.
Proof.
  intro H. unfold quantumHash, quantumHash_bytes. cbv zeta. now rewrite H.
Qed.

Lemma fingerprint_stream (password : list Z) :
  generateEntropyFingerprint password =
  hex_join (entropyStream (generateEntropySeed password) 32).
Proof.
  unfold generateEntropyFingerprint. cbv zeta. now rewrite fold_left_push.
Qed.

#[local] Opaque entropyStream generateEntropySeed quantumHash generateEntropyFingerprint.

Lemma quantumEncrypt_of_seed {W : Type} (p1 p2 : list Z) (data : Uint8Array)
    (onProgress : option (callback W)) (w : W) :
  generateEntropySeed p1 = generateEntropySeed p2 ->
  quantumEncrypt data p1 onProgress w = quantumEncrypt data p2 onProgress w.
Proof.
  intro H. unfold quantumEncrypt. cbv zeta.
  rewrite (fingerprint_of_seed p1 p2 H), H.
  destruct (encrypt_loop _ _ _ _ _ _ w) as [[e w']|e]; [|reflexivity].
  now rewrite (quantumHash_of_seed p1 p2 e H).
Qed.

Lemma quantumDecrypt_of_seed {W : Type} (p1 p2 : list Z) (container : Uint8Array)
    (fp digest : string) (onProgress : option (callback W)) (w : W) :
  generateEntropySeed p1 = generateEntropySeed p2 ->
  quantumDecrypt container p1 fp digest onProgress w =
  quantumDecrypt container p2 fp digest onProgress w.
Proof.
  intro H. unfold quantumDecrypt. cbv zeta.
  now rewrite (fingerprint_of_seed p1 p2 H), (quantumHash_of_seed p1 p2 container H), H.
Qed.

(** ** The keystream is made of bytes *)

Lemma seed_stream_bytes (password : list Z) (n : Z) :
  all_bytes (entropyStream (generateEntropySeed password) n).
Proof.
  destruct (Chaos.generateEntropySeed_spec password) as (Ns & Vs & _). cbv zeta in *.
  assert (Nlo : nnf 0.0001) by Chaos.by_eval. assert (Nhi : nnf 0.9999) by Chaos.by_eval.
  apply Chaos.entropyStream_unit.
  - rewrite FloatBounds.leb_val by assumption. apply Z.leb_le. lia.
  - rewrite FloatBounds.leb_val by assumption. apply Z.leb_le. lia.
Qed.

Lemma xor_bytes_lists (c k : list Z) :
  all_bytes c -> all_bytes k -> xor_bytes c k = xor_lists c k.
Proof.
  intro Hc. revert k. induction Hc as [|b c Hb _ IH]; intros k Hk; [reflexivity|].
  destruct Hk as [|x k Hx Hk]; [reflexivity|].
  unfold xor_bytes, xor_lists in *. cbn [combine map]. rewrite IH by assumption.
  f_equal. rewrite u8_xor. now rewrite !Z.mod_small by assumption.
Qed.

Lemma xor_bytes_bytes (c k : list Z) : all_bytes (xor_bytes c k).
Proof.
  unfold xor_bytes. apply Forall_forall. intros x Hx. apply in_map_iff in Hx.
  destruct Hx as ([a b] & <- & _). unfold u8. apply Z.mod_pos_bound. lia.
Qed.

Lemma Uint8Array_from_all_bytes (values : list Z) : all_bytes (Uint8Array_from values).
Proof.
  unfold Uint8Array_from. apply Forall_forall. intros x Hx. apply in_map_iff in Hx.
  destruct Hx as (a & <- & _). unfold u8. apply Z.mod_pos_bound. lia.
Qed.

(** Undoing the xor with a keystream that agrees with the one used
    on the bytes at hand. *)
Lemma xor_lists_cancel (c : list Z) :
  forall k k2 : list Z,
    all_bytes c ->
    (List.length c <= List.length k)%nat ->
    firstn (List.length c) k2 = firstn (List.length c) k ->
    (List.length c <= List.length k2)%nat ->
    xor_lists (xor_lists c k) k2 = c.
Proof.
  induction c as [|b c IH]; intros k k2 Hb Hk He Hk2; [reflexivity|].
  destruct k as [|x k]; [cbn in Hk; lia|]. destruct k2 as [|y k2]; [cbn in Hk2; lia|].
  cbn [List.length firstn] in *. injection He as -> He.
  inversion Hb; subst.
  unfold xor_lists in *. cbn [combine map]. rewrite IH; try assumption; try lia.
  f_equal. rewrite Z.lxor_assoc, Z.lxor_nilpotent. apply Z.lxor_0_r.
Qed.

Lemma xor_lists_firstn (n : nat) (c k : list Z) :
  firstn n (xor_lists c k) = xor_lists (firstn n c) (firstn n k).
Proof. unfold xor_lists. now rewrite firstn_map, combine_firstn. Qed.

Lemma int_of_aget_byte (a : list Z) (i : Z) : all_bytes a -> 0 <= int_of (aget a i) < 256.
Proof.
  intro Ha. unfold aget. destruct (i <? 0); [cbn; lia|].
  destruct (nth_error a (Z.to_nat i)) as [b|] eqn:E; [|cbn; lia].
  apply nth_error_In in E. unfold all_bytes in Ha. rewrite Forall_forall in Ha.
  cbn. now apply Ha.
Qed.

Section Progress.
Context {W : Type}.
Variable f : callback W.

(** The counts the loop meets from 0 are the multiples of 1024. *)
Lemma marks_from_spec (m : nat) :
  forall p, 0 <= p ->
    marks_from p m =
    map (fun k => 1024 * Z.of_nat k)
      (seq (S (Z.to_nat (p / 1024))) (Z.to_nat ((p + Z.of_nat m) / 1024 - p / 1024))).
Proof.
  induction m as [|m IH]; intros p Hp.
  - rewrite Z.add_0_r, Z.sub_diag. reflexivity.
  - cbn [marks_from]. rewrite IH by lia.
    replace (p + 1 + Z.of_nat m) with (p + Z.of_nat (S m)) by lia.
    set (t := (p + Z.of_nat (S m)) / 1024).
    assert (Ht : (p + 1) / 1024 <= t) by (subst t; apply Z.div_le_mono; lia).
    destruct (Z.eqb_spec ((p + 1) mod 1024) 0) as [H0|H0].
    + assert (Hq : (p + 1) / 1024 = p / 1024 + 1) by (Z.div_mod_to_equations; lia).
      assert (Hp1 : p + 1 = 1024 * (p / 1024 + 1)) by (Z.div_mod_to_equations; lia).
      rewrite Hq in *.
      replace (Z.to_nat (t - p / 1024)) with (S (Z.to_nat (t - (p / 1024 + 1)))) by lia.
      cbn [seq map app]. f_equal; [|f_equal; f_equal; lia].
      assert (0 <= p / 1024) by (apply Z.div_pos; lia). lia.
    + assert (Hq : (p + 1) / 1024 = p / 1024) by (Z.div_mod_to_equations; lia).
      rewrite Hq. reflexivity.
Qed.

Lemma marks_from_0 (n : Z) : 0 <= n -> marks_from 0 (Z.to_nat n) = progress_marks n.
Proof.
  intro Hn. rewrite marks_from_spec by lia. unfold progress_marks.
  rewrite Z2Nat.id by lia. change (0 / 1024) with 0. cbn [Z.to_nat].
  now rewrite Z.add_0_l, Z.sub_0_r.
Qed.

(** The loop of [quantumEncrypt] with a callback: the callback's
    calls, and the array that the loop without a callback fills. *)
Lemma encrypt_loop_callback (compressed : Uint8Array) (stream : list Z) :
  forall (idx p : Z) (enc : Uint8Array) (w : W),
    idx - 8 = p -> p + Z.of_nat (List.length stream) = len compressed ->
    encrypt_loop stream compressed (Some f) idx p enc w =
    match run_callback f
            (map (fun q => (JS.of_int q / JS.of_int (len compressed))%float)
               (marks_from p (List.length stream))) w with
    | Returns w' =>
        match encrypt_loop stream compressed None idx p enc tt with
        | Returns (e, _) => Returns (e, w')
        | Throws e => Throws e
        end
    | Throws e => Throws e
    end.
Proof.
  induction stream as [|keyByte stream IH]; intros idx p enc w Hidx Hlen.
  - reflexivity.
  - cbn [encrypt_loop List.length marks_from].
    cbn [List.length] in Hlen.
    destruct (Z.leb_spec (len compressed) (idx - 8)) as [Hle|_]; [lia|].
    unfold report.
    destruct (Z.eqb_spec ((p + 1) mod 1024) 0) as [H0|H0].
    + cbn [app map run_callback].
      destruct (f _ w) as [w'|e]; [|reflexivity].
      apply IH; lia.
    + cbn [app]. apply IH; lia.
Qed.


End Progress.

(** ** The values reported *)

Section ProgressValues.
Import Rounding FloatBounds Chaos.

Lemma run_callback_record (values log : list float) :
  run_callback record_progress values log = Returns (log ++ values).
Proof.
  revert log. induction values as [|v values IH]; intro log; cbn [run_callback].
  - now rewrite app_nil_r.
  - unfold record_progress at 1. rewrite IH. now rewrite <- app_assoc.
Qed.

Lemma progress_marks_range (n q : Z) :
  In q (progress_marks n) -> 0 < q <= n /\ q mod 1024 = 0.
Proof.
  unfold progress_marks. intro H. apply in_map_iff in H.
  destruct H as (k & <- & Hk). apply in_seq in Hk.
  assert (Hn : 0 < n / 1024) by lia.
  split; [|rewrite Z.mul_comm; apply Z_mod_mult].
  assert (Z.of_nat k <= n / 1024) by lia.
  Z.div_mod_to_equations. lia.
Qed.

Lemma quotient_le (P q n : Z) : 0 < P -> 0 <= q <= n -> q * P * P <= P * (n * P).
Proof.
  intros HP Hq. replace (q * P * P) with (P * P * q) by ring.
  replace (P * (n * P)) with (P * P * n) by ring.
  apply Z.mul_le_mono_nonneg_l; nia.
Qed.

Lemma quotient_lower (R T q n : Z) :
  0 < R -> 0 < T -> 1 <= q -> 0 <= n <= T ->
  R * (n * (T * R)) <= q * (T * R) * (T * R).
Proof.
  intros HR HT Hq Hn. replace (R * (n * (T * R))) with (R * R * T * n) by ring.
  replace (q * (T * R) * (T * R)) with (R * R * T * (q * T)) by ring.
  apply Z.mul_le_mono_nonneg_l; nia.
Qed.

Lemma quotient_lt (R T q n : Z) :
  0 < R -> 0 < T -> 0 <= q < n -> n <= T ->
  q * (T * R) * (T * R) <= (T * R - R) * (n * (T * R)).
Proof.
  intros HR HT Hq Hn. replace (q * (T * R) * (T * R)) with (R * R * T * (q * T)) by ring.
  replace ((T * R - R) * (n * (T * R))) with (R * R * T * ((T - 1) * n)) by ring.
  apply Z.mul_le_mono_nonneg_l; nia.
Qed.

(** The quotient of two counts [0 < q <= n < 2^53] is in (0, 1], and
    below 1 when [q < n]. *)
Lemma progress_quotient (q n : Z) :
  0 < q <= n -> n < 2 ^ 53 ->
  let v := (JS.of_int q / JS.of_int n)%float in
  (0 <? v)%float = true /\ (v <=? 1)%float = true /\
  (q < n -> (v <? 1)%float = true).
Proof.
  intros Hq Hn v.
  destruct (of_int_val q) as [Nq Vq]; [lia|].
  destruct (of_int_val n) as [Nn Vn]; [lia|].
  assert (N0 : nnf 0) by by_eval. assert (V0 : val 0 = 0) by by_eval.
  assert (N1 : nnf 1) by by_eval. assert (V1 : val 1 = 2 ^ 1074) by by_eval.
  assert (P1 : 0 < val 1) by lt_eval.
  assert (NB : nnf 0x1p-53) by by_eval. assert (VB : val 0x1p-53 = 2 ^ 1021) by by_eval.
  assert (PB : 0 < val 0x1p-53) by lt_eval.
  assert (ND : nnf (next_down 1)) by by_eval.
  assert (VD : val (next_down 1) = 2 ^ 1074 - 2 ^ 1021) by by_eval.
  assert (PD : 0 < val (next_down 1)) by lt_eval.
  assert (E53 : 2 ^ 1074 = 2 ^ 53 * 2 ^ 1021) by (rewrite <- Z.pow_add_r by lia; reflexivity).
  pose proof (pow2_pos 1021 ltac:(lia)) as HR.
  pose proof (pow2_pos 1074 ltac:(lia)) as HP.
  pose proof (pow2_pos 53 ltac:(lia)) as HT.
  assert (Py : 0 < val (JS.of_int n)) by (rewrite Vn; apply Z.mul_pos_pos; lia).
  destruct (div_upper _ _ 1 Nq Nn N1 Py P1) as [Nv Vv].
  { rewrite Vq, Vn, V1. apply quotient_le; lia. }
  fold v in Nv, Vv.
  assert (Lv : val 0x1p-53 <= val v).
  { apply (div_lower _ _ 0x1p-53 Nq Nn NB Py PB Nv). rewrite Vq, Vn, VB, E53.
    apply quotient_lower; lia. }
  rewrite !ltb_val, leb_val by assumption. rewrite V0.
  split; [apply Z.ltb_lt; lia|]. split; [apply Z.leb_le; exact Vv|].
  intro Hlt. apply Z.ltb_lt.
  apply Z.le_lt_trans with (val (next_down 1)); [|rewrite VD, V1; lia].
  apply (div_upper _ _ (next_down 1) Nq Nn ND Py PD). rewrite Vq, Vn, VD, E53.
  apply quotient_lt; lia.
Qed.

End ProgressValues.

(** ** The calls of the callback *)

Lemma quantumEncrypt_callback {W : Type} (data : Uint8Array) (password : list Z)
    (f : callback W) (w : W) :
  quantumEncrypt data password (Some f) w =
  match run_callback f (progress_values (len (quantumCompress data))) w with
  | Returns w' =>
      match encrypt data password with
      | Returns (r, _) => Returns (r, w')
      | Throws e => Throws e
      end
  | Throws e => Throws e
  end.
Proof.
  unfold encrypt, quantumEncrypt. cbv zeta.
  set (stream := entropyStream _ _).
  assert (Hs : List.length stream = Z.to_nat (len (quantumCompress data)))
    by (subst stream; apply entropyStream_length).
  pose proof (len_nonneg (quantumCompress data)) as Hn.
  rewrite encrypt_loop_callback by lia.
  rewrite Hs, marks_from_0 by assumption. fold (progress_values (len (quantumCompress data))).
  destruct (run_callback _ _ w) as [w'|e]; [|reflexivity].
  now destruct (encrypt_loop stream _ None _ _ _ tt) as [[e []]|e].
Qed.

(** ** The further properties *)

(** X12: [quantumEncrypt] with a callback calls it once for every 1024
    bytes processed, in order, with the fraction processed; a call
    that throws ends the encryption with its exception; otherwise the
    result is the one of the call without a callback, and the world
    is the one the calls leave. *)
Theorem quantumEncrypt_progress {W : Type} (data : Uint8Array) (password : list Z)
    (f : callback W) (w : W) :
  quantumEncrypt data password (Some f) w =
  match run_callback f (progress_values (len (quantumCompress data))) w with
  | Returns w' =>
      match encrypt data password with
      | Returns (r, _) => Returns (r, w')
      | Throws e => Throws e
      end
  | Throws e => Throws e
  end.
Proof. apply quantumEncrypt_callback. Qed.

(** X13: the callback of [quantumEncrypt] is called [n / 1024] times
    for [n] compressed bytes, with values in (0, 1]; the value 1 is
    reported only when [n] is a multiple of 1024. *)
Theorem quantumEncrypt_progress_values (data : Uint8Array) (password : list Z) :
  let n := len (quantumCompress data) in
  n < 2 ^ 53 ->
  exists (r : EncryptResult) (log : list float),
    quantumEncrypt data password (Some record_progress) [] = Returns (r, log) /\
    List.length log = Z.to_nat (n / 1024) /\
    Forall (fun v => (0 <? v)%float = true /\ (v <=? 1)%float = true) log /\
    (n mod 1024 <> 0 -> Forall (fun v => (v <? 1)%float = true) log).
Proof.
  intros n Hn. rewrite quantumEncrypt_callback, run_callback_record.
  rewrite encrypt_returns. fold n. cbn [app].
  exists (encrypt_value data password), (progress_values n).
  split; [reflexivity|]. split; [|split].
  - unfold progress_values, progress_marks. now rewrite !length_map, length_seq.
  - apply Forall_forall. intros v Hv. unfold progress_values in Hv.
    apply in_map_iff in Hv. destruct Hv as (q & <- & Hq).
    apply progress_marks_range in Hq.
    destruct (progress_quotient q n) as (H0 & H1 & _); [lia | exact Hn | now split].
  - intro Hm. apply Forall_forall. intros v Hv. unfold progress_values in Hv.
    apply in_map_iff in Hv. destruct Hv as (q & <- & Hq).
    apply progress_marks_range in Hq.
    destruct (progress_quotient q n) as (_ & _ & H2); [lia | exact Hn |].
    apply H2. destruct (Z.eq_dec q n); [subst q; lia | lia].
Qed.


(** X15: the container: the two lengths modulo 2^32 as four bytes
    each, most significant first, then the compressed bytes xored
    with the keystream of the password; with it come the fingerprint
    of the password and the digest of the container itself. *)
Theorem quantumEncrypt_layout (data : Uint8Array) (password : list Z) :
  let compressed := quantumCompress data in
  let keystream := entropyStream (generateEntropySeed password) (len compressed) in
  exists r : EncryptResult,
    encrypt data password = Returns (r, tt) /\
    is_bytes (encrypted r) /\
    len (encrypted r) = len compressed + 8 /\
    len (encrypted r) <= 3 * len data + 8 /\
    big_endian (firstn 4 (encrypted r)) = len data mod 4294967296 /\
    big_endian (firstn 4 (skipn 4 (encrypted r))) = len compressed mod 4294967296 /\
    skipn 8 (encrypted r) = xor_lists compressed keystream /\
    fingerprint r = generateEntropyFingerprint password /\
    hash r = quantumHash (encrypted r) password.
Proof.
  intros compressed keystream. exists (encrypt_value data password).
  split; [apply encrypt_returns|].
  cbn [encrypt_value encrypted fingerprint hash].
  unfold container_of. cbv zeta. fold compressed. fold keystream.
  assert (Hk : List.length keystream = List.length compressed).
  { subst keystream. rewrite entropyStream_length. unfold len. lia. }
  assert (Hlen : len ((be32 (len data) ++ be32 (len compressed)) ++
                      xor_bytes compressed keystream) = len compressed + 8).
  { rewrite !len_app. unfold len. rewrite xor_bytes_length by assumption.
    unfold be32. cbn [List.length]. lia. }
  split; [|split; [|split; [|split; [|split; [|split; [|split]]]]]]; try reflexivity.
  - apply is_bytes_all_bytes. apply Forall_app. split.
    + apply Forall_app. split; apply be32_bytes.
    + apply xor_bytes_bytes.
  - exact Hlen.
  - rewrite Hlen. subst compressed.
    unfold quantumCompress, Uint8Array_from, len. rewrite length_map.
    pose proof (compress_loop_length (List.length data) data). lia.
  - unfold be32. cbn [app firstn]. unfold big_endian. cbn [fold_left].
    pose proof (be32_value (len data)) as H. unfold JS.ToUint32 in *. lia.
  - unfold be32. cbn [app skipn firstn]. unfold big_endian. cbn [fold_left].
    pose proof (be32_value (len compressed)) as H. unfold JS.ToUint32 in *. lia.
  - unfold be32. cbn [app skipn]. apply xor_bytes_lists.
    + apply Uint8Array_from_all_bytes.
    + apply seed_stream_bytes.
Qed.

(** X16: the fingerprint spells the first 32 bytes of the keystream,
    so that the first 32 bytes of the compressed data are the xor of
    the container's bytes 8 to 39 with the bytes of the fingerprint:
    they are read without the password. *)
Theorem fingerprint_reveals_keystream (data : Uint8Array) (password : list Z) :
  exists r : EncryptResult,
    encrypt data password = Returns (r, tt) /\
    unhex (fingerprint r) = entropyStream (generateEntropySeed password) 32 /\
    firstn 32 (quantumCompress data) =
    xor_lists (firstn 32 (skipn 8 (encrypted r))) (unhex (fingerprint r)).
Proof.
  exists (encrypt_value data password). split; [apply encrypt_returns|].
  cbn [encrypt_value encrypted fingerprint hash].
  rewrite fingerprint_stream, unhex_hex_join by apply seed_stream_bytes.
  split; [reflexivity|].
  unfold container_of. cbv zeta. unfold be32. cbn [app skipn].
  set (c := quantumCompress data).
  set (seed := generateEntropySeed password).
  assert (Hc : all_bytes c) by apply Uint8Array_from_all_bytes.
  rewrite xor_bytes_lists by (try apply seed_stream_bytes; assumption).
  rewrite xor_lists_firstn. symmetry.
  assert (Hl : (List.length (firstn 32 c) <= 32)%nat) by (rewrite length_firstn; lia).
  assert (Hl' : (List.length (firstn 32 c) <= List.length c)%nat) by (rewrite length_firstn; lia).
  apply xor_lists_cancel.
  - now apply all_bytes_split.
  - rewrite !length_firstn, entropyStream_length. unfold len. lia.
  - rewrite firstn_firstn.
    replace (Nat.min (List.length (firstn 32 c)) 32) with (List.length (firstn 32 c)) by lia.
    set (k := List.length (firstn 32 c)) in *.
    replace k with (Z.to_nat (Z.of_nat k)) by lia.
    rewrite !entropyStream_firstn; [reflexivity | unfold len; lia | lia].
  - rewrite entropyStream_length. lia.
Qed.

(** X17: [quantumDecrypt] throws a [RangeError], instead of returning
    [null], on every container that passes the two checks and whose
    fifth byte is 0x80 or more: the stored compressed length is read
    as a negative number. *)
Theorem quantumDecrypt_range_error {W : Type} (container : Uint8Array)
    (password : list Z) (expectedFingerprint expectedHash : string)
    (onProgress : option (callback W)) (w : W) :
  is_bytes container ->
  generateEntropyFingerprint password = expectedFingerprint ->
  quantumHash container password = expectedHash ->
  128 <= int_of (aget container 4) ->
  quantumDecrypt container password expectedFingerprint expectedHash onProgress w
    = Throws RangeError.
Proof.
  intros Hb Hfp Hd H4. apply is_bytes_all_bytes in Hb.
  apply String.eqb_eq in Hfp, Hd.
  unfold quantumDecrypt. cbv zeta. rewrite Hfp, Hd. cbn [negb].
  pose proof (int_of_aget_byte container 4 Hb) as B0.
  pose proof (int_of_aget_byte container (4 + 1) Hb) as B1.
  pose proof (int_of_aget_byte container (4 + 2) Hb) as B2.
  pose proof (int_of_aget_byte container (4 + 3) Hb) as B3.
  rewrite read_length_sum by assumption. rewrite Z.add_0_r.
  set (s := _ + int_of (aget container (4 + 3))).
  assert (Hs : 2147483648 <= s < 4294967296) by (subst s; lia).
  assert (Hneg : JS.ToInt32 s < 0).
  { unfold JS.ToInt32.
    replace (s + 2147483648) with (s - 2147483648 + 1 * 4294967296) by lia.
    rewrite Z_mod_plus_full, Z.mod_small; lia. }
  destruct (Z.ltb_spec (JS.ToInt32 s) 0); [reflexivity | lia].
Qed.

(** X18: two passwords whose hashes have the same magnitude are the
    same password to the engine: same seed, same fingerprint, same
    digests, same encryption, same decryption. *)
Theorem password_hash_magnitude (p1 p2 : list Z) :
  Z.abs (seed_hash p1) = Z.abs (seed_hash p2) ->
  generateEntropySeed p1 = generateEntropySeed p2 /\
  generateEntropyFingerprint p1 = generateEntropyFingerprint p2 /\
  (forall data, quantumHash data p1 = quantumHash data p2) /\
  (forall W data onProgress (w : W),
     quantumEncrypt data p1 onProgress w = quantumEncrypt data p2 onProgress w) /\
  (forall W container fp digest onProgress (w : W),
     quantumDecrypt container p1 fp digest onProgress w =
     quantumDecrypt container p2 fp digest onProgress w).
Proof.
  intro H. apply seed_of_hash in H.
  split; [exact H|]. split; [now apply fingerprint_of_seed|].
  split; [intro data; now apply quantumHash_of_seed|].
  split; [intros; now apply quantumEncrypt_of_seed|].
  intros; now apply quantumDecrypt_of_seed.
Qed.

(** X19: what one password of at most three ASCII characters has
    encrypted, every other such password decrypts: they all have the
    seed 0.0001, so the fingerprint check lets them through. *)
Theorem short_passwords_decrypt (p1 p2 : list Z) (data : Uint8Array) :
  (List.length p1 <= 3)%nat -> ascii_codes p1 = true ->
  (List.length p2 <= 3)%nat -> ascii_codes p2 = true ->
  is_bytes data -> 3 * len data < 2147483648 ->
  exists r : EncryptResult,
    encrypt data p1 = Returns (r, tt) /\
    decrypt (encrypted r) p2 (fingerprint r) (hash r) = Returns (Some data, tt).
Proof.
  intros L1 A1 L2 A2 Hb Hn.
  assert (Hseed : generateEntropySeed p2 = generateEntropySeed p1).
  { transitivity 0.0001%float; [|symmetry]; now apply seed_short_ascii. }
  exists (encrypt_value data p1). split; [apply encrypt_returns|].
  unfold decrypt. rewrite (quantumDecrypt_of_seed p2 p1) by assumption.
  cbn [encrypt_value encrypted fingerprint hash].
  fold (decrypt (container_of data p1) p1 (generateEntropyFingerprint p1)
          (quantumHash (container_of data p1) p1)).
  pose proof (len_nonneg data) as H0.
  assert (Hc : len (quantumCompress data) <= 3 * len data).
  { unfold quantumCompress, Uint8Array_from, len. rewrite length_map.
    pose proof (compress_loop_length (List.length data) data). lia. }
  rewrite decrypt_container by (try assumption; lia).
  rewrite ToInt32_small by lia. now rewrite Z.eqb_refl.
Qed.

(** X20: from 2^31 bytes on (and below 2^32), [decrypt] never returns
    the data that [encrypt] was given: the stored length is read back
    as a negative number. *)
Theorem decrypt_encrypt_fails_from_2G (data : Uint8Array) (password : list Z) :
  2147483648 <= len data < 4294967296 ->
  exists r : EncryptResult,
    encrypt data password = Returns (r, tt) /\
    forall plain w,
      decrypt (encrypted r) password (fingerprint r) (hash r) <> Returns (Some plain, w).
Proof.
  intro Hn. exists (encrypt_value data password). split; [apply encrypt_returns|].
  cbn [encrypt_value encrypted fingerprint hash]. now apply decrypt_encrypt_from_2G.
Qed.

(** X21: [quantumDecrypt] returns a plaintext only for a container
    that passed both checks, and only one as long as the container's
    first four bytes say; in every other case it returns [null] or
    throws. *)
Theorem quantumDecrypt_plaintext {W : Type} (container : Uint8Array) (password : list Z)
    (expectedFingerprint expectedHash : string) (onProgress : option (callback W))
    (w w' : W) (plain : Uint8Array) :
  quantumDecrypt container password expectedFingerprint expectedHash onProgress w
    = Returns (Some plain, w') ->
  generateEntropyFingerprint password = expectedFingerprint /\
  quantumHash container password = expectedHash /\
  0 <= read_length container 4 /\
  len plain = read_length container 0 /\
  is_bytes plain.
Proof.
  unfold quantumDecrypt. cbv zeta.
  destruct (String.eqb_spec (generateEntropyFingerprint password) expectedFingerprint)
    as [Hfp|_]; [|discriminate].
  destruct (String.eqb_spec (quantumHash container password) expectedHash)
    as [Hd|_]; [|discriminate].
  cbn [negb].
  destruct (Z.ltb_spec (read_length container 4) 0) as [|Hpos]; [discriminate|].
  destruct (decrypt_loop _ _ _ _ _ _ w) as [[c w'']|e]; [|discriminate].
  destruct (Z.eqb_spec (len (quantumDecompress c)) (read_length container 0))
    as [Hlen|_]; [|discriminate].
  cbn [negb]. intro H. injection H as <- _.
  repeat split; try assumption.
  apply is_bytes_all_bytes. apply Uint8Array_from_all_bytes.
Qed.

(** ** Instances *)

#[local] Transparent entropyStream generateEntropySeed quantumHash generateEntropyFingerprint.

(** 2100 bytes that are stored raw: the callback is called at 1024
    and at 2048. *)
Example encrypt_2100_bytes_progress :
  match quantumEncrypt (map (fun i => Z.of_nat i mod 251) (seq 0 2100))
          (password_of "password1") (Some record_progress) [] with
  | Returns (r, log) =>
      len (encrypted r) = 2108 /\ log = [(1024 / 2100)%float; (2048 / 2100)%float]
  | Throws _ => False
  end.
Proof. vm_compute. split; reflexivity. Qed.

Lemma quantumEncrypt_progress_values_witness :
  len (quantumCompress [1; 2; 3]) < 2 ^ 53 /\
  exists (r : EncryptResult) (log : list float),
    quantumEncrypt [1; 2; 3] (password_of "password1") (Some record_progress) []
      = Returns (r, log) /\
    List.length log = Z.to_nat (len (quantumCompress [1; 2; 3]) / 1024) /\
    Forall (fun v => (0 <? v)%float = true /\ (v <=? 1)%float = true) log /\
    (len (quantumCompress [1; 2; 3]) mod 1024 <> 0 ->
     Forall (fun v => (v <? 1)%float = true) log).
Proof.
  split; [reflexivity|].
  apply (quantumEncrypt_progress_values [1; 2; 3]). reflexivity.
Defined.


(** A container of five bytes whose fifth byte is 0x80, with its own
    digest. *)
Lemma quantumDecrypt_range_error_witness :
  is_bytes [0; 0; 0; 0; 128] /\
  generateEntropyFingerprint (password_of "p") = generateEntropyFingerprint (password_of "p") /\
  quantumHash [0; 0; 0; 0; 128] (password_of "p")
    = quantumHash [0; 0; 0; 0; 128] (password_of "p") /\
  128 <= int_of (aget [0; 0; 0; 0; 128] 4) /\
  quantumDecrypt (W := unit) [0; 0; 0; 0; 128] (password_of "p")
    (generateEntropyFingerprint (password_of "p"))
    (quantumHash [0; 0; 0; 0; 128] (password_of "p")) None tt
  = Throws RangeError.
Proof.
  split; [reflexivity|]. split; [reflexivity|]. split; [reflexivity|].
  split; [vm_compute; discriminate|].
  apply quantumDecrypt_range_error; [reflexivity | reflexivity | reflexivity |].
  vm_compute. discriminate.
Defined.

(** "Aa" and "BB" have the hash 2112. *)
Lemma password_hash_magnitude_witness :
  Z.abs (seed_hash (password_of "Aa")) = Z.abs (seed_hash (password_of "BB")) /\
  generateEntropySeed (password_of "Aa") = generateEntropySeed (password_of "BB") /\
  generateEntropyFingerprint (password_of "Aa") = generateEntropyFingerprint (password_of "BB") /\
  (forall data, quantumHash data (password_of "Aa") = quantumHash data (password_of "BB")) /\
  (forall W data onProgress (w : W),
     quantumEncrypt data (password_of "Aa") onProgress w =
     quantumEncrypt data (password_of "BB") onProgress w) /\
  (forall W container fp digest onProgress (w : W),
     quantumDecrypt container (password_of "Aa") fp digest onProgress w =
     quantumDecrypt container (password_of "BB") fp digest onProgress w).
Proof.
  split; [vm_compute; reflexivity|].
  apply password_hash_magnitude. vm_compute. reflexivity.
Defined.

Lemma short_passwords_decrypt_witness :
  (List.length (password_of "abc") <= 3)%nat /\ ascii_codes (password_of "abc") = true /\
  (List.length (password_of "Z") <= 3)%nat /\ ascii_codes (password_of "Z") = true /\
  is_bytes [1; 2; 3] /\ 3 * len [1; 2; 3] < 2147483648 /\
  exists r : EncryptResult,
    encrypt [1; 2; 3] (password_of "abc") = Returns (r, tt) /\
    decrypt (encrypted r) (password_of "Z") (fingerprint r) (hash r)
      = Returns (Some [1; 2; 3], tt).
Proof.
  split; [cbn; lia|]. split; [reflexivity|]. split; [cbn; lia|]. split; [reflexivity|].
  split; [reflexivity|]. split; [vm_compute; reflexivity|].
  apply short_passwords_decrypt;
    [cbn; lia | reflexivity | cbn; lia | reflexivity | reflexivity | vm_compute; reflexivity].
Defined.

Lemma decrypt_encrypt_below_2G_witness :
  is_bytes [1; 2; 3] /\ len [1; 2; 3] < 2147483648 /\
  len (quantumCompress [1; 2; 3]) < 2147483648 /\
  exists r : EncryptResult,
    encrypt [1; 2; 3] (password_of "password1") = Returns (r, tt) /\
    decrypt (encrypted r) (password_of "password1") (fingerprint r) (hash r)
      = Returns (Some [1; 2; 3], tt).
Proof.
  split; [reflexivity|]. split; [vm_compute; reflexivity|]. split; [vm_compute; reflexivity|].
  apply decrypt_encrypt_below_2G; [reflexivity | vm_compute; reflexivity | vm_compute; reflexivity].
Defined.

Lemma decrypt_encrypt_fails_from_2G_witness :
  2147483648 <= len (repeat 0 (Z.to_nat 2147483648)) < 4294967296 /\
  exists r : EncryptResult,
    encrypt (repeat 0 (Z.to_nat 2147483648)) (password_of "password1") = Returns (r, tt) /\
    forall plain w,
      decrypt (encrypted r) (password_of "password1") (fingerprint r) (hash r)
        <> Returns (Some plain, w).
Proof.
  assert (H : 2147483648 <= len (repeat 0 (Z.to_nat 2147483648)) < 4294967296).
  { set (N := Z.to_nat 2147483648).
    assert (HN : Z.of_nat N = 2147483648) by (subst N; lia).
    clearbody N. unfold len. rewrite repeat_length. lia. }
  split; [exact H | apply decrypt_encrypt_fails_from_2G; exact H].
Defined.

Lemma quantumDecrypt_plaintext_witness :
  quantumDecrypt (W := unit) [0; 0; 0; 3; 0; 0; 0; 3; 115; 59; 141] (password_of "password1")
    "72398ee8306674dc5ccb7080fa0c1b43a4d171ee338586ec2f7aec295898a67c"
    "3e5a1e6b4d1a1536d6e143c20db8051c74401f07c7c71fcc163b8f0203cc1f1d" None tt
    = Returns (Some [1; 2; 3], tt) /\
  generateEntropyFingerprint (password_of "password1")
    = "72398ee8306674dc5ccb7080fa0c1b43a4d171ee338586ec2f7aec295898a67c"%string /\
  quantumHash [0; 0; 0; 3; 0; 0; 0; 3; 115; 59; 141] (password_of "password1")
    = "3e5a1e6b4d1a1536d6e143c20db8051c74401f07c7c71fcc163b8f0203cc1f1d"%string /\
  0 <= read_length [0; 0; 0; 3; 0; 0; 0; 3; 115; 59; 141] 4 /\
  len [1; 2; 3] = read_length [0; 0; 0; 3; 0; 0; 0; 3; 115; 59; 141] 0 /\
  is_bytes [1; 2; 3].
Proof.
  split; [vm_compute; reflexivity|].
  apply (quantumDecrypt_plaintext (W := unit) _ _ _ _ None tt tt).
  vm_compute. reflexivity.
Defined.
